(** * OpenAPI discovery, caching and example synthesis of the documentation portal

    A shallow embedding of [src/utils/dynamic-openapi.ts],
    [src/utils/api-versions.ts] and [src/utils/simple-openapi-loader.ts],
    with the properties their specification states about them.

    Parsed YAML documents are modelled as untyped JavaScript data ([json]);
    the functions follow the TypeScript text: truthiness tests, property
    reads, [try]/[catch] and the module-level caches are written out. *)

From Stdlib Require Import ZArith String Ascii List Bool Lia.
From Stdlib Require Import Sorting.Sorted Sorting.Permutation.
From stdpp Require Import base option list strings pretty gmap.

Local Open Scope string_scope.
Local Open Scope Z_scope.
Local Set Warnings "-register-all".

(** ** JavaScript values and the primitive operations the sources use *)

Module Js.

(** A value produced by the YAML parser, or read from one.  Objects keep
    their own-property order, which is what [Object.entries] walks.
    Numbers are integers: the sources hand the numbers of a document on
    and test them for zero, nothing else.  Strings are byte strings, so a
    character outside ASCII is a run of bytes none of which is
    alphanumeric.  [get] reads own properties: it stands for the reads
    under a key the source spells out, none of which names a member of a
    built-in prototype of these values; a read under a computed key is
    modelled where it occurs. *)
Inductive json : Type :=
| JUndef
| JNull
| JBool (b : bool)
| JNum (z : Z)
| JStr (s : string)
| JArr (items : list json)
| JObj (fields : list (string * json)).

(** Exceptions the sources can meet: a call through a missing method or a
    property read on [null] is a [TypeError]; running out of call stack is
    a [RangeError]. *)
Inductive error : Type := TypeError | RangeError.

Inductive result (A : Type) : Type :=
| Ok (a : A)
| Throw (e : error).
Arguments Ok {A} a.
Arguments Throw {A} e.

Definition bind {A B} (r : result A) (k : A -> result B) : result B :=
  match r with
  | Ok a => k a
  | Throw e => Throw e
  end.

Definition is_ok {A} (r : result A) : bool :=
  match r with Ok _ => true | Throw _ => false end.

Definition is_undef (v : json) : bool :=
  match v with JUndef => true | _ => false end.

Definition is_nullish (v : json) : bool :=
  match v with JUndef | JNull => true | _ => false end.

(** [ToBoolean]. *)
Definition truthy (v : json) : bool :=
  match v with
  | JUndef | JNull => false
  | JBool b => b
  | JNum z => negb (z =? 0)
  | JStr s => negb (String.eqb s "")
  | JArr _ | JObj _ => true
  end.

(** [typeof v === 'object'] for a truthy [v]. *)
Definition is_object (v : json) : bool :=
  match v with JArr _ | JObj _ => true | _ => false end.

(** [v === s] for a string literal [s]. *)
Definition str_eq (v : json) (s : string) : bool :=
  match v with JStr t => String.eqb t s | _ => false end.

(** Own property of an object. *)
Fixpoint field (k : string) (fields : list (string * json)) : json :=
  match fields with
  | [] => JUndef
  | (k', v) :: rest => if String.eqb k k' then v else field k rest
  end.

(** [k in obj] for own properties. *)
Fixpoint has_field (k : string) (fields : list (string * json)) : bool :=
  match fields with
  | [] => false
  | (k', _) :: rest => String.eqb k k' || has_field k rest
  end.

(** [obj[k] = v]: an existing key keeps its place. *)
Fixpoint set_field (k : string) (v : json) (fields : list (string * json))
  : list (string * json) :=
  match fields with
  | [] => [(k, v)]
  | (k', v') :: rest =>
      if String.eqb k k' then (k', v) :: rest
      else (k', v') :: set_field k v rest
  end.

Definition digit (c : ascii) : option nat :=
  let n := nat_of_ascii c in
  if ((48 <=? n) && (n <=? 57))%nat then Some (n - 48)%nat else None.

Fixpoint digits (acc : nat) (cs : list ascii) : option nat :=
  match cs with
  | [] => Some acc
  | c :: rest =>
      match digit c with
      | Some d => digits (10 * acc + d)%nat rest
      | None => None
      end
  end.

(** A property key that is an array index: a canonical decimal numeral. *)
Definition array_index (k : string) : option nat :=
  match list_ascii_of_string k with
  | [] => None
  | [c] => digit c
  | c :: rest => if Ascii.eqb c "0" then None else digits 0 (c :: rest)
  end.

Definition char_str (c : ascii) : json := JStr (String c "").

(** [v[k]] on a value that is neither [null] nor [undefined]. *)
Definition get (v : json) (k : string) : json :=
  match v with
  | JObj fields => field k fields
  | JArr items =>
      if String.eqb k "length" then JNum (Z.of_nat (List.length items))
      else match array_index k with
           | Some i => nth i items JUndef
           | None => JUndef
           end
  | JStr s =>
      if String.eqb k "length" then JNum (Z.of_nat (String.length s))
      else match array_index k with
           | Some i => nth i (map char_str (list_ascii_of_string s)) JUndef
           | None => JUndef
           end
  | _ => JUndef
  end.

Definition index_keys {A} (l : list A) : list (string * A) :=
  imap (fun i x => (pretty i, x)) l.

(** [Object.entries(v)] for a truthy [v]. *)
Definition entries (v : json) : list (string * json) :=
  match v with
  | JObj fields => fields
  | JArr items => index_keys items
  | JStr s => index_keys (map char_str (list_ascii_of_string s))
  | _ => []
  end.

(** *** Strings *)

Fixpoint prefix_of (p s : list ascii) : bool :=
  match p, s with
  | [], _ => true
  | _ :: _, [] => false
  | a :: p', b :: s' => Ascii.eqb a b && prefix_of p' s'
  end.

Fixpoint includes_chars (sub s : list ascii) : bool :=
  prefix_of sub s ||
  match s with
  | [] => false
  | _ :: rest => includes_chars sub rest
  end.

(** [s.includes(sub)]. *)
Definition includes (s sub : string) : bool :=
  includes_chars (list_ascii_of_string sub) (list_ascii_of_string s).

(** [s.startsWith(p)]. *)
Definition startsWith (s p : string) : bool :=
  prefix_of (list_ascii_of_string p) (list_ascii_of_string s).

(** [s.replace(pat, '')] with a string pattern: the first occurrence goes. *)
Fixpoint remove_first (pat s : list ascii) : list ascii :=
  if prefix_of pat s then skipn (List.length pat) s
  else match s with
       | [] => []
       | c :: rest => c :: remove_first pat rest
       end.

(** [s.split(sep)] for a one-character separator: never empty. *)
Fixpoint split_chars (sep : ascii) (s : list ascii) : list (list ascii) :=
  match s with
  | [] => [[]]
  | c :: rest =>
      if Ascii.eqb c sep then [] :: split_chars sep rest
      else match split_chars sep rest with
           | [] => [[c]]
           | seg :: segs => (c :: seg) :: segs
           end
  end.

(** [words.join(sep)]. *)
Fixpoint join_chars (sep : list ascii) (words : list (list ascii))
  : list ascii :=
  match words with
  | [] => []
  | [w] => w
  | w :: rest => (w ++ sep ++ join_chars sep rest)%list
  end.

Definition join (sep : string) (words : list string) : string :=
  string_of_list_ascii
    (join_chars (list_ascii_of_string sep) (map list_ascii_of_string words)).

(** No character of [s] is [c]. *)
Definition free_of (c : ascii) (s : string) : bool :=
  forallb (fun x => negb (Ascii.eqb x c)) (list_ascii_of_string s).

Definition split (sep : ascii) (s : string) : list string :=
  map string_of_list_ascii (split_chars sep (list_ascii_of_string s)).

Definition is_lower (c : ascii) : bool :=
  let n := nat_of_ascii c in ((97 <=? n) && (n <=? 122))%nat.
Definition is_upper (c : ascii) : bool :=
  let n := nat_of_ascii c in ((65 <=? n) && (n <=? 90))%nat.
Definition is_digit (c : ascii) : bool :=
  let n := nat_of_ascii c in ((48 <=? n) && (n <=? 57))%nat.

(** The class [[a-zA-Z0-9]]. *)
Definition is_alnum (c : ascii) : bool := is_lower c || is_upper c || is_digit c.

Definition upper_char (c : ascii) : ascii :=
  if is_lower c then ascii_of_nat (nat_of_ascii c - 32) else c.
Definition lower_char (c : ascii) : ascii :=
  if is_upper c then ascii_of_nat (nat_of_ascii c + 32) else c.

Definition map_chars (f : ascii -> ascii) (s : string) : string :=
  string_of_list_ascii (map f (list_ascii_of_string s)).

(** [s.toUpperCase()] and [s.toLowerCase()] on ASCII text. *)
Definition toUpperCase : string -> string := map_chars upper_char.
Definition toLowerCase : string -> string := map_chars lower_char.

End Js.

(** ** Example synthesis: [generateExampleFromSchema] *)

Module ExampleGen.
Import Js.

(** [schema.$ref.replace('#/', '').split('/')]. *)
Definition refPath (ref : string) : list string :=
  map string_of_list_ascii
    (split_chars "/" (remove_first ["#"; "/"]%char (list_ascii_of_string ref))).

(** [k] is an own property of [v]: a key of an object, an index or
    [length] of an array or a string. *)
Definition has_own (v : json) (k : string) : bool :=
  match v with
  | JObj fields => has_field k fields
  | JArr items =>
      String.eqb k "length"
      || match array_index k with
         | Some i => (i <? List.length items)%nat
         | None => false
         end
  | JStr s =>
      String.eqb k "length"
      || match array_index k with
         | Some i => (i <? String.length s)%nat
         | None => false
         end
  | _ => false
  end.

(** What becomes of a call whose loop has left the document: a read
    raises, a read gives a falsy value, or the loop ends at an object of
    the host, on which the function calls itself; [returns] is what that
    call returns, being given a frame to run in. *)
Inductive departure : Type :=
| Raises (e : error)
| Falls
| Calls (returns : result json).

(** The host's side of a read with a computed key.  Besides its own
    properties a value of a document has the members of a built-in
    prototype ([constructor], [toString], ...), and a read that finds one
    leaves the document for the objects of the host.  Which members there
    are is the engine's matter, and so is what the reads that follow
    meet; the two laws are facts ECMA-262 fixes for every engine. *)
Class Engine : Type := {
  (** [inherited v k]: the prototype chain of [v], a value that is neither
      [null] nor [undefined], has a member [k]. *)
  inherited : json -> string -> bool;
  (** [beyond spec v k rest]: what the call meets once its loop has read
      the inherited member [k] of [v], with the segments [rest] left to
      read. *)
  beyond : json -> json -> string -> list string -> departure;
  (** An object inherits [constructor], the function [Object], from
      [%Object.prototype%]. *)
  object_constructor :
    forall fields, inherited (JObj fields) "constructor" = true;
  (** Reading [caller] of a built-in function raises: its getter is
      [%ThrowTypeError%]. *)
  caller_restricted :
    forall spec fields rest,
      beyond spec (JObj fields) "constructor" ("caller" :: rest)
      = Raises TypeError }.

(** Where the loop over [refPath] ends: at a value of the document, at a
    falsy value, or outside the document. *)
Inductive walked : Type :=
| Resolved (target : json)
| Missing
| Beyond (v : json) (k : string) (rest : list string).

(** [example[propName] = value] on a plain object, kept as the list of
    its own properties: the name [__proto__] goes to the setter of
    [%Object.prototype%], which adds no property. *)
Definition assign_field (propName : string) (value : json)
    (example : list (string * json)) : list (string * json) :=
  if String.eqb propName "__proto__" then example
  else set_field propName value example.

(** The [forEach] over [Object.entries(schema.properties)], filling
    [example] one key at a time. *)
Fixpoint example_fields (gen : json -> result json)
    (props example : list (string * json)) : result (list (string * json)) :=
  match props with
  | [] => Ok example
  | (propName, propSchema) :: rest =>
      bind (gen propSchema)
           (fun v => example_fields gen rest (assign_field propName v example))
  end.

Section WithEngine.
Context `{Engine}.

(** The loop over [refPath]: [resolvedSchema = resolvedSchema?.[part]],
    leaving as soon as the value is falsy.  An own property shadows an
    inherited member. *)
Fixpoint walk (resolvedSchema : json) (parts : list string) : walked :=
  match parts with
  | [] => Resolved resolvedSchema
  | part :: rest =>
      if is_nullish resolvedSchema then Missing
      else if has_own resolvedSchema part then
        if truthy (get resolvedSchema part)
        then walk (get resolvedSchema part) rest
        else Missing
      else if inherited resolvedSchema part
      then Beyond resolvedSchema part rest
      else Missing
  end.

(** The body of [generateExampleFromSchema], with [recur] standing for its
    recursive calls on values of the document; [frame] tells whether a
    recursive call has a frame to run in. *)
Definition exampleBody (recur : json -> result json) (frame : bool)
    (schema spec : json) : result json :=
  if negb (truthy schema) then Ok JNull
  else if negb (is_undef (get schema "example")) then
    Ok (get schema "example")
  else if truthy (get schema "$ref") then
    match get schema "$ref" with
    | JStr ref =>
        match walk spec (refPath ref) with
        | Missing => Ok JNull
        | Resolved resolvedSchema => recur resolvedSchema
        | Beyond v k rest =>
            match beyond spec v k rest with
            | Raises e => Throw e
            | Falls => Ok JNull
            | Calls returns => if frame then returns else Throw RangeError
            end
        end
    | _ => Throw TypeError
    end
  else
    let type := get schema "type" in
    if str_eq type "string" then
      if str_eq (get schema "format") "email" then
        Ok (JStr "user@example.com")
      else if str_eq (get schema "format") "date-time" then
        Ok (JStr "2024-01-01T00:00:00Z")
      else if str_eq (get schema "format") "date" then
        Ok (JStr "2024-01-01")
      else if truthy (get schema "enum") then
        Ok (get (get schema "enum") "0")
      else Ok (JStr "string")
    else if str_eq type "number" || str_eq type "integer" then
      Ok (if negb (is_undef (get schema "default"))
          then get schema "default" else JNum 0)
    else if str_eq type "boolean" then
      Ok (if negb (is_undef (get schema "default"))
          then get schema "default" else JBool false)
    else if str_eq type "array" then
      if truthy (get schema "items") then
        bind (recur (get schema "items")) (fun v => Ok (JArr [v]))
      else Ok (JArr [])
    else if str_eq type "object" then
      if truthy (get schema "properties") then
        bind (example_fields recur (entries (get schema "properties")) [])
             (fun example => Ok (JObj example))
      else Ok (JObj [])
    else Ok JNull.

(** [generateExampleFromSchema(schema, spec)].  [depth] is the call stack
    left: the source recurses without a guard, and the engine raises
    [RangeError] when the stack is exhausted. *)
Fixpoint generateExampleFromSchema (depth : nat) (schema spec : json)
  : result json :=
  match depth with
  | O => Throw RangeError
  | S depth' =>
      exampleBody (fun s => generateExampleFromSchema depth' s spec)
                  (negb (Nat.eqb depth' 0)) schema spec
  end.

End WithEngine.

(** A schema that carries neither an explicit example nor a reference, so
    that its declared type decides. *)
Definition by_type (schema : json) : Prop :=
  truthy schema = true /\ get schema "example" = JUndef /\
  truthy (get schema "$ref") = false.

Definition has_type (schema : json) (t : string) : Prop :=
  get schema "type" = JStr t.

(** The names a schema declares under [properties]. *)
Definition declared (schema : json) : list string :=
  map fst (entries (get schema "properties")).

(** An engine for closed runs: the prototypes hold the members of
    [%Object.prototype%]; past them a read of the restricted [caller] or
    [arguments] of a function raises, and every other walk ends at an
    object of the host, for which the function returns [null]. *)
Definition object_members : list string :=
  ["constructor"; "__proto__"; "hasOwnProperty"; "isPrototypeOf";
   "propertyIsEnumerable"; "toLocaleString"; "toString"; "valueOf";
   "__defineGetter__"; "__defineSetter__"; "__lookupGetter__";
   "__lookupSetter__"].

Definition restricted (k : string) (rest : list string) : bool :=
  negb (String.eqb k "__proto__")
  && match rest with
     | name :: _ => String.eqb name "caller" || String.eqb name "arguments"
     | [] => false
     end.

Definition plain_engine : Engine := {|
  inherited := fun _ k => existsb (String.eqb k) object_members;
  beyond := fun _ _ k rest =>
    if restricted k rest then Raises TypeError else Calls (Ok JNull);
  object_constructor := fun _ => eq_refl;
  caller_restricted := fun _ _ _ => eq_refl |}.

End ExampleGen.

(** ** The discovery layer: [dynamic-openapi.ts] *)

Module DynamicOpenapi.
Import Js.

(** [DynamicApiOperation].  Fields copied from the document keep the type
    the document gave them.  [markdownContent] is the rendered page. *)
Record DynamicApiOperation : Type := {
  operationId : json;
  method : string;
  path : string;
  summary : json;
  description : json;
  tags : json;
  markdownContent : string }.

Record DynamicApiSpec : Type := {
  id : string;
  fileName : string;
  title : json;
  specDescription : json;
  version : json;
  serviceName : string;
  operations : list DynamicApiOperation;
  spec : json;
  language : string }.

Record ApiSpecCache : Type := {
  specs : list DynamicApiSpec;
  lastUpdated : Z }.

(** One module of an [import.meta.glob] result: the path, and what
    [parse] of the [yaml] package makes of the raw text ([Throw] for text
    that is not YAML). *)
Record YamlModule : Type := {
  filePath : string;
  parsed : result json }.

(** What a call can observe outside the module: the clock, and the two
    glob imports (absent, hence raising, outside a Vite build).  A call is
    taken at one instant: the source reads [Date.now()] when it tests the
    cache entry and again, a synchronous scan later, when it stores one. *)
Record World : Type := {
  Date_now : Z;
  versionedModules : result (list YamlModule);
  legacyModules : result (list YamlModule) }.

(** The parts of the run time the sources call but do not define: the HTML
    rendering done by [generateOperationMarkdown], which may raise on
    malformed operations, and the engine's [Array.prototype.sort] under the
    [localeCompare] comparator, whose order is the host's collation. *)
Class Runtime : Type := {
  generateOperationMarkdown :
    json -> string -> string -> json -> result string;
  sortBySummary :
    list DynamicApiOperation -> result (list DynamicApiOperation) }.

Definition CACHE_DURATION : Z := 5 * 60 * 1000.

Definition methods : list string :=
  ["get"; "post"; "put"; "delete"; "patch"; "options"; "head"].

(** *** [generateOperationId] *)

Definition is_brace (c : ascii) : bool :=
  Ascii.eqb c "{" || Ascii.eqb c "}".

Definition underscore : ascii := "_"%char.
Definition is_underscore (c : ascii) : bool := Ascii.eqb c underscore.

(** [.replace(/[{}]/g, '')]. *)
Definition drop_braces (s : list ascii) : list ascii :=
  List.filter (fun c => negb (is_brace c)) s.

(** [.replace(/[^a-zA-Z0-9]/g, '_')]. *)
Definition mask_non_alnum (s : list ascii) : list ascii :=
  map (fun c => if is_alnum c then c else underscore) s.

(** [.replace(/_+/g, '_')]. *)
Fixpoint squeeze_underscores (s : list ascii) : list ascii :=
  match s with
  | [] => []
  | c :: rest =>
      if is_underscore c then
        match rest with
        | c' :: _ =>
            if is_underscore c' then squeeze_underscores rest
            else c :: squeeze_underscores rest
        | [] => [c]
        end
      else c :: squeeze_underscores rest
  end.

(** [.replace(/^_|_$/g, '')]: one underscore at the start and one at the
    end are removed. *)
Definition drop_final_underscore (s : list ascii) : list ascii :=
  match List.rev s with
  | c :: rest => if is_underscore c then List.rev rest else s
  | [] => s
  end.

Definition trim_edge_underscores (s : list ascii) : list ascii :=
  match s with
  | c :: rest =>
      if is_underscore c then drop_final_underscore rest
      else drop_final_underscore s
  | [] => []
  end.

Definition cleanPath (path : string) : string :=
  string_of_list_ascii
    (trim_edge_underscores
       (squeeze_underscores
          (mask_non_alnum (drop_braces (list_ascii_of_string path))))).

Definition generateOperationId (method path : string) : string :=
  method +:+ "_" +:+ cleanPath path.

(** *** [formatServiceName] *)

Definition capitalize (word : list ascii) : list ascii :=
  match word with
  | [] => []
  | c :: rest => upper_char c :: rest
  end.

(** [.replace(/Api$/, 'API')]. *)
Definition api_suffix (s : list ascii) : list ascii :=
  match List.rev s with
  | "i"%char :: "p"%char :: "A"%char :: rest =>
      (List.rev rest ++ ["A"; "P"; "I"]%char)%list
  | _ => s
  end.

Definition formatServiceName (specId : string) : string :=
  string_of_list_ascii
    (api_suffix
       (join_chars [" "%char]
          (map capitalize (split_chars "-" (list_ascii_of_string specId))))).

(** *** Path grammar *)

Definition nonempty (s : string) : bool := negb (String.eqb s "").

(** [filePath.match(/\/apispecs\/([^\/]+)\/([^\/]+)\/([^\/]+)$/)]: the
    path ends in [/apispecs/<service>/<version>/<file>]. *)
Definition match_spec_path (filePath : string)
  : option (string * string * string) :=
  match List.rev (split "/" filePath) with
  | file :: versionDir :: service :: marker :: _ :: _ =>
      if String.eqb marker "apispecs" && nonempty service
         && nonempty versionDir && nonempty file
      then Some (service, versionDir, file)
      else None
  | _ => None
  end.

Section WithRuntime.
Context `{Runtime}.

(** *** [extractOperationsFromSpec] *)

(** The operation id the inner [forEach] gives an operation object. *)
Definition operation_id (operation : json) (method path : string) : json :=
  if truthy (get operation "operationId") then get operation "operationId"
  else JStr (generateOperationId method path).

(** Body of the inner [forEach]: nothing for a method the path item does
    not carry as an object, else the operation pushed. *)
Definition operation_of (spec pathItem : json) (path method : string)
  : result (option DynamicApiOperation) :=
  let operation := get pathItem method in
  if negb (truthy operation) || negb (is_object operation) then Ok None
  else
    bind (generateOperationMarkdown operation method path spec)
      (fun html =>
         Ok (Some {|
           operationId := operation_id operation method path;
           method := toUpperCase method;
           path := path;
           summary :=
             if truthy (get operation "summary") then get operation "summary"
             else JStr (toUpperCase method +:+ " " +:+ path);
           description := get operation "description";
           tags :=
             if truthy (get operation "tags") then get operation "tags"
             else JArr [];
           markdownContent := html |})).

Fixpoint operations_of_methods (spec pathItem : json) (path : string)
    (ms : list string) : result (list DynamicApiOperation) :=
  match ms with
  | [] => Ok []
  | m :: rest =>
      bind (operation_of spec pathItem path m) (fun o =>
      bind (operations_of_methods spec pathItem path rest) (fun ops =>
      Ok (match o with Some op => op :: ops | None => ops end)))
  end.

(** The outer [forEach] over [Object.entries(spec.paths)]: the operations
    in the order they are pushed. *)
Fixpoint collectOperations (spec : json) (paths : list (string * json))
  : result (list DynamicApiOperation) :=
  match paths with
  | [] => Ok []
  | (path, pathItem) :: rest =>
      bind (if negb (truthy pathItem) || negb (is_object pathItem) then Ok []
            else operations_of_methods spec pathItem path methods) (fun ops =>
      bind (collectOperations spec rest) (fun more => Ok (ops ++ more)%list))
  end.

Definition extractOperationsFromSpec (spec : json)
  : result (list DynamicApiOperation) :=
  if negb (truthy (get spec "paths")) then Ok []
  else bind (collectOperations spec (entries (get spec "paths")))
            sortBySummary.

(** *** [loadAllApiSpecs] and [loadLegacyApiSpecs] *)

Definition or_else (v fallback : json) : json :=
  if truthy v then v else fallback.

(** Body of the [for] loop of [loadAllApiSpecs]: the spec pushed for one
    file, or nothing when the file is skipped ([continue], or an exception
    caught by the loop's own [try]). *)
Definition versioned_spec_of (language : string) (file : YamlModule)
  : option DynamicApiSpec :=
  match match_spec_path (filePath file) with
  | None => None
  | Some (service, versionDir, name) =>
      match parsed file with
      | Throw _ => None
      | Ok doc =>
          if negb (truthy doc) || negb (truthy (get doc "info")) then None
          else
            match extractOperationsFromSpec doc with
            | Throw _ => None
            | Ok ops =>
                Some {|
                  id := service;
                  fileName := name;
                  title := or_else (get (get doc "info") "title")
                                   (JStr (formatServiceName service));
                  specDescription := get (get doc "info") "description";
                  version := or_else (get (get doc "info") "version")
                                     (JStr versionDir);
                  serviceName := formatServiceName service;
                  operations := ops;
                  spec := doc;
                  language := language |}
            end
      end
  end.

(** [filePath.split('/').pop() || ''] and [.replace(/\.(yaml|yml)$/, '')]. *)
Definition base_name (filePath : string) : string :=
  List.last (split "/" filePath) "".

Definition strip_yaml_suffix (name : string) : string :=
  let r := List.rev (list_ascii_of_string name) in
  if prefix_of (List.rev (list_ascii_of_string ".yaml")) r
  then string_of_list_ascii (List.rev (skipn 5 r))
  else if prefix_of (List.rev (list_ascii_of_string ".yml")) r
  then string_of_list_ascii (List.rev (skipn 4 r))
  else name.

Definition legacy_spec_of (language : string) (file : YamlModule)
  : option DynamicApiSpec :=
  let name := base_name (filePath file) in
  let specId := strip_yaml_suffix name in
  match parsed file with
  | Throw _ => None
  | Ok doc =>
      if negb (truthy doc) || negb (truthy (get doc "info")) then None
      else
        match extractOperationsFromSpec doc with
        | Throw _ => None
        | Ok ops =>
            Some {|
              id := specId;
              fileName := name;
              title := or_else (get (get doc "info") "title") (JStr specId);
              specDescription := get (get doc "info") "description";
              version := or_else (get (get doc "info") "version")
                                 (JStr "1.0.0");
              serviceName := formatServiceName specId;
              operations := ops;
              spec := doc;
              language := language |}
        end
  end.

(** Pushes of a loop whose body yields at most one element. *)
Definition pushes {A B} (body : A -> option B) (l : list A) : list B :=
  omap body l.

Definition loadLegacyApiSpecs (w : World) (language : string)
  : list DynamicApiSpec :=
  match legacyModules w with
  | Throw _ => []
  | Ok modules =>
      pushes (legacy_spec_of language)
        (List.filter
           (fun f => includes (filePath f)
                       ("/docs/" +:+ language +:+ "/apispecs/"))
           modules)
  end.

(** The filter of the cache-hit path; [spec.version.startsWith] raises when
    the declared version is not a string. *)
Fixpoint cached_for (language version : string) (l : list DynamicApiSpec)
  : result (list DynamicApiSpec) :=
  match l with
  | [] => Ok []
  | s :: rest =>
      if String.eqb (DynamicOpenapi.language s) language then
        match DynamicOpenapi.version s with
        | JStr declared =>
            bind (cached_for language version rest) (fun kept =>
            Ok (if startsWith declared version then s :: kept else kept))
        | _ => Throw TypeError
        end
      else cached_for language version rest
  end.

(** The test of the cache-hit path: an entry exists and is younger than
    [CACHE_DURATION]. *)
Definition fresh (w : World) (apiSpecCache : option ApiSpecCache) : bool :=
  match apiSpecCache with
  | Some c => Date_now w - lastUpdated c <? CACHE_DURATION
  | None => false
  end.

(** The layout the glob pattern
    [/src/content/docs/*/apispecs/*/*/*.{yaml,yml}] imposes on a path. *)
Definition laid_out (f : YamlModule) (lang service versionDir name : string)
  : Prop :=
  filePath f
  = "/src/content/docs/" +:+ lang +:+ "/apispecs/" +:+ service +:+ "/"
    +:+ versionDir +:+ "/" +:+ name
  /\ free_of "/" lang = true /\ free_of "/" service = true
  /\ free_of "/" versionDir = true /\ free_of "/" name = true.

(** The cache-miss path: scan the versioned modules, store what was found;
    when the glob import itself raises, answer from the legacy layout and
    leave the cache alone. *)
Definition reload (w : World) (apiSpecCache : option ApiSpecCache)
    (language version : string)
  : list DynamicApiSpec * option ApiSpecCache :=
  match versionedModules w with
  | Throw _ => (loadLegacyApiSpecs w language, apiSpecCache)
  | Ok modules =>
      let found :=
        pushes (versioned_spec_of language)
          (List.filter
             (fun f =>
                includes (filePath f) ("/docs/" +:+ language +:+ "/apispecs/")
                && includes (filePath f) ("/" +:+ version +:+ "/"))
             modules) in
      (found, Some {| specs := found; lastUpdated := Date_now w |})
  end.

(** [loadAllApiSpecs(language, version)]: the specs returned and the
    module-level [apiSpecCache] after the call.  An exception of the
    cache-hit filter reaches the outer [catch], which returns []. *)
Definition loadAllApiSpecs (w : World) (apiSpecCache : option ApiSpecCache)
    (language version : string)
  : list DynamicApiSpec * option ApiSpecCache :=
  match apiSpecCache with
  | Some c =>
      if Date_now w - lastUpdated c <? CACHE_DURATION then
        match cached_for language version (specs c) with
        | Ok hit => (hit, apiSpecCache)
        | Throw _ => ([], apiSpecCache)
        end
      else reload w apiSpecCache language version
  | None => reload w apiSpecCache language version
  end.

(** [getApiSpecById] and [getApiOperation]; the latter has no version
    parameter and leaves [getApiSpecById] its default. *)
Definition getApiSpecById (w : World) (apiSpecCache : option ApiSpecCache)
    (specId language version : string)
  : option DynamicApiSpec * option ApiSpecCache :=
  let '(found, cache') := loadAllApiSpecs w apiSpecCache language version in
  (List.find (fun s => String.eqb (id s) specId) found, cache').

Definition getApiOperation (w : World) (apiSpecCache : option ApiSpecCache)
    (specId opId language : string)
  : option DynamicApiOperation * option ApiSpecCache :=
  let '(found, cache') := getApiSpecById w apiSpecCache specId language "v3" in
  (match found with
   | None => None
   | Some s => List.find (fun op => str_eq (operationId op) opId) (operations s)
   end, cache').

Definition clearApiSpecCache : option ApiSpecCache := None.

End WithRuntime.
End DynamicOpenapi.

(** ** Version listing: [api-versions.ts] *)

Module ApiVersions.
Import Js.
Import DynamicOpenapi (World, YamlModule, filePath, parsed, versionedModules,
  Date_now, nonempty).

Record ApiVersionInfo : Type := {
  version : string;
  label : string;
  badge : json;
  description : json;
  specExists : bool }.

(** Declared next to the cache, and read nowhere. *)
Definition CACHE_DURATION : Z := 5 * 60 * 1000.

Definition cacheKey (serviceName language : string) : string :=
  serviceName +:+ "-" +:+ language.

(** [filePath.match(/\/apispecs\/[^\/]+\/([^\/]+)\//)]: the leftmost
    [/apispecs/<service>/<version>/]; the capture is the version. *)
Fixpoint scan_version (segments : list string) : option string :=
  match segments with
  | [] => None
  | marker :: rest =>
      match rest with
      | service :: versionDir :: _ :: _ =>
          if String.eqb marker "apispecs" && nonempty service
             && nonempty versionDir
          then Some versionDir
          else scan_version rest
      | _ => None
      end
  end.

Definition match_version_dir (filePath : string) : option string :=
  match split "/" filePath with
  | _ :: segments => scan_version segments
  | [] => None
  end.

(** [version.match(/^v\d+$/)]. *)
Definition is_version_name (v : string) : bool :=
  match list_ascii_of_string v with
  | "v"%char :: d :: ds => forallb is_digit (d :: ds)
  | _ => false
  end.

(** The decimal value of the leading digits. *)
Fixpoint decimal (acc : Z) (cs : list ascii) : Z :=
  match cs with
  | [] => acc
  | c :: rest =>
      match digit c with
      | Some d => decimal (10 * acc + Z.of_nat d) rest
      | None => acc
      end
  end.

(** The double nearest to a natural number, ties to even; [2^1024] stands
    for [Infinity].  The engines round the decimal numeral so; the
    standard leaves them the digits after the twentieth. *)
Definition to_double (n : Z) : Z :=
  if n <? 2 ^ 53 then n
  else
    let e := Z.log2 n - 52 in
    let q := Z.shiftr n e in
    let r := n - Z.shiftl q e in
    let half := Z.shiftl 1 (e - 1) in
    let q' := if (half <? r) || ((r =? half) && Z.odd q) then q + 1 else q in
    Z.min (Z.shiftl q' e) (2 ^ 1024).

(** [parseInt(v.substring(1))] on a name accepted by [is_version_name]: a
    double.  The comparator subtracts two of them; the sign of the
    difference is that of the difference of these numbers, and
    [Infinity - Infinity], which is [NaN], counts as [0]. *)
Definition version_number (v : string) : Z :=
  match list_ascii_of_string v with
  | _ :: ds => to_double (decimal 0 ds)
  | [] => 0
  end.

(** [semVer.includes(word)]: a substring test on a string, a membership
    test on an array, and no such method on anything else. *)
Definition semver_includes (semVer : json) (word : string) : result bool :=
  match semVer with
  | JStr s => Ok (includes s word)
  | JArr items => Ok (existsb (fun v => str_eq v word) items)
  | _ => Throw TypeError
  end.

(** Badge read from the document itself. *)
Definition declared_badge (info : json) : result json :=
  if truthy (get info "x-version-status") then Ok (get info "x-version-status")
  else if truthy (get info "version") then
    bind (semver_includes (get info "version") "beta") (fun beta =>
    if beta then Ok (JStr "Beta")
    else bind (semver_includes (get info "version") "alpha") (fun alpha =>
         Ok (if alpha then JStr "Alpha" else JUndef)))
  else Ok JUndef.

(** The two collections the first loop fills: [versionSet], in insertion
    order, and [versions]. *)
Record Detected : Type := {
  versionSet : list string;
  versions : list ApiVersionInfo }.

Definition set_add (v : string) (s : list string) : list string :=
  if existsb (String.eqb v) s then s else (s ++ [v])%list.

(** Body of the first loop.  The version enters [versionSet] before the
    badge is computed, so an exception there (caught by the loop's [try])
    loses only the [versions] entry. *)
Definition detect (file : YamlModule) (acc : Detected) : Detected :=
  match match_version_dir (filePath file) with
  | None => acc
  | Some v =>
      if negb (is_version_name v) then acc
      else
        match parsed file with
        | Throw _ => acc
        | Ok doc =>
            if truthy doc && truthy (get doc "info") then
              let set' := set_add v (versionSet acc) in
              match declared_badge (get doc "info") with
              | Throw _ => {| versionSet := set'; versions := versions acc |}
              | Ok b =>
                  {| versionSet := set';
                     versions :=
                       (versions acc ++
                        [{| version := v; label := v; badge := b;
                            description := get (get doc "info") "description";
                            specExists := true |}])%list |}
              end
            else acc
        end
  end.

Definition detect_all (files : list YamlModule) : Detected :=
  fold_left (fun acc f => detect f acc) files
            {| versionSet := []; versions := [] |}.

(** [Array.prototype.sort] under [(a, b) => bNum - aNum]: the sort is
    stable, so its result is the stable descending arrangement. *)
Fixpoint insert_version (v : string) (sorted : list string) : list string :=
  match sorted with
  | [] => [v]
  | u :: rest =>
      if version_number u <=? version_number v then v :: u :: rest
      else u :: insert_version v rest
  end.

Definition sort_versions (l : list string) : list string :=
  fold_right insert_version [] l.

Definition positional_badge (index count : nat) : json :=
  if Nat.eqb index 0 then JStr "Latest"
  else if Nat.eqb index (count - 1) then JStr "Legacy"
  else JUndef.

Definition positional_description (index count : nat) : json :=
  if Nat.eqb index 0 then JStr "Current stable version with latest features"
  else if Nat.eqb index (count - 1)
  then JStr "Legacy version - consider upgrading"
  else JStr "Stable version".

Definition or_else (v fallback : json) : json :=
  if truthy v then v else fallback.

(** The [.map((version, index) => ...)] callback; [count] is
    [versions.length]. *)
Definition describe (found : list ApiVersionInfo) (index : nat) (v : string)
  : ApiVersionInfo :=
  let existingVersion := List.find (fun i => String.eqb (version i) v) found in
  {| version := v;
     label := if Nat.eqb index 0 then v +:+ " (Latest)" else v;
     badge :=
       or_else (match existingVersion with
                | Some e => badge e
                | None => JUndef
                end)
               (positional_badge index (List.length found));
     description :=
       or_else (match existingVersion with
                | Some e => description e
                | None => JUndef
                end)
               (positional_description index (List.length found));
     specExists := true |}.

Definition fallbackVersions : list ApiVersionInfo :=
  [ {| version := "v2"; label := "v2 (Latest)"; badge := JStr "Latest";
       description := JStr "Current stable version"; specExists := false |};
    {| version := "v1"; label := "v1"; badge := JStr "Legacy";
       description := JStr "Legacy version"; specExists := false |} ].

(** What a cache miss computes. *)
Definition detectVersions (w : World) (serviceName language : string)
  : list ApiVersionInfo :=
  match versionedModules w with
  | Throw _ => fallbackVersions
  | Ok modules =>
      let d :=
        detect_all
          (List.filter
             (fun f =>
                includes (filePath f)
                  ("/docs/" +:+ language +:+ "/apispecs/" +:+ serviceName
                   +:+ "/"))
             modules) in
      imap (describe (versions d)) (sort_versions (versionSet d))
  end.

(** [getApiVersions(serviceName, language)]: the result and [versionCache]
    after the call. *)
Definition getApiVersions (w : World)
    (versionCache : gmap string (list ApiVersionInfo))
    (serviceName language : string)
  : list ApiVersionInfo * gmap string (list ApiVersionInfo) :=
  match versionCache !! cacheKey serviceName language with
  | Some cached => (cached, versionCache)
  | None =>
      let sortedVersions := detectVersions w serviceName language in
      (sortedVersions,
       <[cacheKey serviceName language := sortedVersions]> versionCache)
  end.

Definition clearApiVersionCache : gmap string (list ApiVersionInfo) := ∅.

(** *** What the scan collects *)

(** The version and [info] block a file contributes, when the first loop
    accepts it. *)
Definition contribution (f : YamlModule) : option (string * json) :=
  match match_version_dir (filePath f) with
  | Some v =>
      if is_version_name v then
        match parsed f with
        | Ok doc =>
            if truthy doc && truthy (get doc "info")
            then Some (v, get doc "info") else None
        | Throw _ => None
        end
      else None
  | None => None
  end.

(** The [versions] entry of a contribution, unless its badge raises. *)
Definition entry_of (c : string * json) : option ApiVersionInfo :=
  match declared_badge (snd c) with
  | Ok b =>
      Some {| version := fst c; label := fst c; badge := b;
              description := get (snd c) "description";
              specExists := true |}
  | Throw _ => None
  end.

(** The [info] block that decides the badge of version [v]: that of the
    first contribution for [v] that made it into [versions]. *)
Definition deciding_info (cs : list (string * json)) (v : string)
  : option json :=
  option_map snd
    (List.find (fun c => String.eqb (fst c) v && bool_decide (is_Some (entry_of c)))
               cs).

(** The badge a version has of its own. *)
Definition own_badge (cs : list (string * json)) (v : string) : json :=
  match deciding_info cs v with
  | Some info =>
      match declared_badge info with Ok b => b | Throw _ => JUndef end
  | None => JUndef
  end.

(** An [info] block whose [version] is a string, [null] or missing: its
    badge computation raises nothing. *)
Definition textual_version (info : json) : Prop :=
  match get info "version" with
  | JStr _ | JNull | JUndef => True
  | _ => False
  end.

(** The files [getApiVersions] looks at. *)
Definition service_files (modules : list YamlModule)
    (serviceName language : string) : list YamlModule :=
  List.filter
    (fun f =>
       includes (filePath f)
         ("/docs/" +:+ language +:+ "/apispecs/" +:+ serviceName +:+ "/"))
    modules.

Definition descending (a b : string) : Prop :=
  version_number b <= version_number a.

(** A file holds a document for version [v]. *)
Definition holds_version (f : YamlModule) (v : string) : Prop :=
  match_version_dir (filePath f) = Some v
  /\ is_version_name v = true
  /\ exists doc, parsed f = Ok doc /\ truthy doc = true
                 /\ truthy (get doc "info") = true.


(** A client of the module: calls of [getApiVersions], each in the world
    of its moment, and cache clears. *)
Inductive call : Type :=
| GetVersions (w : World) (serviceName language : string)
| ClearCache.

Definition step (versionCache : gmap string (list ApiVersionInfo)) (c : call)
  : gmap string (list ApiVersionInfo) :=
  match c with
  | GetVersions w s l => snd (getApiVersions w versionCache s l)
  | ClearCache => clearApiVersionCache
  end.

Definition is_clear (c : call) : bool :=
  match c with ClearCache => true | _ => false end.

End ApiVersions.

(** ** The file-system loader: [simple-openapi-loader.ts] *)

Module SimpleLoader.
Import Js.

Record SimpleApiOperation : Type := {
  operationId : json;
  method : string;
  path : string;
  summary : json;
  description : json;
  tags : json }.

Record SimpleApiSpec : Type := {
  id : string;
  title : json;
  specDescription : json;
  version : json;
  language : string;
  folderVersion : string;
  spec : json;
  operations : list SimpleApiOperation;
  fileName : string }.

(** A directory entry: its name, and what [readFileSync] followed by
    [parse] yields ([Throw] for an unreadable file or invalid YAML). *)
Record DirEntry : Type := {
  entryName : string;
  content : result json }.

(** The directory [src/content/docs/<language>/apispecs/<service>/<version>]:
    absent, unreadable, or its listing. *)
Definition FileSystem : Type :=
  string -> string -> string -> option (result (list DirEntry)).

Definition methods : list string :=
  ["get"; "post"; "put"; "patch"; "delete"; "head"; "options"].

Definition is_string (v : json) : bool :=
  match v with JStr _ => true | _ => false end.

(** ['operationId' in operation] on a truthy [operation]: a [TypeError]
    when the right-hand side is not an object. *)
Definition in_operationId (operation : json) : result bool :=
  match operation with
  | JObj fields => Ok (has_field "operationId" fields)
  | JArr _ => Ok false
  | _ => Throw TypeError
  end.

(** Body of [methods.forEach]. *)
Definition operation_of (pathItem : json) (pathStr method : string)
  : result (option SimpleApiOperation) :=
  let operation := get pathItem method in
  if negb (truthy operation) then Ok None
  else
    bind (in_operationId operation) (fun present =>
    if present then
      Ok (Some {|
        operationId :=
          if truthy (get operation "operationId")
          then get operation "operationId"
          else JStr (method +:+ "-" +:+ pathStr);
        method := toUpperCase method;
        path := pathStr;
        summary :=
          if truthy (get operation "summary") then get operation "summary"
          else JStr "";
        description := get operation "description";
        tags :=
          if truthy (get operation "tags") then get operation "tags"
          else JArr [] |})
    else Ok None).

Fixpoint operations_of_methods (pathItem : json) (pathStr : string)
    (ms : list string) : result (list SimpleApiOperation) :=
  match ms with
  | [] => Ok []
  | m :: rest =>
      bind (operation_of pathItem pathStr m) (fun o =>
      bind (operations_of_methods pathItem pathStr rest) (fun ops =>
      Ok (match o with Some op => op :: ops | None => ops end)))
  end.

Fixpoint operations_of_paths (paths : list (string * json))
  : result (list SimpleApiOperation) :=
  match paths with
  | [] => Ok []
  | (pathStr, pathItem) :: rest =>
      bind (if negb (truthy pathItem) || is_string pathItem then Ok []
            else operations_of_methods pathItem pathStr methods) (fun ops =>
      bind (operations_of_paths rest) (fun more => Ok (ops ++ more)%list))
  end.

(** The operations gathered from one document. *)
Definition simpleOperations (spec : json) : result (list SimpleApiOperation) :=
  if truthy (get spec "paths") then operations_of_paths (entries (get spec "paths"))
  else Ok [].

Definition ends_with (s suffix : string) : bool :=
  prefix_of (List.rev (list_ascii_of_string suffix))
            (List.rev (list_ascii_of_string s)).

(** One turn of the [for] loop over the YAML files: the spec returned from
    this file, or nothing when the loop goes on to the next file. *)
Definition try_file (serviceName language version : string) (f : DirEntry)
  : option SimpleApiSpec :=
  match content f with
  | Throw _ => None
  | Ok doc =>
      if negb (truthy doc) || negb (truthy (get doc "info"))
         || negb (truthy (get doc "openapi"))
      then None
      else
        match simpleOperations doc with
        | Throw _ => None
        | Ok ops =>
            Some {|
              id := serviceName;
              title := get (get doc "info") "title";
              specDescription :=
                if truthy (get (get doc "info") "description")
                then get (get doc "info") "description" else JStr "";
              version := get (get doc "info") "version";
              language := language;
              folderVersion := version;
              spec := doc;
              operations := ops;
              fileName := entryName f |}
        end
  end.

Fixpoint first_valid (serviceName language version : string)
    (files : list DirEntry) : option SimpleApiSpec :=
  match files with
  | [] => None
  | f :: rest =>
      match try_file serviceName language version f with
      | Some s => Some s
      | None => first_valid serviceName language version rest
      end
  end.

Definition loadSimpleApiSpec (fs : FileSystem)
    (serviceName language version : string) : option SimpleApiSpec :=
  match fs language serviceName version with
  | None => None
  | Some (Throw _) => None
  | Some (Ok listing) =>
      first_valid serviceName language version
        (List.filter
           (fun f => ends_with (entryName f) ".yaml"
                     || ends_with (entryName f) ".yml")
           listing)
  end.

End SimpleLoader.

(** ** A run time for concrete runs *)

Module Reference.
Import Js DynamicOpenapi.

Definition summary_text (op : DynamicApiOperation) : option string :=
  match summary op with JStr s => Some s | _ => None end.

Definition before (a b : DynamicApiOperation) : bool :=
  match summary_text a, summary_text b with
  | Some x, Some y => String.leb x y
  | _, _ => true
  end.

Fixpoint insert_operation (op : DynamicApiOperation)
    (sorted : list DynamicApiOperation) : list DynamicApiOperation :=
  match sorted with
  | [] => [op]
  | o :: rest =>
      if before op o then op :: o :: rest else o :: insert_operation op rest
  end.

(** Operations render to an empty page and never raise; summaries are
    ordered by code unit, a stable sort that compares nothing in a list of
    fewer than two operations and raises on a summary that is not a
    string otherwise.  It serves to run the model on trees whose
    operations carry plain summaries and nothing to render. *)
Definition plain_runtime : Runtime := {|
  generateOperationMarkdown := fun _ _ _ _ => Ok "";
  sortBySummary := fun ops =>
    if (List.length ops <=? 1)%nat then Ok ops
    else if forallb (fun op => bool_decide (is_Some (summary_text op))) ops
    then Ok (fold_right insert_operation [] ops)
    else Throw TypeError |}.

End Reference.

(** ** Content trees for concrete runs *)

Module Trees.
Import Js DynamicOpenapi.

(** Two version directories, one document each. *)
Definition two_versions : World := {|
  Date_now := 0;
  versionedModules :=
    Ok [ {| filePath := "/src/content/docs/en/apispecs/payment-api/v1/payment.yaml";
            parsed := Ok (JObj [("info", JObj [("title", JStr "Payment API");
                                               ("version", JStr "1.0.0")])]) |};
         {| filePath := "/src/content/docs/en/apispecs/payment-api/v2/payment.yaml";
            parsed := Ok (JObj [("info", JObj [("title", JStr "Payment API");
                                               ("version", JStr "2.0.0")])]) |} ];
  legacyModules := Ok [] |}.

(** Two version directories; the document of the lower one declares the
    semantic version [1.0.0-beta], and none declares [x-version-status]. *)
Definition beta_legacy : World := {|
  Date_now := 0;
  versionedModules :=
    Ok [ {| filePath := "/src/content/docs/en/apispecs/payment-api/v2/payment.yaml";
            parsed := Ok (JObj [("info", JObj [("title", JStr "Payment API");
                                               ("version", JStr "2.0.0")])]) |};
         {| filePath := "/src/content/docs/en/apispecs/payment-api/v1/payment.yaml";
            parsed := Ok (JObj [("info", JObj [("title", JStr "Payment API");
                                               ("version", JStr "1.0.0-beta")])]) |} ];
  legacyModules := Ok [] |}.

(** A service that exists under [v2] only. *)
Definition only_v2 : World := {|
  Date_now := 0;
  versionedModules :=
    Ok [ {| filePath := "/src/content/docs/en/apispecs/payment-api/v2/payment.yaml";
            parsed :=
              Ok (JObj [("info", JObj [("title", JStr "Payment API")]);
                        ("paths",
                         JObj [("/payments",
                                JObj [("get",
                                       JObj [("operationId", JStr "listPayments");
                                             ("summary", JStr "List payments")])])])])
         |} ];
  legacyModules := Ok [] |}.

(** A service directory that is itself called [v3], with one document
    under the version directory [v2]. *)
Definition service_named_v3 : World := {|
  Date_now := 0;
  versionedModules :=
    Ok [ {| filePath := "/src/content/docs/en/apispecs/v3/v2/catalog.yaml";
            parsed :=
              Ok (JObj [("info", JObj [("title", JStr "Catalog")]);
                        ("paths",
                         JObj [("/items",
                                JObj [("get",
                                       JObj [("operationId", JStr "listItems");
                                             ("summary", JStr "List items")])])])])
         |} ];
  legacyModules := Ok [] |}.

(** One valid document for [payment-api] under [v3], declaring the
    semantic version [1.0.0]; the clock reads [now]. *)
Definition payment_v3 (now : Z) : World := {|
  Date_now := now;
  versionedModules :=
    Ok [ {| filePath := "/src/content/docs/en/apispecs/payment-api/v3/payment.yaml";
            parsed := Ok (JObj [("info", JObj [("title", JStr "Payment API");
                                               ("version", JStr "1.0.0")])]) |} ];
  legacyModules := Ok [] |}.

(** One document for [payment-api] under [v3], with one operation. *)
Definition payment_v3_operation (now : Z) : World := {|
  Date_now := now;
  versionedModules :=
    Ok [ {| filePath := "/src/content/docs/en/apispecs/payment-api/v3/payment.yaml";
            parsed :=
              Ok (JObj [("info", JObj [("title", JStr "Payment API")]);
                        ("paths",
                         JObj [("/payments",
                                JObj [("get",
                                       JObj [("operationId", JStr "listPayments");
                                             ("summary", JStr "List payments")])])])])
         |} ];
  legacyModules := Ok [] |}.

(** Two valid documents in one service directory. *)
Definition duplicate_files : World := {|
  Date_now := 0;
  versionedModules :=
    Ok [ {| filePath := "/src/content/docs/en/apispecs/payment-api/v2/payment.yaml";
            parsed := Ok (JObj [("info", JObj [("title", JStr "Payment API")])]) |};
         {| filePath := "/src/content/docs/en/apispecs/payment-api/v2/duplicate.yaml";
            parsed := Ok (JObj [("info", JObj [("title", JStr "Payment API copy")])]) |} ];
  legacyModules := Ok [] |}.

(** No versioned file, one file in the flat layout. *)
Definition flat_only (versioned : result (list YamlModule)) : World := {|
  Date_now := 0;
  versionedModules := versioned;
  legacyModules :=
    Ok [ {| filePath := "/src/content/docs/en/apispecs/legacy-api.yaml";
            parsed := Ok (JObj [("info", JObj [("title", JStr "Legacy API")])]) |} ] |}.

End Trees.

(** ** [sanitize], as the specification words it

    Not taken from the source: the reading of "replaces { and } with the
    empty string, any non-alphanumeric run with a single underscore, and
    strips leading/trailing underscores" that [cleanPath] is compared
    with. *)

Module Sanitize.
Import Js.
Import DynamicOpenapi (is_brace, underscore, is_underscore).

Definition without_braces (s : list ascii) : list ascii :=
  List.filter (fun c => negb (is_brace c)) s.

(** Every maximal run of non-alphanumeric characters becomes one
    underscore; [in_run] tells that the run has already been replaced. *)
Fixpoint replace_runs (in_run : bool) (s : list ascii) : list ascii :=
  match s with
  | [] => []
  | c :: rest =>
      if is_alnum c then c :: replace_runs false rest
      else if in_run then replace_runs true rest
      else underscore :: replace_runs true rest
  end.

Fixpoint strip_leading (s : list ascii) : list ascii :=
  match s with
  | [] => []
  | c :: rest => if is_underscore c then strip_leading rest else s
  end.

Definition strip_trailing (s : list ascii) : list ascii :=
  List.rev (strip_leading (List.rev s)).

(** One leading underscore removed, and the absence of two underscores in
    a row: what relates the two formulations. *)
Definition drop_lead (s : list ascii) : list ascii :=
  match s with
  | c :: rest => if is_underscore c then rest else s
  | [] => []
  end.

Fixpoint no_double (s : list ascii) : bool :=
  match s with
  | a :: rest =>
      match rest with
      | b :: _ => negb (is_underscore a && is_underscore b) && no_double rest
      | [] => true
      end
  | [] => true
  end.

Definition sanitize (path : string) : string :=
  string_of_list_ascii
    (strip_trailing
       (strip_leading
          (replace_runs false (without_braces (list_ascii_of_string path))))).

End Sanitize.

(** ** The header view: [getApiSpecsForHeader] *)

Module Header.
Import Js DynamicOpenapi.

(** [String(v)], as a template literal applies it.  An object goes
    through [toString], then [valueOf]: those of [%Object.prototype%] give
    ["[object Object]"]; an own key [toString], whose value is no
    function, leaves [valueOf], which returns no primitive, and the
    conversion raises.  An array joins the strings of its elements. *)
Fixpoint to_string (v : json) : result string :=
  match v with
  | JUndef => Ok "undefined"
  | JNull => Ok "null"
  | JBool b => Ok (if b then "true" else "false")
  | JNum z => Ok (pretty z)
  | JStr s => Ok s
  | JArr items =>
      bind
        ((fix each (l : list json) : result (list string) :=
            match l with
            | [] => Ok []
            | x :: rest =>
                bind (if is_nullish x then Ok "" else to_string x) (fun s =>
                bind (each rest) (fun more => Ok (s :: more)))
            end) items)
        (fun texts => Ok (join "," texts))
  | JObj fields =>
      if has_field "toString" fields then Throw TypeError
      else Ok "[object Object]"
  end.

Record HeaderOperation : Type := {
  operationId : json;
  summary : json;
  path : string }.

Record HeaderSpec : Type := {
  id : string;
  title : json;
  specPath : string;
  serviceName : string;
  operations : list HeaderOperation }.

(** [ops.map(op => ({ ..., path: `${before}${op.operationId}${after}` }))]:
    the template literal raises on an id that has no string form. *)
Fixpoint header_operations (before after : string)
    (ops : list DynamicApiOperation) : result (list HeaderOperation) :=
  match ops with
  | [] => Ok []
  | op :: rest =>
      bind (to_string (DynamicOpenapi.operationId op)) (fun text =>
      bind (header_operations before after rest) (fun more =>
      Ok ({| operationId := DynamicOpenapi.operationId op;
             summary := DynamicOpenapi.summary op;
             path := before +:+ text +:+ after |} :: more)))
  end.

Section WithRuntime.
Context `{Runtime}.

(** The rest of the loop body of [getApiSpecsForHeader], once the service
    of the file is known and marked as processed; an exception ends in
    the [catch] of the loop. *)
Definition header_spec_of (language version service : string)
    (file : YamlModule) : option HeaderSpec :=
  match parsed file with
  | Throw _ => None
  | Ok doc =>
      if negb (truthy doc) || negb (truthy (get doc "info")) then None
      else
        match extractOperationsFromSpec doc with
        | Throw _ => None
        | Ok ops =>
            match header_operations
                    ("/api/" +:+ service +:+ "/")
                    ("?version=" +:+ version +:+ "&lang=" +:+ language)
                    (firstn 8 ops) with
            | Throw _ => None
            | Ok listed =>
                Some {|
                  id := service;
                  title := or_else (get (get doc "info") "title")
                                   (JStr (formatServiceName service));
                  specPath := "/api/" +:+ service +:+ "?version=" +:+ version
                              +:+ "&lang=" +:+ language;
                  serviceName := formatServiceName service;
                  operations := listed |}
            end
        end
  end.

(** The [for] loop, with [processedServices] as it stands: a service is
    marked on its first file, before that file is parsed. *)
Fixpoint scanHeader (language version : string) (files : list YamlModule)
    (processedServices : gset string) : list HeaderSpec :=
  match files with
  | [] => []
  | file :: rest =>
      match match_spec_path (filePath file) with
      | None => scanHeader language version rest processedServices
      | Some (service, _, _) =>
          if decide (service ∈ processedServices)
          then scanHeader language version rest processedServices
          else
            match header_spec_of language version service file with
            | Some h =>
                h :: scanHeader language version rest
                       ({[service]} ∪ processedServices)
            | None =>
                scanHeader language version rest
                  ({[service]} ∪ processedServices)
            end
      end
  end.

(** The modules the loop runs over. *)
Definition header_files (language version : string)
    (modules : list YamlModule) : list YamlModule :=
  List.filter
    (fun f =>
       includes (filePath f) ("/docs/" +:+ language +:+ "/apispecs/")
       && includes (filePath f) ("/" +:+ version +:+ "/"))
    modules.

(** [legacySpecs.map(spec => ...)]. *)
Fixpoint legacy_entries (language : string) (specs : list DynamicApiSpec)
  : result (list HeaderSpec) :=
  match specs with
  | [] => Ok []
  | s :: rest =>
      bind (header_operations
              ("/api/" +:+ DynamicOpenapi.id s +:+ "/")
              ("?lang=" +:+ language)
              (firstn 8 (DynamicOpenapi.operations s))) (fun listed =>
      bind (legacy_entries language rest) (fun more =>
      Ok ({| id := DynamicOpenapi.id s;
             title := DynamicOpenapi.title s;
             specPath := "/api/" +:+ DynamicOpenapi.id s +:+ "?lang="
                         +:+ language;
             serviceName := DynamicOpenapi.serviceName s;
             operations := listed |} :: more)))
  end.

Definition getApiSpecsForHeaderLegacy (w : World) (language : string)
  : list HeaderSpec :=
  match legacy_entries language (loadLegacyApiSpecs w language) with
  | Ok entries => entries
  | Throw _ => []
  end.

(** [getApiSpecsForHeader(language, version)].  [allModules] is the result
    of the recursive glob import [/src/content/docs/*/apispecs/**/*]; the
    world gives the flat-layout modules of the fallback. *)
Definition getApiSpecsForHeader (allModules : result (list YamlModule))
    (w : World) (language version : string) : list HeaderSpec :=
  match allModules with
  | Throw _ => []
  | Ok modules =>
      let headerSpecs :=
        scanHeader language version (header_files language version modules) ∅ in
      if Nat.eqb (List.length headerSpecs) 0
      then getApiSpecsForHeaderLegacy w language
      else headerSpecs
  end.

End WithRuntime.
End Header.

(** ** Paths and queries of [api-versions.ts] *)

Module ApiPaths.
Import Js.
Import ApiVersions (is_version_name).

Record ApiPathInfo : Type := {
  serviceName : option string;
  operationId : option string;
  version : string;
  language : string }.

(** The list of name-value pairs a [URLSearchParams] object holds. *)
Definition URLSearchParams : Type := list (string * string).

(** [params.get(name)]: the value of the first pair of that name. *)
Fixpoint params_get (name : string) (params : URLSearchParams)
  : option string :=
  match params with
  | [] => None
  | (n, v) :: rest => if String.eqb n name then Some v else params_get name rest
  end.

(** [params.set(name, value)]: the first pair of that name takes the
    value and the others of that name go; without one, a pair is
    appended. *)
Fixpoint params_set (name value : string) (params : URLSearchParams)
  : URLSearchParams :=
  match params with
  | [] => [(name, value)]
  | (n, v) :: rest =>
      if String.eqb n name
      then (n, value)
           :: List.filter (fun p => negb (String.eqb (fst p) name)) rest
      else (n, v) :: params_set name value rest
  end.

(** [s.split(sep).filter(Boolean)]. *)
Definition parts (sep : ascii) (s : string) : list string :=
  List.filter (fun p => negb (String.eqb p "")) (split sep s).

(** [s.split('?')[1] || '']. *)
Definition query_of (s : string) : string :=
  nth 1 (split "?" s) "".

Section WithUrl.

(** The platform's parser and serializer of
    [application/x-www-form-urlencoded] text, behind
    [new URLSearchParams(text)] and [params.toString()]. *)
Variable parseQuery : string -> URLSearchParams.
Variable serializeQuery : URLSearchParams -> string.

Definition parseApiPath (pathname : string) : ApiPathInfo :=
  let pathParts := parts "/" pathname in
  let urlParams := parseQuery (query_of pathname) in
  {| serviceName := nth_error pathParts 1;
     operationId := nth_error pathParts 2;
     version := "v2";
     language :=
       match params_get "lang" urlParams with
       | Some l => if String.eqb l "" then "en" else l
       | None => "en"
       end |}.

(** The path the new URL starts with. *)
Definition version_path (pathPart : string) : string :=
  let pathParts := parts "/" pathPart in
  match pathParts with
  | first :: service :: rest =>
      if String.eqb first "api" then
        match rest with
        | operation :: _ => "/api/" +:+ service +:+ "/" +:+ operation
        | [] => "/api/" +:+ service
        end
      else pathPart
  | _ => pathPart
  end.

(** The parameters the new URL carries. *)
Definition version_params (currentPath newVersion : string)
  : URLSearchParams :=
  params_set "version" newVersion (parseQuery (query_of currentPath)).

Definition generateApiVersionPath (currentPath newVersion : string) : string :=
  version_path (hd "" (split "?" currentPath))
  +:+ "?" +:+ serializeQuery (version_params currentPath newVersion).

End WithUrl.

Definition getCurrentApiVersion (pathname : string)
    (searchParams : URLSearchParams) : string :=
  match params_get "version" searchParams with
  | Some versionParam =>
      if negb (String.eqb versionParam "") && is_version_name versionParam
      then versionParam else "v2"
  | None => "v2"
  end.

(** A parser and a serializer for closed runs, on names and values that
    need no escaping: pairs written [name=value] and joined by [&]. *)
Definition plain_pair (item : string) : string * string :=
  match split "=" item with
  | name :: rest => (name, join "=" rest)
  | [] => (item, "")
  end.

Definition plain_parse (query : string) : URLSearchParams :=
  map plain_pair
      (List.filter (fun item => negb (String.eqb item "")) (split "&" query)).

Definition plain_serialize (params : URLSearchParams) : string :=
  join "&" (map (fun p => fst p +:+ "=" +:+ snd p) params).

End ApiPaths.

(** ** Questions asked of the version listing *)

Module VersionQueries.
Import Js.
Import DynamicOpenapi (World, YamlModule, filePath, parsed, versionedModules,
  nonempty).
Import ApiVersions.

Definition checkApiVersionExists (w : World)
    (versionCache : gmap string (list ApiVersionInfo))
    (serviceName wanted language : string)
  : bool * gmap string (list ApiVersionInfo) :=
  let '(versions, cache') :=
    getApiVersions w versionCache serviceName language in
  (existsb (fun v => String.eqb (version v) wanted && specExists v) versions,
   cache').

(** [path.match(/\/apispecs\/([^\/]+)\//)]: the leftmost
    [/apispecs/<service>/]. *)
Fixpoint scan_service (segments : list string) : option string :=
  match segments with
  | [] => None
  | marker :: rest =>
      match rest with
      | service :: _ :: _ =>
          if String.eqb marker "apispecs" && nonempty service
          then Some service
          else scan_service rest
      | _ => None
      end
  end.

Definition match_service (filePath : string) : option string :=
  match split "/" filePath with
  | _ :: segments => scan_service segments
  | [] => None
  end.

(** [serviceSet], in insertion order. *)
Definition services_of (language : string) (modules : list YamlModule)
  : list string :=
  fold_left
    (fun acc f =>
       if includes (filePath f) ("/docs/" +:+ language +:+ "/apispecs/") then
         match match_service (filePath f) with
         | Some service => set_add service acc
         | None => acc
         end
       else acc)
    modules [].

(** [services[serviceName] = versions] on a plain object, kept as the map
    of its own properties: assigning to [__proto__] replaces the
    prototype and adds no property. *)
Definition assign_own (serviceName : string) (versions : list ApiVersionInfo)
    (services : gmap string (list ApiVersionInfo))
  : gmap string (list ApiVersionInfo) :=
  if String.eqb serviceName "__proto__" then services
  else <[serviceName := versions]> services.

(** The loop filling [services], with [versionCache] behind it. *)
Definition list_service (w : World) (language : string)
    (state : gmap string (list ApiVersionInfo)
             * gmap string (list ApiVersionInfo))
    (serviceName : string)
  : gmap string (list ApiVersionInfo) * gmap string (list ApiVersionInfo) :=
  let '(versions, cache') :=
    getApiVersions w (snd state) serviceName language in
  (assign_own serviceName versions (fst state), cache').

Definition getAllApiServicesWithVersions (w : World)
    (versionCache : gmap string (list ApiVersionInfo)) (language : string)
  : gmap string (list ApiVersionInfo) * gmap string (list ApiVersionInfo) :=
  match versionedModules w with
  | Throw _ => (∅, versionCache)
  | Ok modules =>
      fold_left (list_service w language) (services_of language modules)
                (∅, versionCache)
  end.

(** What [getApiVersions] answers for a service against a given cache. *)
Definition answer (w : World) (cache : gmap string (list ApiVersionInfo))
    (language serviceName : string) : list ApiVersionInfo :=
  fst (getApiVersions w cache serviceName language).

(** State of the loop of [getAllApiServicesWithVersions] after the
    services [done]. *)
Definition listed (w : World) (cache : gmap string (list ApiVersionInfo))
    (l : string) (done : list string)
    (state : gmap string (list ApiVersionInfo)
             * gmap string (list ApiVersionInfo)) : Prop :=
  (forall s, In s done -> s <> "__proto__" ->
             fst state !! s = Some (answer w cache l s))
  /\ (forall s, ~ In s done -> fst state !! s = None)
  /\ fst state !! "__proto__" = None
  /\ (forall s, In s done ->
                snd state !! cacheKey s l = Some (answer w cache l s))
  /\ (forall k, (forall s, In s done -> k <> cacheKey s l) ->
                snd state !! k = cache !! k).

End VersionQueries.

(** ** Discovery for the simple loader *)

Module SimpleDiscovery.
Import Js SimpleLoader.

(** A [Dirent] of [readdirSync(..., { withFileTypes: true })]. *)
Record Dirent : Type := {
  direntName : string;
  isDirectory : bool }.

(** What [existsSync] and [readdirSync] make of a path: nothing there,
    an exception of [readdirSync], or the listing. *)
Definition Listing : Type := option (result (list Dirent)).

(** The tree under [src/content/docs], as the loader looks at it: the
    root, [<language>/apispecs], [<language>/apispecs/<service>], and the
    version directories as [loadSimpleApiSpec] reads them. *)
Record Tree : Type := {
  docsDir : Listing;
  apispecsDir : string -> Listing;
  serviceDir : string -> string -> Listing;
  versionDir : FileSystem }.

Record Discovered : Type := {
  languages : list string;
  services : list string;
  versions : list string }.

(** The answer of the guard and of the [catch]. *)
Definition undiscovered : Discovered :=
  {| languages := ["en"]; services := []; versions := ["v3"] |}.

(** [.filter(dirent => dirent.isDirectory()).map(dirent => dirent.name)]. *)
Definition directories (entries : list Dirent) : list string :=
  map direntName (List.filter isDirectory entries).

(** [if (!l.includes(x)) l.push(x)], and the [forEach] doing it. *)
Definition push_new (x : string) (l : list string) : list string :=
  if existsb (String.eqb x) l then l else (l ++ [x])%list.

Definition push_all (xs l : list string) : list string :=
  fold_left (fun acc x => push_new x acc) xs l.

(** The inner loop, over the services of one language. *)
Fixpoint discover_versions (t : Tree) (lang : string)
    (serviceDirs versions : list string) : result (list string) :=
  match serviceDirs with
  | [] => Ok versions
  | service :: rest =>
      match serviceDir t lang service with
      | None => discover_versions t lang rest versions
      | Some (Throw e) => Throw e
      | Some (Ok entries) =>
          discover_versions t lang rest
            (push_all (directories entries) versions)
      end
  end.

(** The outer loop, over the languages; the state is [services] and
    [versions]. *)
Fixpoint discover_languages (t : Tree) (langs : list string)
    (state : list string * list string)
  : result (list string * list string) :=
  match langs with
  | [] => Ok state
  | lang :: rest =>
      match apispecsDir t lang with
      | None => discover_languages t rest state
      | Some (Throw e) => Throw e
      | Some (Ok entries) =>
          let serviceDirs := directories entries in
          bind (discover_versions t lang serviceDirs (snd state))
            (fun versions =>
               discover_languages t rest
                 (push_all serviceDirs (fst state), versions))
      end
  end.

Definition discoverApiServices (t : Tree) : Discovered :=
  match docsDir t with
  | None => undiscovered
  | Some (Throw _) => undiscovered
  | Some (Ok entries) =>
      let langDirs := directories entries in
      match discover_languages t langDirs ([], []) with
      | Throw _ => undiscovered
      | Ok (services, versions) =>
          {| languages := match langDirs with [] => ["en"] | _ => langDirs end;
             services := services;
             versions := match versions with [] => ["v3"] | _ => versions end |}
      end
  end.

Definition loadAllSimpleApiSpecs (t : Tree) : list SimpleApiSpec :=
  let d := discoverApiServices t in
  match services d with
  | [] => []
  | _ =>
      flat_map
        (fun language =>
           flat_map
             (fun service =>
                omap (fun version =>
                        loadSimpleApiSpec (versionDir t) service language
                          version)
                     (versions d))
             (services d))
        (languages d)
  end.

(** [getStaticPaths] of [pages/apispecs/[spec].yaml.ts]: the [spec]
    parameter of each path. *)
Definition getStaticPaths (t : Tree) : list string :=
  map id (loadAllSimpleApiSpecs t).

(** The triple a spec was loaded for. *)
Definition origin (s : SimpleApiSpec) : string * string * string :=
  (language s, id s, folderVersion s).

(** A tree with one language, one service and one version. *)
Definition one_service : Tree := {|
  docsDir := Some (Ok [ {| direntName := "en"; isDirectory := true |};
                        {| direntName := "README.md"; isDirectory := false |} ]);
  apispecsDir := fun lang =>
    if String.eqb lang "en"
    then Some (Ok [ {| direntName := "pets"; isDirectory := true |} ])
    else None;
  serviceDir := fun lang service =>
    if String.eqb lang "en" && String.eqb service "pets"
    then Some (Ok [ {| direntName := "v3"; isDirectory := true |} ])
    else None;
  versionDir := fun lang service version =>
    if String.eqb lang "en" && String.eqb service "pets"
       && String.eqb version "v3"
    then Some (Ok [ {| entryName := "notes.txt";
                       content := Throw TypeError |};
                    {| entryName := "broken.yaml";
                       content := Throw TypeError |};
                    {| entryName := "pets.yaml";
                       content :=
                         Ok (JObj [("openapi", JStr "3.0.0");
                                   ("info", JObj [("title", JStr "Pets")])]) |} ])
    else None |}.

(** The same tree, where [ar/apispecs] exists and cannot be listed. *)
Definition unreadable_language : Tree := {|
  docsDir := Some (Ok [ {| direntName := "en"; isDirectory := true |};
                        {| direntName := "ar"; isDirectory := true |} ]);
  apispecsDir := fun lang =>
    if String.eqb lang "ar" then Some (Throw TypeError)
    else apispecsDir one_service lang;
  serviceDir := serviceDir one_service;
  versionDir := versionDir one_service |}.

End SimpleDiscovery.

(** ** Static paths of the JSON endpoint *)

Module SpecPaths.
Import Js DynamicOpenapi.

Definition languages : list string := ["en"; "ar"].
Definition versions : list string := ["v1"; "v2"; "v3"].

Section WithRuntime.
Context `{Runtime}.

(** One turn of the inner loop: [clock] gives the world at the moment of
    the call for a language and a version; the state is [paths] and the
    module's [apiSpecCache]. *)
Definition push_paths (clock : string -> string -> World) (language : string)
    (state : list string * option ApiSpecCache) (version : string)
  : list string * option ApiSpecCache :=
  let '(found, cache') :=
    loadAllApiSpecs (clock language version) (snd state) language version in
  ((fst state ++ map id found)%list, cache').

(** [getStaticPaths] of [pages/apispecs/[spec].json.ts]: the [spec]
    parameter of each path, and the cache afterwards. *)
Definition getStaticPaths (clock : string -> string -> World)
    (apiSpecCache : option ApiSpecCache)
  : list string * option ApiSpecCache :=
  fold_left
    (fun state language =>
       fold_left (push_paths clock language) versions state)
    languages ([], apiSpecCache).


End WithRuntime.
End SpecPaths.

(** ** Recursive calls of the example generator *)

Module ExampleCalls.
Import Js ExampleGen.

(** [calls spec s s']: the body of [generateExampleFromSchema] on [s]
    calls itself on [s']. *)
Inductive calls `{Engine} (spec : json) : json -> json -> Prop :=
| call_ref schema ref target :
    truthy schema = true -> get schema "example" = JUndef ->
    get schema "$ref" = JStr ref -> ref <> "" ->
    walk spec (refPath ref) = Resolved target ->
    calls spec schema target
| call_items schema :
    by_type schema -> has_type schema "array" ->
    truthy (get schema "items") = true ->
    calls spec schema (get schema "items")
| call_property schema propName propSchema :
    by_type schema -> has_type schema "object" ->
    truthy (get schema "properties") = true ->
    In (propName, propSchema) (entries (get schema "properties")) ->
    calls spec schema propSchema.

(** A tree-shaped schema: a node has a name and children that are
    nodes. *)
Definition node_ref : json :=
  JObj [("$ref", JStr "#/components/schemas/Node")].

Definition children : json :=
  JObj [("type", JStr "array"); ("items", node_ref)].

Definition node : json :=
  JObj [("type", JStr "object");
        ("properties",
         JObj [("name", JObj [("type", JStr "string")]);
               ("children", children)])].

Definition tree_spec : json :=
  JObj [("components", JObj [("schemas", JObj [("Node", node)])])].

End ExampleCalls.

(** ** Shapes of names *)

Module NameShape.
Import Js DynamicOpenapi Sanitize.

(** A character of [[A-Za-z0-9_]]. *)
Definition is_id_char (c : ascii) : bool := is_alnum c || is_underscore c.

(** The first character, when there is one, is no underscore. *)
Definition starts_clean (s : list ascii) : Prop :=
  match s with
  | c :: _ => is_underscore c = false
  | [] => True
  end.

(** What [cleanPath] leaves: identifier characters only, no two
    underscores in a row and none at either end. *)
Definition clean (s : list ascii) : Prop :=
  forallb is_id_char s = true /\ no_double s = true
  /\ starts_clean s /\ starts_clean (List.rev s).

Definition no_hyphen (s : list ascii) : bool :=
  forallb (fun x => negb (Ascii.eqb x "-")) s.

End NameShape.

(** ** What a scan reads *)

Module Scans.
Import Js DynamicOpenapi.

(** The method names an operation can carry. *)
Definition METHODS : list string :=
  ["GET"; "POST"; "PUT"; "DELETE"; "PATCH"; "OPTIONS"; "HEAD"].

(** A path entry whose value is an object, the only kind that is read. *)
Definition readable (entry : string * json) : bool :=
  truthy (snd entry) && is_object (snd entry).

(** A module the scan of [loadAllApiSpecs] passes over: its path is not
    of the grammar, its text does not parse, or the document is empty or
    has no [info]. *)
Definition malformed (f : YamlModule) : Prop :=
  match_spec_path (filePath f) = None
  \/ (exists e, parsed f = Throw e)
  \/ (exists doc, parsed f = Ok doc
                  /\ (truthy doc = false \/ truthy (get doc "info") = false)).

(** The world [w] with other versioned modules. *)
Definition with_modules (w : World) (modules : list YamlModule) : World := {|
  Date_now := Date_now w;
  versionedModules := Ok modules;
  legacyModules := legacyModules w |}.

(** The service directory the path grammar reads off a module. *)
Definition service_of (f : YamlModule) : option string :=
  match match_spec_path (filePath f) with
  | Some (service, _, _) => Some service
  | None => None
  end.

End Scans.

(** ** Sample documents *)

Module Samples.
Import Js DynamicOpenapi.

(** Paths of a small document: one operation without id or summary, and
    two entries that are not objects. *)
Definition sample_paths : list (string * json) :=
  [("/pets", JObj [("get", JObj [("description", JStr "All pets")])]);
   ("/text", JStr "not a path item");
   ("/none", JNull)].

(** A file that is not YAML, between the two valid ones. *)
Definition broken_module : YamlModule := {|
  filePath := "/src/content/docs/en/apispecs/payment-api/v2/broken.yaml";
  parsed := Throw TypeError |}.

(** The recursive glob over a tree with one service and ten operations. *)
Definition ten_operations : list YamlModule :=
  [ {| filePath := "/src/content/docs/en/apispecs/big-api/v3/big.yaml";
       parsed :=
         Ok (JObj [("info", JObj [("title", JStr "Big API")]);
                   ("paths",
                    JObj (map (fun p =>
                                 (p, JObj [("get", JObj [("summary", JStr p)])]))
                              ["/a"; "/b"; "/c"; "/d"; "/e"; "/f"; "/g"; "/h";
                               "/i"; "/j"]))]) |} ].

End Samples.

(** * Properties *)

(** ** Strings *)

Module JsFacts.
Import Js.

Lemma chars_of_string s : list_ascii_of_string (string_of_list_ascii s) = s.
Proof. apply list_ascii_of_string_of_list_ascii. Qed.

Lemma string_of_chars s : string_of_list_ascii (list_ascii_of_string s) = s.
Proof. apply string_of_list_ascii_of_string. Qed.

Lemma chars_app s t :
  list_ascii_of_string (s +:+ t)
  = (list_ascii_of_string s ++ list_ascii_of_string t)%list.
Proof. induction s as [|c s IH]; simpl; [reflexivity | now rewrite IH]. Qed.

Lemma prefix_of_app p s : prefix_of p (p ++ s)%list = true.
Proof.
  induction p as [|c p IH]; simpl; [reflexivity|].
  now rewrite Ascii.eqb_refl.
Qed.

Lemma prefix_of_split p s :
  prefix_of p s = true -> exists t, s = (p ++ t)%list.
Proof.
  revert s. induction p as [|c p IH]; intros s; simpl.
  - exists s. reflexivity.
  - destruct s as [|d s]; [discriminate|].
    intros Hp. apply andb_true_iff in Hp as [Hc Hp].
    apply Ascii.eqb_eq in Hc as ->.
    destruct (IH _ Hp) as [t ->]. exists t. reflexivity.
Qed.

Lemma includes_chars_split sub s :
  includes_chars sub s = true ->
  exists pre post, s = (pre ++ sub ++ post)%list.
Proof.
  induction s as [|c s IH]; simpl; intros Hi.
  - rewrite orb_false_r in Hi. destruct (prefix_of_split _ _ Hi) as [t ->].
    exists [], t. reflexivity.
  - apply orb_true_iff in Hi as [Hp|Hr].
    + destruct (prefix_of_split _ _ Hp) as [t ->]. exists [], t. reflexivity.
    + destruct (IH Hr) as (pre & post & ->).
      exists (c :: pre), post. reflexivity.
Qed.

Lemma split_chars_nonempty sep s : split_chars sep s <> [].
Proof.
  destruct s as [|c s]; simpl; [discriminate|].
  destruct (Ascii.eqb c sep); [discriminate|].
  destruct (split_chars sep s); discriminate.
Qed.

Lemma split_chars_app sep a b :
  split_chars sep (a ++ sep :: b)
  = (split_chars sep a ++ split_chars sep b)%list.
Proof.
  induction a as [|c a IH]; simpl.
  - now rewrite Ascii.eqb_refl.
  - destruct (Ascii.eqb c sep); [now rewrite IH|].
    rewrite IH. pose proof (split_chars_nonempty sep a) as Hne.
    destruct (split_chars sep a); [contradiction | reflexivity].
Qed.

Lemma split_chars_free sep s :
  forallb (fun x => negb (Ascii.eqb x sep)) s = true ->
  split_chars sep s = [s].
Proof.
  induction s as [|c s IH]; simpl; [reflexivity|].
  intros Hf. apply andb_true_iff in Hf as [Hc Hs].
  apply negb_true_iff in Hc. rewrite Hc, (IH Hs). reflexivity.
Qed.

Lemma split_join_chars sep words :
  words <> [] ->
  Forall (fun w => forallb (fun x => negb (Ascii.eqb x sep)) w = true) words ->
  split_chars sep (join_chars [sep] words) = words.
Proof.
  intros Hne Hall. induction Hall as [|w rest Hw Hrest IH]; [contradiction|].
  destruct rest as [|w' rest].
  - simpl. apply split_chars_free, Hw.
  - change (join_chars [sep] (w :: w' :: rest))
      with (w ++ sep :: join_chars [sep] (w' :: rest))%list.
    rewrite split_chars_app, (split_chars_free _ _ Hw), IH by discriminate.
    reflexivity.
Qed.

Lemma split_join sep words :
  words <> [] ->
  Forall (fun w => free_of sep w = true) words ->
  split sep (join (String sep "") words) = words.
Proof.
  intros Hne Hall. unfold split, join. rewrite chars_of_string. simpl.
  rewrite split_join_chars.
  - rewrite map_map. rewrite <- (map_id words) at 2.
    apply map_ext. intros w. apply string_of_chars.
  - destruct words; [contradiction | discriminate].
  - apply Forall_map. exact Hall.
Qed.

End JsFacts.

(** ** Example synthesis *)

Module ExampleGenFacts.
Import Js JsFacts ExampleGen.

Lemma str_eq_true v s : str_eq v s = true <-> v = JStr s.
Proof.
  destruct v; simpl; try (split; [discriminate | intros [=]]).
  rewrite String.eqb_eq. split; [congruence | intros [=]; auto].
Qed.

Lemma str_eq_false v s : str_eq v s = false <-> v <> JStr s.
Proof.
  rewrite <- str_eq_true. destruct (str_eq v s); split; congruence.
Qed.

Lemma is_undef_true v : is_undef v = true <-> v = JUndef.
Proof. destruct v; simpl; split; congruence. Qed.

Lemma is_undef_false v : is_undef v = false <-> v <> JUndef.
Proof. destruct v; simpl; split; congruence. Qed.

Lemma truthy_str_nonempty s : truthy (JStr s) = true -> s <> "".
Proof.
  simpl. intros Ht ->. discriminate.
Qed.

Lemma nonempty_truthy_str s : s <> "" -> truthy (JStr s) = true.
Proof.
  intros Hs. unfold truthy. apply negb_true_iff, String.eqb_neq, Hs.
Qed.

Lemma truthy_not_nullish v : truthy v = true -> is_nullish v = false.
Proof. destruct v; simpl; congruence. Qed.

Lemma set_field_keys k v example name :
  In name (map fst (set_field k v example))
  <-> name = k \/ In name (map fst example).
Proof.
  induction example as [|[k' v'] example IH]; simpl.
  - split; [intros [<-|[]]; auto | intros [->|[]]; auto].
  - destruct (String.eqb_spec k k') as [->|Hne]; simpl.
    + split; [intros [<-|Hin]; auto | intros [->|[<-|Hin]]; auto].
    + rewrite IH. split.
      * intros [<-|[->|Hin]]; auto.
      * intros [->|[<-|Hin]]; auto.
Qed.

Lemma assign_field_keys k v example name :
  In name (map fst (assign_field k v example))
  <-> (name = k /\ name <> "__proto__") \/ In name (map fst example).
Proof.
  unfold assign_field. destruct (String.eqb_spec k "__proto__") as [->|Hne].
  - split; [auto | intros [[-> Hn]|Hin]; [contradiction | exact Hin]].
  - rewrite set_field_keys. split.
    + intros [->|Hin]; auto.
    + intros [[-> _]|Hin]; auto.
Qed.

Lemma example_fields_keys (recur : json -> result json) props :
  forall example fields,
    example_fields recur props example = Ok fields ->
    forall name,
      In name (map fst fields)
      <-> (In name (map fst props) /\ name <> "__proto__")
          \/ In name (map fst example).
Proof.
  induction props as [|[k propSchema] props IH]; intros example fields; simpl.
  - intros [= <-] name. split; [auto | intros [[[] _]|Hin]; exact Hin].
  - destruct (recur propSchema) as [v|e]; simpl; [|discriminate].
    intros Hrest name. rewrite (IH _ _ Hrest name), assign_field_keys.
    split.
    + intros [[Hin Hn]|[[-> Hn]|Hin]]; auto.
    + intros [[[<-|Hin] Hn]|Hin]; auto.
Qed.

Lemma refPath_pointer parts :
  parts <> [] ->
  Forall (fun p => free_of "/" p = true) parts ->
  refPath ("#/" +:+ join "/" parts) = parts.
Proof.
  intros Hne Hall. unfold refPath.
  change (list_ascii_of_string ("#/" +:+ join "/" parts))
    with ("#"%char :: "/"%char :: list_ascii_of_string (join "/" parts)).
  change (remove_first ["#"; "/"]%char
            ("#"%char :: "/"%char :: list_ascii_of_string (join "/" parts)))
    with (list_ascii_of_string (join "/" parts)).
  apply (split_join "/" parts Hne Hall).
Qed.

Section WithEngine.
Context `{Engine}.

Lemma walk_app cur pre post :
  walk cur (pre ++ post)
  = match walk cur pre with
    | Resolved next => walk next post
    | Missing => Missing
    | Beyond v k rest => Beyond v k (rest ++ post)
    end.
Proof.
  revert cur. induction pre as [|p pre IH]; intros cur; simpl; [reflexivity|].
  destruct (is_nullish cur); [reflexivity|].
  destruct (has_own cur p).
  - destruct (truthy (get cur p)); [apply IH | reflexivity].
  - destruct (inherited cur p); reflexivity.
Qed.

Lemma reference_body recur frame schema spec ref :
  truthy schema = true ->
  get schema "example" = JUndef ->
  get schema "$ref" = JStr ref ->
  ref <> "" ->
  exampleBody recur frame schema spec
  = match walk spec (refPath ref) with
    | Missing => Ok JNull
    | Resolved resolvedSchema => recur resolvedSchema
    | Beyond v k rest =>
        match beyond spec v k rest with
        | Raises e => Throw e
        | Falls => Ok JNull
        | Calls returns => if frame then returns else Throw RangeError
        end
    end.
Proof.
  intros Hs He Href Hne. unfold exampleBody.
  now rewrite Hs, He, Href, (nonempty_truthy_str _ Hne).
Qed.

Lemma pointer_nonempty parts : "#/" +:+ join "/" parts <> "".
Proof. discriminate. Qed.

End WithEngine.

(** C4 on a schema that declares a property named [__proto__].  The rule
    for objects promises an example for every declared property; the
    generator computes one for each and assigns it under the property's
    name, and the assignment under [__proto__] adds nothing.  An object
    schema that declares [name] and [__proto__] yields a mapping with
    [name] alone, in every engine and for every document; in general the
    keys of the example are the declared names other than [__proto__]. *)
Theorem proto_property_gets_no_example (E : Engine) :
  (forall spec depth,
      generateExampleFromSchema (S (S depth))
        (JObj [("type", JStr "object");
               ("properties",
                JObj [("name", JObj [("type", JStr "string")]);
                      ("__proto__", JObj [("type", JStr "string")])])])
        spec
      = Ok (JObj [("name", JStr "string")]))
  /\ (forall spec depth schema v,
        by_type schema -> has_type schema "object" ->
        truthy (get schema "properties") = true ->
        generateExampleFromSchema depth schema spec = Ok v ->
        exists example,
          v = JObj example
          /\ forall name,
               In name (map fst example)
               <-> In name (declared schema) /\ name <> "__proto__").
Proof.
  split; [reflexivity|].
  intros spec depth schema v (Hs & He & Hr) Ht Hp.
  destruct depth as [|depth]; [discriminate|].
  simpl. unfold exampleBody. unfold has_type in Ht.
  rewrite Hs, He, Hr, Ht, Hp. simpl.
  destruct (example_fields
              (fun s => generateExampleFromSchema depth s spec)
              (entries (get schema "properties")) [])
    as [fields|e] eqn:Hf; simpl; [|discriminate].
  intros [= <-]. exists fields. split; [reflexivity|].
  intros name. rewrite (example_fields_keys _ _ _ _ Hf name). unfold declared.
  simpl. tauto.
Qed.

(** C5 on a pointer that goes through [constructor].  Where the walk has
    reached an object of the document that has no key [constructor], the
    segment is missing from the document; the loop reads the inherited
    member instead, the function [Object], and the next segment, [caller],
    raises [TypeError]: the call ends in the exception, not in [null],
    whatever the call stack left. *)
Theorem inherited_segment_raises
    (E : Engine) (spec schema : json) (before : list string)
    (fields : list (string * json)) (depth : nat) :
  truthy schema = true ->
  get schema "example" = JUndef ->
  Forall (fun p => free_of "/" p = true) before ->
  get schema "$ref"
  = JStr ("#/" +:+ join "/" (before ++ ["constructor"; "caller"])) ->
  walk spec before = Resolved (JObj fields) ->
  has_field "constructor" fields = false ->
  refPath ("#/" +:+ join "/" (before ++ ["constructor"; "caller"]))
  = (before ++ ["constructor"; "caller"])%list
  /\ walk spec (before ++ ["constructor"])
     = Beyond (JObj fields) "constructor" []
  /\ generateExampleFromSchema (S depth) schema spec = Throw TypeError.
Proof.
  intros Hs He Hfree Href Hwalk Hown.
  assert (Hpath :
    refPath ("#/" +:+ join "/" (before ++ ["constructor"; "caller"]))
    = (before ++ ["constructor"; "caller"])%list).
  { apply refPath_pointer; [destruct before; discriminate|].
    apply Forall_app. split; [exact Hfree|].
    repeat constructor. }
  split; [exact Hpath|]. split.
  - rewrite walk_app, Hwalk. simpl.
    now rewrite Hown, object_constructor.
  - simpl.
    rewrite (reference_body _ _ _ _ _ Hs He Href (pointer_nonempty _)).
    rewrite Hpath, walk_app, Hwalk. simpl.
    now rewrite Hown, object_constructor, caller_restricted.
Qed.

(** Witness for C5: [#/components/schemas/constructor/caller] against a
    document whose [components.schemas] holds one schema, [Pet]. *)
Lemma inherited_segment_raises_witness :
  @generateExampleFromSchema plain_engine 1
    (JObj [("$ref", JStr "#/components/schemas/constructor/caller")])
    (JObj [("components", JObj [("schemas", JObj [("Pet", JObj [])])])])
  = Throw TypeError.
Proof.
  apply (inherited_segment_raises plain_engine
           (JObj [("components", JObj [("schemas", JObj [("Pet", JObj [])])])])
           (JObj [("$ref", JStr "#/components/schemas/constructor/caller")])
           ["components"; "schemas"] [("Pet", JObj [])] 0);
    try reflexivity.
  repeat constructor.
Defined.

(** X25. A reference whose walk finds a segment missing, the value
    reached having neither a property nor an inherited member of that
    name, yields [null] and raises nothing, whatever the call stack
    left. *)
Theorem missing_segment_yields_null
    (E : Engine) (spec schema : json) (before : list string)
    (missing : string) (after : list string) (reached : json)
    (depth : nat) :
  truthy schema = true ->
  get schema "example" = JUndef ->
  Forall (fun p => free_of "/" p = true) (before ++ missing :: after) ->
  get schema "$ref" = JStr ("#/" +:+ join "/" (before ++ missing :: after)) ->
  walk spec before = Resolved reached ->
  has_own reached missing = false ->
  inherited reached missing = false ->
  generateExampleFromSchema (S depth) schema spec = Ok JNull.
Proof.
  intros Hs He Hfree Href Hwalk Hown Hin.
  simpl. rewrite (reference_body _ _ _ _ _ Hs He Href (pointer_nonempty _)).
  rewrite refPath_pointer; [|destruct before; discriminate | exact Hfree].
  rewrite walk_app, Hwalk. simpl. rewrite Hown, Hin.
  now destruct (is_nullish reached).
Qed.

Lemma missing_segment_yields_null_witness :
  @generateExampleFromSchema plain_engine 1
    (JObj [("$ref", JStr "#/components/schemas/Missing")])
    (JObj [("components", JObj [("schemas", JObj [("Pet", JObj [])])])])
  = Ok JNull.
Proof.
  apply (missing_segment_yields_null plain_engine
           (JObj [("components", JObj [("schemas", JObj [("Pet", JObj [])])])])
           (JObj [("$ref", JStr "#/components/schemas/Missing")])
           ["components"; "schemas"] "Missing" []
           (JObj [("Pet", JObj [])]) 0);
    try reflexivity.
  repeat constructor.
Defined.

End ExampleGenFacts.

(** ** Operation ids *)

Module OperationIdFacts.
Import Js JsFacts DynamicOpenapi Sanitize.

Lemma is_underscore_eq c : is_underscore c = true -> c = underscore.
Proof. apply Ascii.eqb_eq. Qed.

Lemma alnum_not_underscore c : is_alnum c = true -> is_underscore c = false.
Proof.
  intros Ha. destruct (is_underscore c) eqn:Hu; [|reflexivity].
  apply is_underscore_eq in Hu. subst c. discriminate.
Qed.

Lemma squeeze_keeps_head t :
  exists t', squeeze_underscores (underscore :: t) = underscore :: t'.
Proof.
  induction t as [|c t IH].
  - exists []. reflexivity.
  - change (squeeze_underscores (underscore :: c :: t))
      with (if is_underscore c then squeeze_underscores (c :: t)
            else underscore :: squeeze_underscores (c :: t)).
    destruct (is_underscore c) eqn:Hc.
    + apply is_underscore_eq in Hc. subst c. exact IH.
    + eexists. reflexivity.
Qed.

Lemma squeeze_mask s :
  replace_runs false s = squeeze_underscores (mask_non_alnum s)
  /\ replace_runs true s
     = drop_lead (squeeze_underscores (mask_non_alnum s)).
Proof.
  induction s as [|c r [IHf IHt]]; [split; reflexivity|].
  destruct (is_alnum c) eqn:Ha.
  - pose proof (alnum_not_underscore _ Ha) as Hu.
    assert (Hsq : squeeze_underscores (mask_non_alnum (c :: r))
                  = c :: squeeze_underscores (mask_non_alnum r)).
    { simpl. rewrite Ha. simpl. rewrite Hu. reflexivity. }
    rewrite Hsq. simpl. rewrite Ha, Hu, IHf. split; reflexivity.
  - assert (Hm : mask_non_alnum (c :: r) = underscore :: mask_non_alnum r).
    { simpl. rewrite Ha. reflexivity. }
    rewrite Hm. simpl replace_runs. rewrite Ha, IHt.
    destruct (mask_non_alnum r) as [|c' t] eqn:Hr; [split; reflexivity|].
    change (squeeze_underscores (underscore :: c' :: t))
      with (if is_underscore c' then squeeze_underscores (c' :: t)
            else underscore :: squeeze_underscores (c' :: t)).
    destruct (is_underscore c') eqn:Hc.
    + apply is_underscore_eq in Hc. subst c'.
      destruct (squeeze_keeps_head t) as [t' ->]. split; reflexivity.
    + assert (Hh : squeeze_underscores (c' :: t)
                   = c' :: squeeze_underscores t).
      { simpl. rewrite Hc. reflexivity. }
      rewrite Hh. simpl. rewrite Hc. split; reflexivity.
Qed.

Lemma replace_runs_no_double s :
  forall in_run,
    no_double (replace_runs in_run s) = true
    /\ (in_run = true ->
        match replace_runs in_run s with
        | c :: _ => is_underscore c = false
        | [] => True
        end).
Proof.
  induction s as [|ch r IH]; intros in_run;
    [split; [reflexivity | intros _; exact I]|].
  simpl. destruct (is_alnum ch) eqn:Ha.
  - pose proof (alnum_not_underscore _ Ha) as Hu.
    destruct (IH false) as [Hnd _]. split; [|intros _; exact Hu].
    simpl. destruct (replace_runs false r); [reflexivity|].
    rewrite Hu. simpl. exact Hnd.
  - destruct in_run.
    + apply IH.
    + destruct (IH true) as [Hnd Hhead]. split; [|discriminate].
      simpl. destruct (replace_runs true r) as [|c' t]; [reflexivity|].
      rewrite (Hhead eq_refl). simpl. exact Hnd.
Qed.

Lemma no_double_inside pre a b post :
  no_double (pre ++ a :: b :: post) = true ->
  is_underscore a && is_underscore b = false.
Proof.
  induction pre as [|c pre IH]; simpl.
  - intros Hnd. apply andb_true_iff in Hnd as [Hab _].
    apply negb_true_iff in Hab. exact Hab.
  - destruct (pre ++ a :: b :: post)%list eqn:Hl; [destruct pre; discriminate|].
    intros Hnd. apply andb_true_iff in Hnd as [_ Hnd]. apply IH, Hnd.
Qed.

Lemma no_double_tail c s : no_double (c :: s) = true -> no_double s = true.
Proof.
  simpl. destruct s; [reflexivity|].
  intros Hnd. apply andb_true_iff in Hnd as [_ Hnd]. exact Hnd.
Qed.

Lemma drop_final_strips s :
  no_double s = true -> drop_final_underscore s = strip_trailing s.
Proof.
  intros Hnd. unfold drop_final_underscore, strip_trailing.
  destruct (List.rev s) as [|a rest] eqn:Hr.
  - apply (f_equal (@List.rev ascii)) in Hr. rewrite rev_involutive in Hr.
    exact Hr.
  - simpl. destruct (is_underscore a) eqn:Ha.
    + destruct rest as [|b rest']; [reflexivity|].
      assert (Hs : s = (List.rev rest' ++ b :: a :: [])%list).
      { rewrite <- (rev_involutive s), Hr. simpl.
        rewrite <- !app_assoc. reflexivity. }
      rewrite Hs in Hnd. apply no_double_inside in Hnd.
      rewrite Ha, andb_true_r in Hnd. simpl. rewrite Hnd. reflexivity.
    + rewrite <- Hr, rev_involutive. reflexivity.
Qed.

Lemma trim_strips s :
  no_double s = true ->
  trim_edge_underscores s = strip_trailing (strip_leading s).
Proof.
  intros Hnd. destruct s as [|c r]; [reflexivity|].
  simpl. destruct (is_underscore c) eqn:Hc.
  - pose proof (no_double_tail _ _ Hnd) as Hr.
    assert (Hlead : strip_leading r = r).
    { destruct r as [|b r']; [reflexivity|].
      apply (no_double_inside [] c b r') in Hnd.
      rewrite Hc in Hnd. simpl in Hnd. simpl. rewrite Hnd. reflexivity. }
    rewrite Hlead. apply drop_final_strips, Hr.
  - apply drop_final_strips, Hnd.
Qed.

(** The four replacements of [generateOperationId] compute [sanitize]. *)
Lemma cleanPath_sanitize path : cleanPath path = sanitize path.
Proof.
  unfold cleanPath, sanitize. f_equal.
  change (drop_braces (list_ascii_of_string path))
    with (without_braces (list_ascii_of_string path)).
  destruct (squeeze_mask (without_braces (list_ascii_of_string path)))
    as [<- _].
  apply trim_strips, replace_runs_no_double.
Qed.

Lemma methods_lowercase m : In m methods -> toLowerCase m = m.
Proof.
  unfold methods. simpl.
  intros [<-|[<-|[<-|[<-|[<-|[<-|[<-|[]]]]]]]]; reflexivity.
Qed.

Section Extraction.
Context `{Runtime}.

Lemma operation_of_fields spec pathItem path m op :
  operation_of spec pathItem path m = Ok (Some op) ->
  operationId op = operation_id (get pathItem m) m path
  /\ method op = toUpperCase m /\ DynamicOpenapi.path op = path.
Proof.
  unfold operation_of.
  destruct (negb (truthy (get pathItem m)) || negb (is_object (get pathItem m)));
    [discriminate|].
  destruct (generateOperationMarkdown (get pathItem m) m path spec);
    simpl; [|discriminate].
  intros [= <-]. repeat split.
Qed.

Lemma operations_of_methods_origin spec pathItem path ms :
  forall ops,
    operations_of_methods spec pathItem path ms = Ok ops ->
    forall op, In op ops ->
      exists m, In m ms /\ operation_of spec pathItem path m = Ok (Some op).
Proof.
  induction ms as [|m ms IH]; intros ops; simpl.
  - intros [= <-] op [].
  - destruct (operation_of spec pathItem path m) as [o|e] eqn:Ho;
      simpl; [|discriminate].
    destruct (operations_of_methods spec pathItem path ms) as [rest|e];
      simpl; [|discriminate].
    intros [= <-] op Hin.
    destruct o as [op0|].
    + destruct Hin as [<-|Hin].
      * exists m. split; [left; reflexivity | exact Ho].
      * destruct (IH _ eq_refl _ Hin) as (m' & Hm' & Hop).
        exists m'. split; [right; exact Hm' | exact Hop].
    + destruct (IH _ eq_refl _ Hin) as (m' & Hm' & Hop).
      exists m'. split; [right; exact Hm' | exact Hop].
Qed.

Lemma collectOperations_origin spec paths :
  forall ops,
    collectOperations spec paths = Ok ops ->
    forall op, In op ops ->
      exists path pathItem m,
        In (path, pathItem) paths /\ In m methods
        /\ operation_of spec pathItem path m = Ok (Some op).
Proof.
  induction paths as [|[path pathItem] paths IH]; intros ops;
    cbn [collectOperations].
  - intros [= <-] op [].
  - destruct (negb (truthy pathItem) || negb (is_object pathItem)).
    + cbn [bind]. destruct (collectOperations spec paths) as [more|e];
        cbn [bind]; [|discriminate].
      intros [= <-] op Hin.
      destruct (IH _ eq_refl _ Hin) as (p & pi & m & Hp & Hm & Hop).
      exists p, pi, m. split; [right; exact Hp | auto].
    + destruct (operations_of_methods spec pathItem path methods)
        as [here|e] eqn:Hhere; cbn [bind]; [|discriminate].
      destruct (collectOperations spec paths) as [more|e];
        cbn [bind]; [|discriminate].
      intros [= <-] op Hin. apply in_app_or in Hin as [Hin|Hin].
      * destruct (operations_of_methods_origin _ _ _ _ _ Hhere _ Hin)
          as (m & Hm & Hop).
        exists path, pathItem, m. split; [left; reflexivity | auto].
      * destruct (IH _ eq_refl _ Hin) as (p & pi & m & Hp & Hm & Hop).
        exists p, pi, m. split; [right; exact Hp | auto].
Qed.

End Extraction.

(** C6. For a recognised method, the synthesized id is
    [lower(method) + "_" + sanitize(path)], [sanitize] removing braces,
    turning each non-alphanumeric run into one underscore and stripping the
    underscores at both ends; [get] on [/users/{id}/orders] gives
    [get_users_id_orders]; and every operation gathered from a document
    whose operation object declares no [operationId] carries that id. *)
Theorem operation_id_synthesis :
  (forall method path,
      In method methods ->
      generateOperationId method path
      = toLowerCase method +:+ "_" +:+ sanitize path)
  /\ generateOperationId "get" "/users/{id}/orders" = "get_users_id_orders"
  /\ (forall (RT : Runtime) spec paths ops,
        collectOperations spec paths = Ok ops ->
        forall op, In op ops ->
          exists path pathItem method,
            In (path, pathItem) paths /\ In method methods
            /\ DynamicOpenapi.path op = path
            /\ DynamicOpenapi.method op = toUpperCase method
            /\ (get (get pathItem method) "operationId" = JUndef ->
                operationId op
                = JStr (toLowerCase method +:+ "_" +:+ sanitize path)))
  /\ option_map (map operationId)
       (match @extractOperationsFromSpec Reference.plain_runtime
                (JObj [("paths",
                        JObj [("/users/{id}/orders",
                               JObj [("get", JObj [("summary", JStr "Orders")])])])])
        with Ok ops => Some ops | Throw _ => None end)
     = Some [JStr "get_users_id_orders"].
Proof.
  split; [|split; [|split]].
  - intros m path Hm. unfold generateOperationId.
    rewrite (methods_lowercase _ Hm), cleanPath_sanitize. reflexivity.
  - reflexivity.
  - intros RT spec paths ops Hc op Hin.
    destruct (collectOperations_origin _ _ _ Hc _ Hin)
      as (path & pathItem & m & Hp & Hm & Hop).
    destruct (operation_of_fields _ _ _ _ _ Hop) as (Hid & Hmeth & Hpath).
    exists path, pathItem, m. repeat split; auto.
    intros Hno. rewrite Hid. unfold operation_id. rewrite Hno. simpl.
    unfold generateOperationId.
    rewrite (methods_lowercase _ Hm), cleanPath_sanitize. reflexivity.
  - reflexivity.
Qed.

End OperationIdFacts.

(** ** The file-system loader *)

Module SimpleLoaderFacts.
Import Js SimpleLoader.

Lemma operation_of_kept pathItem pathStr m op :
  operation_of pathItem pathStr m = Ok (Some op) ->
  exists fields,
    get pathItem m = JObj fields
    /\ has_field "operationId" fields = true
    /\ operationId op
       = (if truthy (field "operationId" fields)
          then field "operationId" fields
          else JStr (m +:+ "-" +:+ pathStr))
    /\ method op = toUpperCase m /\ path op = pathStr.
Proof.
  unfold operation_of.
  destruct (truthy (get pathItem m)); simpl; [|discriminate].
  destruct (get pathItem m) as [| |b|z|s|items|fields] eqn:Hget;
    simpl; try discriminate.
  destruct (has_field "operationId" fields) eqn:Hkey; [|discriminate].
  intros [= <-]. exists fields. repeat split; assumption.
Qed.

Lemma operation_of_omitted pathItem pathStr m fields :
  get pathItem m = JObj fields ->
  has_field "operationId" fields = false ->
  operation_of pathItem pathStr m = Ok None.
Proof.
  intros Hget Hkey. unfold operation_of. rewrite Hget. simpl.
  rewrite Hkey. reflexivity.
Qed.

Lemma operations_of_methods_spec pathItem pathStr ms :
  forall ops,
    operations_of_methods pathItem pathStr ms = Ok ops ->
    forall op,
      In op ops <->
      exists m, In m ms /\ operation_of pathItem pathStr m = Ok (Some op).
Proof.
  induction ms as [|m ms IH]; intros ops; cbn [operations_of_methods].
  - intros [= <-] op. split; [intros [] | intros (m & [] & _)].
  - destruct (operation_of pathItem pathStr m) as [o|e] eqn:Ho;
      cbn [bind]; [|discriminate].
    destruct (operations_of_methods pathItem pathStr ms) as [rest|e];
      cbn [bind]; [|discriminate].
    intros [= <-] op. specialize (IH _ eq_refl op). split.
    + intros Hin. destruct o as [op0|].
      * destruct Hin as [<-|Hin].
        -- exists m. split; [left; reflexivity | exact Ho].
        -- apply IH in Hin as (m' & Hm' & Hop).
           exists m'. split; [right; exact Hm' | exact Hop].
      * apply IH in Hin as (m' & Hm' & Hop).
        exists m'. split; [right; exact Hm' | exact Hop].
    + intros (m' & [<-|Hm'] & Hop).
      * rewrite Ho in Hop. injection Hop as ->. left. reflexivity.
      * assert (Hin : In op rest) by (apply IH; eauto).
        destruct o; [right|]; exact Hin.
Qed.

Lemma operations_of_paths_spec paths :
  forall ops,
    operations_of_paths paths = Ok ops ->
    forall op,
      In op ops <->
      exists pathStr pathItem m,
        In (pathStr, pathItem) paths
        /\ truthy pathItem = true /\ is_string pathItem = false
        /\ In m methods
        /\ operation_of pathItem pathStr m = Ok (Some op).
Proof.
  induction paths as [|[pathStr pathItem] paths IH]; intros ops;
    cbn [operations_of_paths].
  - intros [= <-] op. split; [intros [] | intros (? & ? & ? & [] & _)].
  - destruct (negb (truthy pathItem) || is_string pathItem) eqn:Hskip.
    + cbn [bind]. destruct (operations_of_paths paths) as [more|e];
        cbn [bind]; [|discriminate].
      intros [= <-] op. specialize (IH _ eq_refl op). simpl. split.
      * intros Hin. apply IH in Hin as (p & pi & m & Hp & Hrest).
        exists p, pi, m. split; [right; exact Hp | exact Hrest].
      * intros (p & pi & m & [Heq|Hp] & Ht & Hs & Hrest).
        -- injection Heq as <- <-. rewrite Ht, Hs in Hskip. discriminate.
        -- apply IH. exists p, pi, m. auto.
    + apply orb_false_iff in Hskip as [Ht Hs].
      apply negb_false_iff in Ht.
      destruct (operations_of_methods pathItem pathStr methods)
        as [here|e] eqn:Hhere; cbn [bind]; [|discriminate].
      destruct (operations_of_paths paths) as [more|e];
        cbn [bind]; [|discriminate].
      intros [= <-] op. specialize (IH _ eq_refl op).
      pose proof (operations_of_methods_spec _ _ _ _ Hhere op) as Hm.
      rewrite in_app_iff. split.
      * intros [Hin|Hin].
        -- apply Hm in Hin as (m & Hin & Hop).
           exists pathStr, pathItem, m.
           split; [left; reflexivity | auto].
        -- apply IH in Hin as (p & pi & m & Hp & Hrest).
           exists p, pi, m. split; [right; exact Hp | exact Hrest].
      * intros (p & pi & m & [Heq|Hp] & Ht' & Hs' & Hin & Hop).
        -- injection Heq as <- <-. left. apply Hm. eauto.
        -- right. apply IH. exists p, pi, m. auto.
Qed.

Lemma entries_of_falsy v : truthy v = false -> entries v = [].
Proof.
  destruct v as [| |b|z|s|items|fields]; simpl; try reflexivity;
    try discriminate.
  destruct s; [reflexivity | discriminate].
Qed.

(** C10. The simple loader keeps an operation exactly when the method
    entry of the path item is an object that has an [operationId] key: an
    operation object without the key is omitted, no id being synthesized
    for it, and one whose key holds a falsy value gets the hyphenated
    [method-path] id, which is never the underscore form of
    [generateOperationId]. *)
Theorem simple_loader_requires_operation_id_key :
  (forall spec ops,
      simpleOperations spec = Ok ops ->
      forall op,
        In op ops <->
        exists pathStr pathItem m fields,
          In (pathStr, pathItem) (entries (get spec "paths"))
          /\ truthy pathItem = true /\ is_string pathItem = false
          /\ In m methods
          /\ get pathItem m = JObj fields
          /\ has_field "operationId" fields = true
          /\ operation_of pathItem pathStr m = Ok (Some op)
          /\ operationId op
             = (if truthy (field "operationId" fields)
                then field "operationId" fields
                else JStr (m +:+ "-" +:+ pathStr)))
  /\ (forall pathItem pathStr m fields,
        get pathItem m = JObj fields ->
        has_field "operationId" fields = false ->
        operation_of pathItem pathStr m = Ok None)
  /\ (forall pathItem pathStr m fields,
        get pathItem m = JObj fields ->
        has_field "operationId" fields = true ->
        truthy (field "operationId" fields) = false ->
        exists op,
          operation_of pathItem pathStr m = Ok (Some op)
          /\ operationId op = JStr (m +:+ "-" +:+ pathStr))
  /\ (forall m pathStr,
        m +:+ "-" +:+ pathStr <> DynamicOpenapi.generateOperationId m pathStr)
  /\ option_map (fun s => map operationId (operations s))
       (loadSimpleApiSpec
          (fun _ _ _ =>
             Some (Ok [{| entryName := "pets.yaml";
                          content :=
                            Ok (JObj
                              [("openapi", JStr "3.0.0");
                               ("info", JObj [("title", JStr "Pets")]);
                               ("paths",
                                JObj [("/pets",
                                       JObj [("get",
                                              JObj [("operationId", JStr "")]);
                                             ("post",
                                              JObj [("summary",
                                                     JStr "Create")])])])])
                       |}]))
          "pets" "en" "v3")
     = Some [JStr "get-/pets"].
Proof.
  split; [|split; [|split; [|split]]].
  - intros spec ops Hops op. unfold simpleOperations in Hops.
    destruct (truthy (get spec "paths")) eqn:Hp.
    + rewrite (operations_of_paths_spec _ _ Hops op). split.
      * intros (p & pi & m & Hin & Ht & Hs & Hm & Hop).
        destruct (operation_of_kept _ _ _ _ Hop)
          as (fields & Hget & Hkey & Hid & _).
        exists p, pi, m, fields. repeat split; assumption.
      * intros (p & pi & m & fields & Hin & Ht & Hs & Hm & _ & _ & Hop & _).
        exists p, pi, m. repeat split; assumption.
    + injection Hops as <-. rewrite (entries_of_falsy _ Hp). split.
      * intros [].
      * intros (? & ? & ? & ? & [] & _).
  - apply operation_of_omitted.
  - intros pathItem pathStr m fields Hget Hkey Hfalsy.
    unfold operation_of. rewrite Hget. simpl. rewrite Hkey, Hfalsy.
    eexists. split; reflexivity.
  - intros m pathStr Heq. unfold DynamicOpenapi.generateOperationId in Heq.
    apply String.app_inj in Heq. discriminate.
  - reflexivity.
Qed.

End SimpleLoaderFacts.

(** ** Version listing *)

Module ApiVersionsFacts.
Import Js JsFacts ApiVersions Trees.
Import DynamicOpenapi (World, YamlModule, filePath, parsed, versionedModules,
  legacyModules, Date_now, Build_World, Build_YamlModule).

Lemma hit_returns_stored w (cache : gmap string (list ApiVersionInfo))
    s l stored :
  cache !! cacheKey s l = Some stored ->
  getApiVersions w cache s l = (stored, cache).
Proof.
  intros Hhit. unfold getApiVersions. rewrite Hhit. reflexivity.
Qed.

Lemma call_stores_result w (cache : gmap string (list ApiVersionInfo)) s l :
  snd (getApiVersions w cache s l) !! cacheKey s l
  = Some (fst (getApiVersions w cache s l)).
Proof.
  unfold getApiVersions.
  destruct (cache !! cacheKey s l) as [stored|] eqn:Hc; simpl.
  - exact Hc.
  - apply lookup_insert_eq.
Qed.

Lemma step_keeps_entry (cache : gmap string (list ApiVersionInfo)) c k v :
  is_clear c = false ->
  cache !! k = Some v ->
  step cache c !! k = Some v.
Proof.
  destruct c as [w s l|]; [|discriminate]. intros _ Hk. simpl.
  unfold getApiVersions.
  destruct (cache !! cacheKey s l) as [stored|] eqn:Hc; simpl; [exact Hk|].
  rewrite lookup_insert_ne; [exact Hk|]. intros Heq. congruence.
Qed.

Lemma run_keeps_entry calls :
  forall (cache : gmap string (list ApiVersionInfo)) k v,
    Forall (fun c => is_clear c = false) calls ->
    cache !! k = Some v ->
    fold_left step calls cache !! k = Some v.
Proof.
  induction calls as [|c calls IH]; intros cache k v Hall Hk; [exact Hk|].
  inversion Hall as [|? ? Hc Hrest]; subst. simpl.
  apply IH; [exact Hrest|]. apply step_keeps_entry; assumption.
Qed.

Lemma detect_contribution f acc :
  detect f acc
  = match contribution f with
    | None => acc
    | Some c =>
        {| versionSet := set_add (fst c) (versionSet acc);
           versions :=
             (versions acc
              ++ match entry_of c with Some e => [e] | None => [] end)%list |}
    end.
Proof.
  unfold detect, contribution, entry_of.
  destruct (match_version_dir (filePath f)) as [v|]; [|reflexivity].
  destruct (is_version_name v); simpl; [|reflexivity].
  destruct (parsed f) as [doc|e]; [|reflexivity].
  destruct (truthy doc && truthy (get doc "info")); [|reflexivity].
  simpl. destruct (declared_badge (get doc "info")); simpl;
    [reflexivity | now rewrite app_nil_r].
Qed.

Lemma detect_fold files :
  forall acc,
    versionSet (fold_left (fun a f => detect f a) files acc)
    = fold_left (fun s v => set_add v s)
        (map fst (omap contribution files)) (versionSet acc)
    /\ versions (fold_left (fun a f => detect f a) files acc)
       = (versions acc ++ omap entry_of (omap contribution files))%list.
Proof.
  induction files as [|f files IH]; intros acc; simpl.
  - now rewrite app_nil_r.
  - destruct (IH (detect f acc)) as [-> ->]. rewrite detect_contribution.
    destruct (contribution f) as [c|]; simpl; [|split; reflexivity].
    split; [reflexivity|].
    rewrite <- app_assoc. destruct (entry_of c); reflexivity.
Qed.

Lemma detect_all_versionSet files :
  versionSet (detect_all files)
  = fold_left (fun s v => set_add v s) (map fst (omap contribution files)) [].
Proof. apply (detect_fold files). Qed.

Lemma detect_all_versions files :
  versions (detect_all files) = omap entry_of (omap contribution files).
Proof. apply (detect_fold files). Qed.

Lemma set_add_spec v s :
  (forall x, In x (set_add v s) <-> x = v \/ In x s)
  /\ (List.NoDup s -> List.NoDup (set_add v s)).
Proof.
  unfold set_add. destruct (existsb (String.eqb v) s) eqn:He.
  - apply existsb_exists in He as (y & Hy & Heq).
    apply String.eqb_eq in Heq. subst y. split; [|auto].
    intros x. split; [auto|]. intros [->|Hx]; assumption.
  - assert (Hnot : ~ In v s).
    { intros Hin. apply not_true_iff_false in He. apply He.
      apply existsb_exists. exists v. split; [exact Hin|].
      apply String.eqb_refl. }
    split.
    + intros x. rewrite in_app_iff. simpl. intuition.
    + intros Hnd. apply List.NoDup_app; [exact Hnd | repeat constructor; auto |].
      intros x Hx [<-|[]]. contradiction.
Qed.

Lemma set_adds_spec vs :
  forall s,
    (forall x, In x (fold_left (fun s v => set_add v s) vs s)
               <-> In x vs \/ In x s)
    /\ (List.NoDup s ->
        List.NoDup (fold_left (fun s v => set_add v s) vs s)).
Proof.
  induction vs as [|v vs IH]; intros s; simpl.
  - split; [intuition | auto].
  - destruct (IH (set_add v s)) as [Hin Hnd].
    destruct (set_add_spec v s) as [Hin1 Hnd1]. split.
    + intros x. rewrite Hin, Hin1. intuition.
    + auto.
Qed.

Lemma set_adds_distinct vs :
  forall s,
    List.NoDup (s ++ vs) ->
    fold_left (fun s v => set_add v s) vs s = (s ++ vs)%list.
Proof.
  induction vs as [|v vs IH]; intros s Hnd; simpl.
  - now rewrite app_nil_r.
  - assert (Hadd : set_add v s = (s ++ [v])%list).
    { unfold set_add. destruct (existsb (String.eqb v) s) eqn:He;
        [|reflexivity].
      apply existsb_exists in He as (y & Hy & Heq).
      apply String.eqb_eq in Heq. subst y.
      apply List.NoDup_remove_2 in Hnd. exfalso. apply Hnd.
      apply in_or_app. left. exact Hy. }
    rewrite Hadd, IH; rewrite <- app_assoc; [reflexivity | exact Hnd].
Qed.

Lemma insert_version_perm v l : Permutation (v :: l) (insert_version v l).
Proof.
  induction l as [|u l IH]; simpl; [reflexivity|].
  destruct (version_number u <=? version_number v); [reflexivity|].
  rewrite perm_swap. apply perm_skip, IH.
Qed.

Lemma sort_versions_perm l : Permutation l (sort_versions l).
Proof.
  induction l as [|v l IH]; simpl; [constructor|].
  rewrite <- insert_version_perm. apply perm_skip, IH.
Qed.

Lemma insert_version_sorted v l :
  StronglySorted descending l -> StronglySorted descending (insert_version v l).
Proof.
  induction 1 as [|u l Hs IH Hall]; simpl.
  - repeat constructor.
  - destruct (version_number u <=? version_number v) eqn:Hle.
    + apply Z.leb_le in Hle. constructor.
      * constructor; assumption.
      * constructor; [exact Hle|].
        eapply List.Forall_impl; [|exact Hall].
        unfold descending. intros w Hw. lia.
    + apply Z.leb_gt in Hle. constructor; [exact IH|].
      apply (Permutation_Forall (insert_version_perm v l)).
      constructor; [unfold descending; lia | exact Hall].
Qed.

Lemma sort_versions_sorted l : StronglySorted descending (sort_versions l).
Proof.
  induction l as [|v l IH]; simpl; [constructor|].
  apply insert_version_sorted, IH.
Qed.

Lemma find_pointwise {A} (p q : A -> bool) l :
  (forall x, p x = q x) -> List.find p l = List.find q l.
Proof.
  intros Hpq. induction l as [|x l IH]; simpl; [reflexivity|].
  rewrite Hpq, IH. reflexivity.
Qed.

Lemma find_omap {A B} (f : A -> option B) (p : B -> bool) l :
  List.find p (omap f l)
  = match List.find
            (fun x => match f x with Some y => p y | None => false end) l
    with
    | Some x => f x
    | None => None
    end.
Proof.
  induction l as [|x l IH]; simpl; [reflexivity|].
  destruct (f x) as [y|] eqn:Hf; simpl; [|exact IH].
  destruct (p y); [symmetry; exact Hf | exact IH].
Qed.

(** The badge [describe] finds in [versions] is the version's own. *)
Lemma existing_badge cs v :
  match List.find (fun i => String.eqb (version i) v) (omap entry_of cs) with
  | Some e => badge e
  | None => JUndef
  end = own_badge cs v.
Proof.
  rewrite find_omap. unfold own_badge, deciding_info.
  rewrite (find_pointwise _
             (fun c => String.eqb (fst c) v
                       && bool_decide (is_Some (entry_of c)))).
  - destruct (List.find _ cs) as [c|] eqn:Hfind; simpl; [|reflexivity].
    unfold entry_of. destruct (declared_badge (snd c)); reflexivity.
  - intros c. unfold entry_of.
    destruct (declared_badge (snd c)); simpl.
    + now rewrite andb_true_r.
    + now rewrite andb_false_r.
Qed.

Lemma describe_fields cs i v :
  version (describe (omap entry_of cs) i v) = v
  /\ label (describe (omap entry_of cs) i v)
     = (if Nat.eqb i 0 then v +:+ " (Latest)" else v)
  /\ badge (describe (omap entry_of cs) i v)
     = or_else (own_badge cs v)
               (positional_badge i (List.length (omap entry_of cs))).
Proof.
  unfold describe. simpl. repeat split. now rewrite existing_badge.
Qed.

Lemma versions_of_imap found l :
  map version (imap (describe found) l) = l.
Proof.
  assert (Hgen : forall (g : nat -> string -> ApiVersionInfo),
             (forall i v, version (g i v) = v) ->
             map version (imap g l) = l).
  { induction l as [|v l IH]; intros g Hg; simpl; [reflexivity|].
    rewrite Hg, IH; [reflexivity|]. intros i w. apply Hg. }
  apply Hgen. reflexivity.
Qed.

Lemma contribution_holds f v :
  (exists info, contribution f = Some (v, info)) <-> holds_version f v.
Proof.
  unfold contribution, holds_version. split.
  - intros [info Hc].
    destruct (match_version_dir (filePath f)) as [u|]; [|discriminate].
    destruct (is_version_name u) eqn:Hn; [|discriminate].
    destruct (parsed f) as [doc|e]; [|discriminate].
    destruct (truthy doc && truthy (get doc "info")) eqn:Ht; [|discriminate].
    injection Hc as <- <-. apply andb_true_iff in Ht as [Hd Hi].
    repeat split; auto. exists doc. auto.
  - intros (-> & -> & doc & -> & -> & ->). simpl. eauto.
Qed.

Lemma contributions_hold files v :
  (exists info, In (v, info) (omap contribution files))
  <-> exists f, In f files /\ holds_version f v.
Proof.
  split.
  - intros [info Hin]. apply list_elem_of_In, list_elem_of_omap in Hin
      as (f & Hf & Hc).
    exists f. split; [apply list_elem_of_In, Hf|].
    apply contribution_holds. eauto.
  - intros (f & Hf & Hh). apply contribution_holds in Hh as [info Hc].
    exists info. apply list_elem_of_In, list_elem_of_omap.
    exists f. split; [apply list_elem_of_In, Hf | exact Hc].
Qed.

Lemma omap_all_some {A B} (f : A -> option B) l :
  Forall (fun x => is_Some (f x)) l ->
  List.length (omap f l) = List.length l.
Proof.
  induction 1 as [|x l [y Hy] _ IH]; simpl; [reflexivity|].
  rewrite Hy. simpl. f_equal. exact IH.
Qed.

Lemma miss_computes w (cache : gmap string (list ApiVersionInfo))
    s l modules :
  versionedModules w = Ok modules ->
  cache !! cacheKey s l = None ->
  fst (getApiVersions w cache s l)
  = imap (describe (omap entry_of (omap contribution (service_files modules s l))))
      (sort_versions
         (fold_left (fun acc v => set_add v acc)
            (map fst (omap contribution (service_files modules s l))) [])).
Proof.
  intros Hm Hmiss. unfold getApiVersions. rewrite Hmiss. simpl.
  unfold detectVersions. rewrite Hm.
  fold (service_files modules s l).
  now rewrite detect_all_versions, detect_all_versionSet.
Qed.

Lemma textual_entry c : textual_version (snd c) -> is_Some (entry_of c).
Proof.
  unfold textual_version, entry_of, declared_badge.
  destruct (truthy (get (snd c) "x-version-status")); [eauto|].
  destruct (get (snd c) "version") as [| |b|z|semVer|items|fields];
    simpl; try contradiction; intros _; eauto.
  destruct (negb (String.eqb semVer "")); [|eauto]. simpl.
  destruct (includes semVer "beta"); [eauto|]. simpl. eauto.
Qed.

(** C7, as the code has it.  On a cache miss, when the scan succeeds,
    [getApiVersions] returns the distinct version directories named
    [v<digits>] that hold a document with an [info] block, sorted
    descending by the number [parseInt] reads off the suffix, a double
    that is the suffix itself below [2^53]; the first entry is labelled
    [<version> (Latest)].  A version's own badge, that of its first
    document whose badge computation raises nothing, comes first: the
    declared [x-version-status], else [Beta] when [info.version] contains
    [beta], else [Alpha] when it contains [alpha].  Only a version without
    one gets the positional badge: [Latest] for the highest and, when
    every version directory holds exactly one document and every
    [info.version] is a string or absent, [Legacy] for the lowest of two
    or more. *)
Theorem version_listing_order_and_badges
    (w : World) (cache : gmap string (list ApiVersionInfo))
    (serviceName language : string) (modules : list YamlModule) :
  versionedModules w = Ok modules ->
  cache !! cacheKey serviceName language = None ->
  let files := service_files modules serviceName language in
  let cs := omap contribution files in
  let out := fst (getApiVersions w cache serviceName language) in
  StronglySorted descending (map version out)
  /\ (forall c suffix,
        decimal 0 suffix < 2 ^ 53 ->
        version_number (String c (string_of_list_ascii suffix))
        = decimal 0 suffix)
  /\ List.NoDup (map version out)
  /\ (forall v, In v (map version out)
                <-> exists f, In f files /\ holds_version f v)
  /\ (forall i e, out !! i = Some e ->
        label e = (if Nat.eqb i 0 then version e +:+ " (Latest)"
                   else version e)
        /\ (truthy (own_badge cs (version e)) = true ->
            badge e = own_badge cs (version e))
        /\ (i = 0%nat -> truthy (own_badge cs (version e)) = false ->
            badge e = JStr "Latest"))
  /\ (forall v info,
        deciding_info cs v = Some info ->
        (truthy (get info "x-version-status") = true ->
         own_badge cs v = get info "x-version-status")
        /\ (forall semVer,
              truthy (get info "x-version-status") = false ->
              get info "version" = JStr semVer ->
              own_badge cs v
              = (if includes semVer "beta" then JStr "Beta"
                 else if includes semVer "alpha" then JStr "Alpha"
                 else JUndef))
        /\ (truthy (get info "x-version-status") = false ->
            truthy (get info "version") = false ->
            own_badge cs v = JUndef))
  /\ (List.NoDup (map fst cs) ->
      Forall (fun c => textual_version (snd c)) cs ->
      forall i e, out !! i = Some e ->
        (0 < i)%nat -> S i = List.length out ->
        truthy (own_badge cs (version e)) = false ->
        badge e = JStr "Legacy").
Proof.
  intros Hm Hmiss files cs out.
  pose proof (miss_computes _ _ _ _ _ Hm Hmiss) as Hout.
  fold files in Hout. fold cs in Hout. fold out in Hout.
  set (collected := fold_left (fun acc v => set_add v acc) (map fst cs) [])
    in Hout.
  assert (Hversions : map version out = sort_versions collected)
    by (rewrite Hout; apply versions_of_imap).
  destruct (set_adds_spec (map fst cs) []) as [Hin Hnd].
  fold collected in Hin, Hnd.
  assert (Hentry : forall i e, out !! i = Some e ->
            exists v, sort_versions collected !! i = Some v
                      /\ e = describe (omap entry_of cs) i v).
  { intros i e He. rewrite Hout, list_lookup_imap in He.
    destruct (sort_versions collected !! i) as [v|]; [|discriminate].
    injection He as <-. eauto. }
  split; [|split; [|split; [|split; [|split; [|split]]]]].
  - rewrite Hversions. apply sort_versions_sorted.
  - intros c suffix Hsmall. unfold version_number. simpl.
    rewrite chars_of_string. unfold to_double.
    now destruct (Z.ltb_spec (decimal 0 suffix) (2 ^ 53)); [|lia].
  - rewrite Hversions.
    apply (Permutation_NoDup (sort_versions_perm collected)), Hnd.
    constructor.
  - intros v. rewrite Hversions. unfold files.
    rewrite <- contributions_hold. fold files. fold cs. split.
    + intros Hv.
      apply (Permutation_in _ (Permutation_sym (sort_versions_perm collected)))
        in Hv.
      apply Hin in Hv as [Hv|[]]. apply in_map_iff in Hv as ([u info] & <- & Hc).
      exists info. exact Hc.
    + intros [info Hc].
      apply (Permutation_in _ (sort_versions_perm collected)).
      apply Hin. left. apply in_map_iff. exists (v, info). auto.
  - intros i e He. destruct (Hentry _ _ He) as (v & _ & ->).
    destruct (describe_fields cs i v) as (-> & -> & ->).
    split; [reflexivity|]. split.
    + intros Hown. unfold or_else. rewrite Hown. reflexivity.
    + intros -> Hown. unfold or_else. rewrite Hown. reflexivity.
  - intros v info Hd. unfold own_badge. rewrite Hd. unfold declared_badge.
    split; [|split].
    + intros ->. reflexivity.
    + intros semVer -> Hv. rewrite Hv. simpl.
      destruct (String.eqb_spec semVer "") as [->|Hne]; [reflexivity|].
      simpl. destruct (includes semVer "beta"); [reflexivity|]. simpl.
      destruct (includes semVer "alpha"); reflexivity.
    + intros -> ->. reflexivity.
  - intros Hdistinct Htext i e He Hpos Hlast Hown.
    assert (Hall : Forall (fun c => is_Some (entry_of c)) cs).
    { apply (List.Forall_impl _ textual_entry), Htext. }
    destruct (Hentry _ _ He) as (v & _ & ->).
    destruct (describe_fields cs i v) as (Hv & _ & ->).
    rewrite Hv in Hown. unfold or_else. rewrite Hown.
    assert (Hlen : List.length (omap entry_of cs) = List.length out).
    { rewrite (omap_all_some _ _ Hall).
      rewrite <- (length_map version out), Hversions.
      rewrite <- (Permutation_length (sort_versions_perm collected)).
      unfold collected. rewrite set_adds_distinct by exact Hdistinct.
      simpl. now rewrite length_map. }
    unfold positional_badge. rewrite Hlen, <- Hlast.
    destruct i as [|i]; [lia|]. simpl. rewrite ?Nat.sub_0_r, Nat.eqb_refl.
    reflexivity.
Qed.

(** Witness for C7: the tree [two_versions] lists [v2] before [v1]. *)
Lemma version_listing_order_and_badges_witness :
  StronglySorted descending
    (map version (fst (getApiVersions two_versions ∅ "payment-api" "en"))).
Proof.
  exact (proj1 (version_listing_order_and_badges two_versions ∅
                  "payment-api" "en" _ eq_refl eq_refl)).
Defined.

(** The lowest version's document declares no [x-version-status], yet its
    entry is badged [Beta], from its [info.version], and labelled [v1]:
    nothing marks it [Legacy]. *)
Lemma lowest_version_badged_beta :
  map (fun e => (version e, label e, badge e))
      (fst (getApiVersions beta_legacy ∅ "payment-api" "en"))
  = [("v2", "v2 (Latest)", JStr "Latest"); ("v1", "v1", JStr "Beta")].
Proof. vm_compute. reflexivity. Qed.

(** C8. The version cache has no expiry.  A stored entry is returned as it
    is in every world, whatever its clock reads; each call leaves its
    result stored under its key; through any later calls that do not clear
    the cache, whenever made and for whatever keys, a call for the key
    still returns the first result; and [clearApiVersionCache] empties the
    cache. *)
Theorem version_cache_never_expires :
  (forall w (cache : gmap string (list ApiVersionInfo)) s l stored,
      cache !! cacheKey s l = Some stored ->
      getApiVersions w cache s l = (stored, cache))
  /\ (forall w (cache : gmap string (list ApiVersionInfo)) s l,
        snd (getApiVersions w cache s l) !! cacheKey s l
        = Some (fst (getApiVersions w cache s l)))
  /\ (forall w (cache : gmap string (list ApiVersionInfo)) s l calls w',
        Forall (fun c => is_clear c = false) calls ->
        getApiVersions w'
          (fold_left step calls (snd (getApiVersions w cache s l))) s l
        = (fst (getApiVersions w cache s l),
           fold_left step calls (snd (getApiVersions w cache s l))))
  /\ (forall s l, clearApiVersionCache !! cacheKey s l = None)
  /\ (forall w (cache : gmap string (list ApiVersionInfo)) s l,
        fst (getApiVersions w (step cache ClearCache) s l)
        = detectVersions w s l).
Proof.
  split; [|split; [|split; [|split]]].
  - apply hit_returns_stored.
  - apply call_stores_result.
  - intros w cache s l calls w' Hall. apply hit_returns_stored.
    apply run_keeps_entry; [exact Hall | apply call_stores_result].
  - intros s l. apply lookup_empty.
  - intros w cache s l. simpl. unfold getApiVersions, clearApiVersionCache.
    rewrite lookup_empty. reflexivity.
Qed.

End ApiVersionsFacts.

(** ** Discovery and lookup *)

Module DynamicOpenapiFacts.
Import Js JsFacts DynamicOpenapi Trees.

Lemma split_segment sep a b :
  forallb (fun x => negb (Ascii.eqb x sep)) a = true ->
  split_chars sep (a ++ sep :: b) = a :: split_chars sep b.
Proof.
  intros Ha. now rewrite split_chars_app, (split_chars_free _ _ Ha).
Qed.

Lemma laid_out_segments f lang service versionDir name :
  laid_out f lang service versionDir name ->
  split "/" (filePath f)
  = [""; "src"; "content"; "docs"; lang; "apispecs"; service; versionDir;
     name].
Proof.
  intros (Hpath & Hl & Hs & Hv & Hn). unfold split. rewrite Hpath.
  set (lc := list_ascii_of_string lang).
  set (sc := list_ascii_of_string service).
  set (vc := list_ascii_of_string versionDir).
  set (nc := list_ascii_of_string name).
  assert (Hchars :
    list_ascii_of_string
      ("/src/content/docs/" +:+ lang +:+ "/apispecs/" +:+ service +:+ "/"
       +:+ versionDir +:+ "/" +:+ name)
    = ([] ++ "/" ::
       (list_ascii_of_string "src" ++ "/" ::
        (list_ascii_of_string "content" ++ "/" ::
         (list_ascii_of_string "docs" ++ "/" ::
          (lc ++ "/" ::
           (list_ascii_of_string "apispecs" ++ "/" ::
            (sc ++ "/" :: (vc ++ "/" :: nc))))))))%list%char).
  { rewrite !chars_app. subst lc sc vc nc. simpl.
    rewrite <- ?app_assoc. reflexivity. }
  rewrite Hchars.
  rewrite !split_segment by (assumption || reflexivity).
  rewrite split_chars_free by assumption.
  subst lc sc vc nc. simpl. rewrite !string_of_chars. reflexivity.
Qed.

Lemma laid_out_match f lang service versionDir name :
  laid_out f lang service versionDir name ->
  forall s v n,
    match_spec_path (filePath f) = Some (s, v, n) ->
    s = service /\ v = versionDir /\ n = name.
Proof.
  intros Hlay s v n. unfold match_spec_path.
  rewrite (laid_out_segments _ _ _ _ _ Hlay). simpl.
  destruct (nonempty service && nonempty versionDir && nonempty name);
    [|discriminate].
  intros [= <- <- <-]. auto.
Qed.

Lemma between_ends {A} (p0 : A) ps x q a0 m z :
  q <> [] ->
  ((p0 :: ps) ++ x :: q = a0 :: m ++ [z])%list ->
  In x m.
Proof.
  intros Hq Heq. destruct (exists_last Hq) as (q' & z' & ->).
  injection Heq as _ Heq.
  change (ps ++ x :: q' ++ [z'])%list with (ps ++ (x :: q') ++ [z'])%list in Heq.
  rewrite app_assoc in Heq. apply app_inj_tail in Heq as [<- _].
  apply in_or_app. right. left. reflexivity.
Qed.

Lemma includes_segment path v :
  free_of "/" v = true ->
  includes path ("/" +:+ v +:+ "/") = true ->
  exists first middle final,
    split "/" path = (first :: middle ++ [final])%list /\ In v middle.
Proof.
  intros Hv Hinc. unfold includes in Hinc.
  apply includes_chars_split in Hinc as (pre & post & Hchars).
  rewrite !chars_app in Hchars. simpl in Hchars.
  assert (Hsplit : split_chars "/" (list_ascii_of_string path)
                   = (split_chars "/" pre
                      ++ list_ascii_of_string v :: split_chars "/" post)%list).
  { rewrite Hchars.
    change (pre ++ ("/"%char :: list_ascii_of_string v ++ ["/"%char]) ++ post)%list
      with (pre ++ "/"%char :: ((list_ascii_of_string v ++ ["/"%char]) ++ post))%list.
    rewrite <- app_assoc. simpl.
    rewrite split_chars_app, split_segment by exact Hv. reflexivity. }
  pose proof (split_chars_nonempty "/" pre) as Hpre.
  pose proof (split_chars_nonempty "/" post) as Hpost.
  destruct (split_chars "/" pre) as [|p0 ps]; [contradiction|].
  destruct (exists_last Hpost) as (q' & z & Hq).
  exists (string_of_list_ascii p0),
         (map string_of_list_ascii (ps ++ list_ascii_of_string v :: q')),
         (string_of_list_ascii z).
  split.
  - unfold split. rewrite Hsplit, Hq. simpl. f_equal.
    rewrite !map_app. simpl. rewrite map_app, <- app_assoc. reflexivity.
  - apply in_map_iff. exists (list_ascii_of_string v).
    split; [apply string_of_chars|]. apply in_or_app. right. left. reflexivity.
Qed.

Lemma laid_out_includes f lang service versionDir name v :
  laid_out f lang service versionDir name ->
  free_of "/" v = true ->
  includes (filePath f) ("/" +:+ v +:+ "/") = true ->
  In v ["src"; "content"; "docs"; lang; "apispecs"; service; versionDir].
Proof.
  intros Hlay Hv Hinc.
  destruct (includes_segment _ _ Hv Hinc) as (first & middle & final & Hs & Hin).
  rewrite (laid_out_segments _ _ _ _ _ Hlay) in Hs.
  injection Hs as _ Hs.
  change ["src"; "content"; "docs"; lang; "apispecs"; service; versionDir; name]
    with (["src"; "content"; "docs"; lang; "apispecs"; service; versionDir]
          ++ [name])%list in Hs.
  apply app_inj_tail in Hs as [<- _]. exact Hin.
Qed.

Section Loading.
Context `{Runtime}.

Lemma load_on_miss w cache language version :
  fresh w cache = false ->
  loadAllApiSpecs w cache language version
  = reload w cache language version.
Proof.
  unfold fresh, loadAllApiSpecs. destruct cache as [c|]; [|reflexivity].
  intros ->. reflexivity.
Qed.

Lemma versioned_spec_of_path language f s :
  versioned_spec_of language f = Some s ->
  exists versionDir name,
    match_spec_path (filePath f) = Some (id s, versionDir, name).
Proof.
  unfold versioned_spec_of.
  destruct (match_spec_path (filePath f)) as [[[service versionDir] name]|];
    [|discriminate].
  destruct (parsed f) as [doc|e]; [|discriminate].
  destruct (negb (truthy doc) || negb (truthy (get doc "info")));
    [discriminate|].
  destruct (extractOperationsFromSpec doc); [|discriminate].
  intros [= <-]. simpl. eauto.
Qed.

Lemma cached_for_kept language version l :
  forall hit,
    cached_for language version l = Ok hit ->
    forall s, In s hit ->
      In s l /\ DynamicOpenapi.language s = language
      /\ exists declared,
           DynamicOpenapi.version s = JStr declared
           /\ startsWith declared version = true.
Proof.
  induction l as [|x l IH]; intros hit; simpl.
  - intros [= <-] s [].
  - destruct (String.eqb_spec (DynamicOpenapi.language x) language)
      as [Hlang|Hlang].
    + destruct (DynamicOpenapi.version x) as [| |b|z|declared|items|fields]
        eqn:Hver; try discriminate.
      destruct (cached_for language version l) as [kept|e];
        simpl; [|discriminate].
      destruct (startsWith declared version) eqn:Hstart; intros [= <-] s Hin.
      * destruct Hin as [<-|Hin].
        -- split; [left; reflexivity|]. split; [exact Hlang|]. eauto.
        -- destruct (IH _ eq_refl _ Hin) as (Hl & Hrest).
           split; [right; exact Hl | exact Hrest].
      * destruct (IH _ eq_refl _ Hin) as (Hl & Hrest).
        split; [right; exact Hl | exact Hrest].
    + intros Hc s Hin. destruct (IH _ Hc _ Hin) as (Hl & Hrest).
      split; [right; exact Hl | exact Hrest].
Qed.

End Loading.

(** X26. Over a tree laid out as
    [docs/<lang>/apispecs/<service>/<version>/<file>] in which no language
    and no service directory is called [v3], an operation that
    [getApiOperation] returns on a cache miss is an operation of a
    document under the version directory [v3] of the service asked for,
    and its id is the string asked for. *)
Theorem lookup_answers_from_v3_directory
    (RT : Runtime) (w : World) (cache : option ApiSpecCache)
    (specId opId language : string) (modules : list YamlModule)
    (op : DynamicApiOperation) :
  versionedModules w = Ok modules ->
  fresh w cache = false ->
  (forall f, In f modules ->
     exists lang service versionDir name,
       laid_out f lang service versionDir name
       /\ lang <> "v3" /\ service <> "v3") ->
  fst (getApiOperation w cache specId opId language) = Some op ->
  operationId op = JStr opId
  /\ exists f lang name s,
       In f modules
       /\ laid_out f lang specId "v3" name
       /\ versioned_spec_of language f = Some s
       /\ In op (operations s).
Proof.
  intros Hm Hmiss Hlayout Hop.
  unfold getApiOperation, getApiSpecById in Hop.
  rewrite (load_on_miss _ _ _ _ Hmiss) in Hop. unfold reload in Hop.
  rewrite Hm in Hop. simpl in Hop.
  match type of Hop with
  | context [List.find ?p ?l] => destruct (List.find p l) as [s|] eqn:Hfind
  end; [|discriminate].
  simpl in Hop. apply find_some in Hop as [Hinop Hid].
  apply ExampleGenFacts.str_eq_true in Hid. split; [exact Hid|].
  apply find_some in Hfind as [Hin Hs]. apply String.eqb_eq in Hs.
  unfold pushes in Hin.
  apply list_elem_of_In, list_elem_of_omap in Hin as (f & Hf & Hspec).
  apply list_elem_of_In, filter_In in Hf as [Hf Hinc].
  apply andb_true_iff in Hinc as [_ Hv3].
  destruct (versioned_spec_of_path _ _ _ Hspec) as (vd & name & Hmatch).
  destruct (Hlayout _ Hf) as (lang & service & versionDir & nm & Hlay
                               & Hlang & Hservice).
  destruct (laid_out_match _ _ _ _ _ Hlay _ _ _ Hmatch) as (Hsvc & _ & _).
  pose proof (laid_out_includes _ _ _ _ _ "v3" Hlay eq_refl Hv3) as Hseg.
  simpl in Hseg.
  destruct Hseg as [Hc|[Hc|[Hc|[Hc|[Hc|[Hc|[Hc|[]]]]]]]];
    try discriminate Hc; try contradiction.
  exists f, lang, nm, s. subst versionDir. rewrite <- Hs, Hsvc.
  split; [exact Hf|]. split; [exact Hlay|]. split; [exact Hspec|].
  exact Hinop.
Qed.

Lemma lookup_answers_from_v3_directory_witness :
  option_map operationId
    (fst (@getApiOperation Reference.plain_runtime (payment_v3_operation 0)
            None "payment-api" "listPayments" "en"))
  = Some (JStr "listPayments").
Proof.
  destruct (fst (@getApiOperation Reference.plain_runtime
                   (payment_v3_operation 0) None "payment-api"
                   "listPayments" "en")) as [op|] eqn:Hop;
    [|vm_compute in Hop; discriminate].
  destruct (lookup_answers_from_v3_directory Reference.plain_runtime
              (payment_v3_operation 0) None "payment-api" "listPayments"
              "en" _ op eq_refl eq_refl) as [Hid _].
  - intros f [<-|[]].
    exists "en", "payment-api", "v3", "payment.yaml".
    split; [repeat split|]. split; discriminate.
  - exact Hop.
  - simpl. now rewrite Hid.
Defined.

(** C9 on [service_named_v3].  The lookup is meant for the version
    directory [v3]: [getApiOperation] has [getApiSpecById] load the
    files "for the specific language and version", which the loader tests
    by [path.includes('/v3/')].  A service directory that is itself
    called [v3] passes the test with a document that sits under the
    version directory [v2] only, and [getApiOperation] returns the
    operation of that document. *)
Theorem operation_outside_v3_returned :
  match_spec_path "/src/content/docs/en/apispecs/v3/v2/catalog.yaml"
    = Some ("v3", "v2", "catalog.yaml")
  /\ map filePath
       (match versionedModules service_named_v3 with
        | Ok modules => modules
        | Throw _ => []
        end)
     = ["/src/content/docs/en/apispecs/v3/v2/catalog.yaml"]
  /\ option_map (fun op => (operationId op, method op, path op))
       (fst (@getApiOperation Reference.plain_runtime service_named_v3 None
               "v3" "listItems" "en"))
     = Some (JStr "listItems", "GET", "/items").
Proof. repeat split; vm_compute; reflexivity. Qed.

(** C1 on [payment_v3]: the first call loads the spec; a second call for
    the same language and version inside the five minutes is answered from
    the cache, in any world, and answers with the empty list: the hit path
    keeps the specs whose declared version starts with the requested
    directory name, and ["1.0.0"] does not start with ["v3"]. *)
Theorem cache_hit_loses_loaded_specs (RT : Runtime) :
  let first := loadAllApiSpecs (payment_v3 0) None "en" "v3" in
  map (fun s => (id s, version s)) (fst first)
    = [("payment-api", JStr "1.0.0")]
  /\ (forall w,
        0 <= Date_now w < CACHE_DURATION ->
        loadAllApiSpecs w (snd first) "en" "v3" = ([], snd first)).
Proof.
  intros first. split; [reflexivity|].
  intros w [Hlo Hhi]. remember (snd first) as stored eqn:Hstored.
  vm_compute in Hstored. subst stored. unfold loadAllApiSpecs.
  cbn [lastUpdated specs]. rewrite Z.sub_0_r.
  destruct (Z.ltb_spec (Date_now w) CACHE_DURATION) as [_|Hge]; [|lia].
  reflexivity.
Qed.

(** C2 on [duplicate_files]: both documents of the service directory are
    returned, under the same [id]. *)
Theorem duplicate_service_files_both_returned (RT : Runtime) :
  map (fun s => (id s, fileName s, title s))
      (fst (loadAllApiSpecs duplicate_files None "en" "v2"))
  = [("payment-api", "payment.yaml", JStr "Payment API");
     ("payment-api", "duplicate.yaml", JStr "Payment API copy")].
Proof. reflexivity. Qed.

(** C3 on [flat_only]: with no versioned file the call returns the empty
    list and stores it; the legacy loader, which would have given the flat
    file with version ["1.0.0"], is reached only when the versioned glob
    import raises, and then stores nothing. *)
Theorem empty_scan_does_not_fall_back (RT : Runtime) :
  loadAllApiSpecs (flat_only (Ok [])) None "en" "v3"
    = ([], Some {| specs := []; lastUpdated := 0 |})
  /\ map (fun s => (id s, version s))
         (loadLegacyApiSpecs (flat_only (Ok [])) "en")
     = [("legacy-api", JStr "1.0.0")]
  /\ loadAllApiSpecs (flat_only (Throw TypeError)) None "en" "v3"
     = (loadLegacyApiSpecs (flat_only (Throw TypeError)) "en", None).
Proof. repeat split. Qed.

End DynamicOpenapiFacts.

(** ** Shape of the synthesized names *)

Module NameShapeFacts.
Import Js JsFacts DynamicOpenapi Sanitize NameShape OperationIdFacts.

Lemma replace_runs_id_chars s :
  forall in_run, forallb is_id_char (replace_runs in_run s) = true.
Proof.
  induction s as [|ch r IH]; intros in_run; [reflexivity|].
  simpl. destruct (is_alnum ch) eqn:Ha.
  - simpl. unfold is_id_char at 1. rewrite Ha. simpl. apply IH.
  - destruct in_run; [apply IH|]. simpl. apply IH.
Qed.

Lemma strip_leading_suffix s :
  exists pre, s = (pre ++ strip_leading s)%list.
Proof.
  induction s as [|ch r [pre IH]]; [exists []; reflexivity|].
  simpl. destruct (is_underscore ch).
  - exists (ch :: pre). simpl. now rewrite <- IH.
  - exists []. reflexivity.
Qed.

Lemma strip_leading_starts_clean s : starts_clean (strip_leading s).
Proof.
  induction s as [|ch r IH]; [exact I|].
  simpl. destruct (is_underscore ch) eqn:Hu; [exact IH | exact Hu].
Qed.

Lemma strip_trailing_prefix s :
  exists post, s = (strip_trailing s ++ post)%list.
Proof.
  unfold strip_trailing.
  destruct (strip_leading_suffix (List.rev s)) as [pre Hpre].
  exists (List.rev pre).
  rewrite <- rev_app_distr, <- Hpre, rev_involutive. reflexivity.
Qed.

Lemma no_double_app_r a b : no_double (a ++ b) = true -> no_double b = true.
Proof.
  induction a as [|ch a IH]; [auto|].
  intros Hnd. apply IH. exact (no_double_tail _ _ Hnd).
Qed.

Lemma no_double_app_l a b : no_double (a ++ b) = true -> no_double a = true.
Proof.
  induction a as [|ch a IH]; [reflexivity|].
  intros Hnd. pose proof (no_double_tail _ _ Hnd) as Htail.
  destruct a as [|ch' a]; [reflexivity|].
  simpl in Hnd. apply andb_true_iff in Hnd as [Hpair _].
  change (negb (is_underscore ch && is_underscore ch')
          && no_double (ch' :: a) = true).
  rewrite Hpair. simpl. apply IH. exact Htail.
Qed.

Lemma forallb_app_parts {A} (p : A -> bool) a b :
  forallb p (a ++ b) = true -> forallb p a = true /\ forallb p b = true.
Proof. rewrite forallb_app. apply andb_true_iff. Qed.

Lemma starts_clean_prefix a b :
  a <> [] -> starts_clean (a ++ b) -> starts_clean a.
Proof. destruct a; [contradiction | auto]. Qed.

Lemma sanitized_clean s :
  clean (strip_trailing (strip_leading (replace_runs false s))).
Proof.
  set (runs := replace_runs false s).
  destruct (strip_leading_suffix runs) as [pre Hpre].
  destruct (strip_trailing_prefix (strip_leading runs)) as [post Hpost].
  assert (Hchars : forallb is_id_char (strip_leading runs) = true).
  { pose proof (replace_runs_id_chars s false) as Hall. fold runs in Hall.
    rewrite Hpre in Hall. apply forallb_app_parts in Hall. apply Hall. }
  assert (Hnd : no_double (strip_leading runs) = true).
  { destruct (replace_runs_no_double s false) as [Hall _]. fold runs in Hall.
    rewrite Hpre in Hall. eapply no_double_app_r, Hall. }
  repeat split.
  - rewrite Hpost in Hchars. apply forallb_app_parts in Hchars. apply Hchars.
  - rewrite Hpost in Hnd. eapply no_double_app_l, Hnd.
  - destruct (strip_trailing (strip_leading runs)) as [|c t] eqn:Hst;
      [exact I|].
    pose proof (strip_leading_starts_clean runs) as Hstart.
    rewrite Hpost in Hstart. exact Hstart.
  - unfold strip_trailing. rewrite rev_involutive.
    apply strip_leading_starts_clean.
Qed.

Lemma cleanPath_chars path :
  clean (list_ascii_of_string (cleanPath path)).
Proof.
  rewrite cleanPath_sanitize. unfold sanitize. rewrite chars_of_string.
  apply sanitized_clean.
Qed.

Lemma id_char_not_brace c : is_id_char c = true -> is_brace c = false.
Proof.
  intros Hid. destruct (is_brace c) eqn:Hb; [|reflexivity].
  unfold is_brace in Hb. apply orb_true_iff in Hb as [Hb|Hb];
    apply Ascii.eqb_eq in Hb; subst c; discriminate.
Qed.

Lemma clean_drop_braces s :
  forallb is_id_char s = true -> drop_braces s = s.
Proof.
  induction s as [|c s IH]; [reflexivity|]. simpl.
  intros Hall. apply andb_true_iff in Hall as [Hc Hs].
  rewrite (id_char_not_brace _ Hc). simpl. now rewrite IH.
Qed.

Lemma clean_mask s :
  forallb is_id_char s = true -> mask_non_alnum s = s.
Proof.
  induction s as [|c s IH]; [reflexivity|]. simpl.
  intros Hall. apply andb_true_iff in Hall as [Hc Hs]. rewrite (IH Hs).
  destruct (is_alnum c) eqn:Ha; [reflexivity|].
  unfold is_id_char in Hc. rewrite Ha in Hc. simpl in Hc.
  now rewrite (is_underscore_eq _ Hc).
Qed.

Lemma clean_squeeze s : no_double s = true -> squeeze_underscores s = s.
Proof.
  induction s as [|c s IH]; [reflexivity|].
  intros Hnd. pose proof (no_double_tail _ _ Hnd) as Htail.
  destruct s as [|c' s].
  - simpl. destruct (is_underscore c); reflexivity.
  - change (squeeze_underscores (c :: c' :: s))
      with (if is_underscore c
            then if is_underscore c' then squeeze_underscores (c' :: s)
                 else c :: squeeze_underscores (c' :: s)
            else c :: squeeze_underscores (c' :: s)).
    apply (no_double_inside [] c c' s) in Hnd. rewrite (IH Htail).
    destruct (is_underscore c); [|reflexivity].
    simpl in Hnd. rewrite Hnd. reflexivity.
Qed.

Lemma clean_trim s :
  starts_clean s -> starts_clean (List.rev s) -> trim_edge_underscores s = s.
Proof.
  intros Hhead Hlast. destruct s as [|c s]; [reflexivity|].
  simpl in Hhead. unfold trim_edge_underscores. rewrite Hhead.
  unfold drop_final_underscore.
  destruct (List.rev (c :: s)) as [|a rest]; [reflexivity|].
  simpl in Hlast. rewrite Hlast. reflexivity.
Qed.

(** X1. The path part of a synthesized operation id is made of letters,
    digits and underscores only, never has two underscores in a row and
    neither starts nor ends with one. *)
Theorem clean_path_is_an_identifier path :
  let s := list_ascii_of_string (cleanPath path) in
  forallb is_id_char s = true
  /\ no_double s = true
  /\ starts_clean s
  /\ starts_clean (List.rev s).
Proof. apply cleanPath_chars. Qed.

(** X2. Cleaning a path twice is cleaning it once: an id built from an
    already clean path keeps it as it is. *)
Theorem clean_path_idempotent path :
  cleanPath (cleanPath path) = cleanPath path
  /\ forall method,
       generateOperationId method (cleanPath path)
       = generateOperationId method path.
Proof.
  assert (Hid : cleanPath (cleanPath path) = cleanPath path).
  { destruct (cleanPath_chars path) as (Hchars & Hnd & Hhead & Hlast).
    unfold cleanPath at 1.
    rewrite (clean_drop_braces _ Hchars), (clean_mask _ Hchars),
      (clean_squeeze _ Hnd), (clean_trim _ Hhead Hlast).
    apply string_of_chars. }
  split; [exact Hid|].
  intros method. unfold generateOperationId. now rewrite Hid.
Qed.

Lemma split_chars_segments_free sep s :
  Forall (fun w => forallb (fun x => negb (Ascii.eqb x sep)) w = true)
         (split_chars sep s).
Proof.
  induction s as [|c s IH]; simpl; [repeat constructor|].
  destruct (Ascii.eqb c sep) eqn:Hc; [constructor; [reflexivity | exact IH]|].
  destruct (split_chars sep s) as [|seg segs];
    [repeat constructor; simpl; now rewrite Hc|].
  inversion IH as [|? ? Hseg Hsegs]; subst.
  constructor; [|exact Hsegs]. simpl. now rewrite Hc, Hseg.
Qed.

Lemma upper_char_hyphen c :
  negb (Ascii.eqb c "-") = true -> negb (Ascii.eqb (upper_char c) "-") = true.
Proof.
  destruct c as [[] [] [] [] [] [] [] []]; vm_compute; auto.
Qed.

Lemma capitalize_no_hyphen w : no_hyphen w = true -> no_hyphen (capitalize w) = true.
Proof.
  destruct w as [|c w]; [auto|]. unfold no_hyphen. simpl.
  intros Hw. apply andb_true_iff in Hw as [Hc Hw].
  now rewrite (upper_char_hyphen _ Hc), Hw.
Qed.

Lemma join_no_hyphen words :
  Forall (fun w => no_hyphen w = true) words ->
  no_hyphen (join_chars [" "%char] words) = true.
Proof.
  induction 1 as [|w rest Hw Hrest IH]; [reflexivity|].
  destruct rest as [|w' rest]; [exact Hw|].
  change (join_chars [" "%char] (w :: w' :: rest))
    with (w ++ " "%char :: join_chars [" "%char] (w' :: rest))%list.
  unfold no_hyphen in *. rewrite forallb_app, Hw. cbn [forallb].
  rewrite IH. reflexivity.
Qed.

Lemma api_suffix_cases s :
  api_suffix s = s
  \/ exists pre,
       s = (pre ++ ["A"; "p"; "i"]%char)%list
       /\ api_suffix s = (pre ++ ["A"; "P"; "I"]%char)%list.
Proof.
  unfold api_suffix.
  destruct (List.rev s) as [|a rest] eqn:Hrev; [left; reflexivity|].
  destruct a as [[] [] [] [] [] [] [] []]; try (left; reflexivity).
  destruct rest as [|b rest]; [left; reflexivity|].
  destruct b as [[] [] [] [] [] [] [] []]; try (left; reflexivity).
  destruct rest as [|c rest]; [left; reflexivity|].
  destruct c as [[] [] [] [] [] [] [] []]; try (left; reflexivity).
  right. exists (List.rev rest). split; [|reflexivity].
  rewrite <- (rev_involutive s), Hrev. simpl.
  rewrite <- !app_assoc. reflexivity.
Qed.

Lemma api_suffix_no_hyphen s :
  no_hyphen s = true -> no_hyphen (api_suffix s) = true.
Proof.
  intros Hs. destruct (api_suffix_cases s) as [->|(pre & -> & ->)];
    [exact Hs|].
  unfold no_hyphen in *. rewrite forallb_app in *.
  apply andb_true_iff in Hs as [-> _]. reflexivity.
Qed.

Lemma join_chars_last sep words w :
  words <> [] ->
  join_chars sep (words ++ [w]) = (join_chars sep words ++ sep ++ w)%list.
Proof.
  induction words as [|x words IH]; [contradiction|]. intros _.
  destruct words as [|y words]; [reflexivity|].
  change (join_chars sep ((x :: y :: words) ++ [w]))
    with (x ++ sep ++ join_chars sep ((y :: words) ++ [w]))%list.
  rewrite IH by discriminate.
  change (join_chars sep (x :: y :: words))
    with (x ++ sep ++ join_chars sep (y :: words))%list.
  now rewrite <- !app_assoc.
Qed.

Lemma string_of_app a b :
  string_of_list_ascii (a ++ b)
  = string_of_list_ascii a +:+ string_of_list_ascii b.
Proof. induction a as [|c a IH]; simpl; [reflexivity | now rewrite IH]. Qed.

(** X3. A display name never contains a hyphen, and the name of a
    service whose id ends in [-api] ends in [ API]. *)
Theorem service_name_display specId :
  free_of "-" (formatServiceName specId) = true
  /\ exists shown,
       formatServiceName (specId +:+ "-api") = shown +:+ " API".
Proof.
  split.
  - unfold free_of, formatServiceName. rewrite chars_of_string.
    apply api_suffix_no_hyphen, join_no_hyphen, Forall_map.
    eapply List.Forall_impl; [|apply (split_chars_segments_free "-")].
    intros w Hw. apply capitalize_no_hyphen, Hw.
  - unfold formatServiceName.
    set (words := map capitalize
                    (split_chars "-" (list_ascii_of_string specId))).
    assert (Hwords :
      map capitalize
        (split_chars "-" (list_ascii_of_string (specId +:+ "-api")))
      = (words ++ [["A"; "p"; "i"]%char])%list).
    { rewrite chars_app.
      change (list_ascii_of_string "-api")
        with ("-"%char :: ["a"; "p"; "i"]%char).
      rewrite split_chars_app, map_app. reflexivity. }
    assert (Hne : words <> []).
    { unfold words. intros Hnil. apply map_eq_nil in Hnil.
      exact (split_chars_nonempty _ _ Hnil). }
    rewrite Hwords, (join_chars_last _ _ _ Hne).
    exists (string_of_list_ascii (join_chars [" "%char] words)).
    rewrite <- (string_of_app _ [" "; "A"; "P"; "I"]%char). f_equal.
    unfold api_suffix. rewrite !rev_app_distr. simpl.
    rewrite rev_involutive, <- app_assoc. reflexivity.
Qed.

End NameShapeFacts.

(** ** Extraction and loading: what every result satisfies *)

Module LoaderFacts.
Import Js JsFacts DynamicOpenapi Trees Scans Samples OperationIdFacts
  DynamicOpenapiFacts.

Lemma nonempty_append_truthy a b c :
  truthy (JStr (a +:+ b +:+ c)) = true \/ b = "".
Proof.
  destruct b as [|x b]; [right; reflexivity|]. left.
  destruct a; reflexivity.
Qed.

Lemma find_first {A} (p : A -> bool) l x :
  List.find p l = Some x ->
  exists pre post,
    l = (pre ++ x :: post)%list /\ p x = true
    /\ forall y, In y pre -> p y = false.
Proof.
  induction l as [|a l IH]; simpl; [discriminate|].
  destruct (p a) eqn:Hp.
  - intros [= <-]. exists [], l. repeat split; [exact Hp | intros y []].
  - intros Hf. destruct (IH Hf) as (pre & post & -> & Hx & Hpre).
    exists (a :: pre), post. repeat split; [exact Hx|].
    intros y [<-|Hy]; [exact Hp | apply Hpre, Hy].
Qed.

Section WithRuntime.
Context `{Runtime}.

Lemma operation_of_truthy spec pathItem path m op :
  In m methods ->
  operation_of spec pathItem path m = Ok (Some op) ->
  In (method op) METHODS
  /\ truthy (operationId op) = true
  /\ truthy (summary op) = true
  /\ truthy (tags op) = true.
Proof.
  intros Hm. unfold operation_of.
  destruct (negb (truthy (get pathItem m)) || negb (is_object (get pathItem m)));
    [discriminate|].
  destruct (generateOperationMarkdown (get pathItem m) m path spec);
    simpl; [|discriminate].
  intros [= <-]. simpl. repeat split.
  - unfold methods in Hm. simpl in Hm.
    destruct Hm as [<-|[<-|[<-|[<-|[<-|[<-|[<-|[]]]]]]]]; vm_compute; auto 10.
  - unfold operation_id.
    destruct (truthy (get (get pathItem m) "operationId")) eqn:Ht;
      [exact Ht|].
    unfold generateOperationId.
    destruct (nonempty_append_truthy m "_" (cleanPath path)) as [Hn|Hn];
      [exact Hn | discriminate Hn].
  - destruct (truthy (get (get pathItem m) "summary")) eqn:Ht; [exact Ht|].
    destruct (nonempty_append_truthy (toUpperCase m) " " path) as [Hn|Hn];
      [exact Hn | discriminate Hn].
  - destruct (truthy (get (get pathItem m) "tags")) eqn:Ht;
      [exact Ht | reflexivity].
Qed.

Lemma operations_of_methods_length spec pathItem path ms :
  forall ops,
    operations_of_methods spec pathItem path ms = Ok ops ->
    (List.length ops <= List.length ms)%nat.
Proof.
  induction ms as [|m ms IH]; intros ops; cbn [operations_of_methods].
  - intros [= <-]. reflexivity.
  - destruct (operation_of spec pathItem path m) as [o|e];
      cbn [bind]; [|discriminate].
    destruct (operations_of_methods spec pathItem path ms) as [rest|e];
      cbn [bind]; [|discriminate].
    intros [= <-]. specialize (IH _ eq_refl).
    destruct o; simpl; lia.
Qed.

Lemma collectOperations_length spec paths :
  forall ops,
    collectOperations spec paths = Ok ops ->
    (List.length ops <= 7 * List.length (List.filter readable paths))%nat.
Proof.
  induction paths as [|[path pathItem] paths IH]; intros ops;
    cbn [collectOperations].
  - intros [= <-]. simpl. lia.
  - cbn [List.filter]. unfold readable at 1. cbn [snd].
    destruct (truthy pathItem); cbn [negb orb andb];
      [destruct (is_object pathItem); cbn [negb]|].
    + destruct (operations_of_methods spec pathItem path methods)
        as [here|e] eqn:Hhere; cbn [bind]; [|discriminate].
      destruct (collectOperations spec paths) as [more|e];
        cbn [bind]; [|discriminate].
      intros [= <-]. specialize (IH _ eq_refl).
      apply operations_of_methods_length in Hhere.
      change (List.length methods) with 7%nat in Hhere.
      rewrite length_app. cbn [List.length]. lia.
    + cbn [bind]. destruct (collectOperations spec paths) as [more|e];
        cbn [bind]; [|discriminate].
      intros [= <-]. apply (IH _ eq_refl).
    + cbn [bind]. destruct (collectOperations spec paths) as [more|e];
        cbn [bind]; [|discriminate].
      intros [= <-]. apply (IH _ eq_refl).
Qed.

Lemma versioned_spec_of_origin language f s :
  versioned_spec_of language f = Some s ->
  exists versionDir doc,
    match_spec_path (filePath f) = Some (id s, versionDir, fileName s)
    /\ parsed f = Ok doc /\ truthy doc = true
    /\ truthy (get doc "info") = true
    /\ spec s = doc
    /\ DynamicOpenapi.language s = language
    /\ serviceName s = formatServiceName (id s)
    /\ title s = or_else (get (get doc "info") "title")
                         (JStr (formatServiceName (id s)))
    /\ version s = or_else (get (get doc "info") "version") (JStr versionDir)
    /\ extractOperationsFromSpec doc = Ok (operations s).
Proof.
  unfold versioned_spec_of.
  destruct (match_spec_path (filePath f)) as [[[service versionDir] name]|];
    [|discriminate].
  destruct (parsed f) as [doc|e]; [|discriminate].
  destruct (negb (truthy doc) || negb (truthy (get doc "info"))) eqn:Hbad;
    [discriminate|].
  apply orb_false_iff in Hbad as [Hd Hi].
  apply negb_false_iff in Hd, Hi.
  destruct (extractOperationsFromSpec doc) as [ops|e] eqn:Hops;
    [|discriminate].
  intros [= <-]. exists versionDir, doc. simpl. repeat split; auto.
Qed.

Lemma malformed_skipped language f :
  malformed f -> versioned_spec_of language f = None.
Proof.
  unfold versioned_spec_of.
  intros [Hpath|[[e He]|(doc & Hd & Hbad)]].
  - now rewrite Hpath.
  - rewrite He. destruct (match_spec_path (filePath f)) as [[[? ?] ?]|];
      reflexivity.
  - rewrite Hd. destruct (match_spec_path (filePath f)) as [[[? ?] ?]|];
      [|reflexivity].
    destruct Hbad as [->| ->]; [reflexivity|].
    now rewrite orb_true_r.
Qed.

Lemma legacy_spec_of_origin language f s :
  legacy_spec_of language f = Some s ->
  exists doc,
    parsed f = Ok doc /\ truthy doc = true
    /\ truthy (get doc "info") = true
    /\ spec s = doc
    /\ fileName s = base_name (filePath f)
    /\ id s = strip_yaml_suffix (fileName s)
    /\ DynamicOpenapi.language s = language
    /\ title s = or_else (get (get doc "info") "title") (JStr (id s))
    /\ version s = or_else (get (get doc "info") "version") (JStr "1.0.0").
Proof.
  unfold legacy_spec_of.
  destruct (parsed f) as [doc|e]; [|discriminate].
  destruct (negb (truthy doc) || negb (truthy (get doc "info"))) eqn:Hbad;
    [discriminate|].
  apply orb_false_iff in Hbad as [Hd Hi].
  apply negb_false_iff in Hd, Hi.
  destruct (extractOperationsFromSpec doc) as [ops|e]; [|discriminate].
  intros [= <-]. exists doc. simpl. repeat split; auto.
Qed.

End WithRuntime.

Lemma nonempty_truthy_str' s : s <> "" -> truthy (JStr s) = true.
Proof. apply ExampleGenFacts.nonempty_truthy_str. Qed.

Lemma or_else_truthy v fallback :
  truthy fallback = true -> truthy (or_else v fallback) = true.
Proof.
  intros Hf. unfold or_else. destruct (truthy v) eqn:Hv; assumption.
Qed.

(** X4. Every operation gathered from a document carries one of the
    seven upper-case method names; its id and summary are never empty or
    missing, and its tag list is never missing: a default stands in for
    each, the empty list for the tags. *)
Theorem gathered_operations_are_complete
    (RT : Runtime) (spec : json) (paths : list (string * json))
    (ops : list DynamicApiOperation) :
  collectOperations spec paths = Ok ops ->
  forall op, In op ops ->
    In (method op) METHODS
    /\ truthy (operationId op) = true
    /\ truthy (summary op) = true
    /\ truthy (tags op) = true.
Proof.
  intros Hc op Hin.
  destruct (collectOperations_origin _ _ _ Hc _ Hin)
    as (path & pathItem & m & _ & Hm & Hop).
  exact (operation_of_truthy _ _ _ _ _ Hm Hop).
Qed.

Lemma gathered_operations_are_complete_witness :
  Forall (fun op =>
            In (method op) METHODS
            /\ truthy (operationId op) = true
            /\ truthy (summary op) = true
            /\ truthy (tags op) = true)
         (match @collectOperations Reference.plain_runtime (JObj [])
                  sample_paths with
          | Ok ops => ops
          | Throw _ => []
          end).
Proof.
  apply List.Forall_forall.
  exact (gathered_operations_are_complete Reference.plain_runtime (JObj [])
           sample_paths _ eq_refl).
Defined.

(** X5. A document yields at most seven operations for each path entry
    that is an object, none for the other entries, and none at all when it
    has no [paths]. *)
Theorem operation_count_bounded (RT : Runtime) :
  (forall spec paths ops,
      collectOperations spec paths = Ok ops ->
      (List.length ops <= 7 * List.length (List.filter readable paths))%nat)
  /\ (forall spec,
        truthy (get spec "paths") = false ->
        extractOperationsFromSpec spec = Ok []).
Proof.
  split.
  - apply collectOperations_length.
  - intros spec Hp. unfold extractOperationsFromSpec. now rewrite Hp.
Qed.

Lemma match_spec_path_nonempty filePath service versionDir name :
  match_spec_path filePath = Some (service, versionDir, name) ->
  service <> "" /\ versionDir <> "" /\ name <> "".
Proof.
  unfold match_spec_path.
  destruct (List.rev (split "/" filePath)) as [|n [|v [|sv [|m [|x rest]]]]];
    try discriminate.
  destruct (String.eqb m "apispecs"); [|discriminate]. simpl.
  unfold nonempty.
  destruct (String.eqb_spec sv ""); [discriminate|].
  destruct (String.eqb_spec v ""); [discriminate|].
  destruct (String.eqb_spec n ""); [discriminate|].
  intros [= <- <- <-]. auto.
Qed.

Lemma formatted_nonempty specId :
  specId <> "" -> formatServiceName specId <> "".
Proof.
  intros Hne. unfold formatServiceName.
  assert (Hjoin : join_chars [" "%char]
                    (map capitalize
                       (split_chars "-" (list_ascii_of_string specId))) <> []).
  { destruct specId as [|c rest]; [contradiction|].
    cbn [list_ascii_of_string split_chars].
    pose proof (split_chars_nonempty "-" (list_ascii_of_string rest)) as Hs.
    destruct (Ascii.eqb c "-").
    - destruct (split_chars "-" (list_ascii_of_string rest)) as [|w ws];
        [contradiction | discriminate].
    - destruct (split_chars "-" (list_ascii_of_string rest)) as [|w ws];
        [contradiction|].
      destruct ws; discriminate. }
  destruct (NameShapeFacts.api_suffix_cases
              (join_chars [" "%char]
                 (map capitalize
                    (split_chars "-" (list_ascii_of_string specId)))))
    as [->|(pre & _ & ->)].
  - destruct (join_chars _ _); [contradiction | discriminate].
  - destruct pre; discriminate.
Qed.

(** X6. A call that finds no fresh entry, and whose glob import
    succeeds, answers from the files alone: its result and the entry it
    stores, stamped with the time of the call, are those of a call on an
    empty cache.  Each spec returned was parsed
    from a module whose path names the language and the version and ends
    in [/apispecs/<id>/<dir>/<file>]; it carries the requested language, a
    non-empty id, and a title and version that are never missing. *)
Theorem scan_results_come_from_files
    (RT : Runtime) (w : World) (cache : option ApiSpecCache)
    (language version : string) (modules : list YamlModule) :
  versionedModules w = Ok modules ->
  fresh w cache = false ->
  let result := loadAllApiSpecs w cache language version in
  result = loadAllApiSpecs w clearApiSpecCache language version
  /\ snd result = Some {| specs := fst result; lastUpdated := Date_now w |}
  /\ forall s, In s (fst result) ->
       exists f versionDir,
         In f modules
         /\ includes (filePath f) ("/docs/" +:+ language +:+ "/apispecs/") = true
         /\ includes (filePath f) ("/" +:+ version +:+ "/") = true
         /\ match_spec_path (filePath f) = Some (id s, versionDir, fileName s)
         /\ parsed f = Ok (spec s)
         /\ truthy (get (spec s) "info") = true
         /\ DynamicOpenapi.language s = language
         /\ id s <> ""
         /\ truthy (title s) = true
         /\ truthy (DynamicOpenapi.version s) = true.
Proof.
  intros Hm Hmiss result. unfold result.
  rewrite (load_on_miss _ _ _ _ Hmiss).
  unfold loadAllApiSpecs, clearApiSpecCache, reload. rewrite Hm. cbn [fst snd].
  split; [reflexivity|]. split; [reflexivity|].
  intros s Hin. unfold pushes in Hin.
  apply list_elem_of_In, list_elem_of_omap in Hin as (f & Hf & Hspec).
  apply list_elem_of_In, filter_In in Hf as [Hf Hinc].
  apply andb_true_iff in Hinc as [Hlang Hver].
  destruct (versioned_spec_of_origin _ _ _ Hspec)
    as (versionDir & doc & Hpath & Hdoc & _ & Hinfo & Hs & Hl & _ & Ht & Hv & _).
  destruct (match_spec_path_nonempty _ _ _ _ Hpath) as (Hid & Hdir & _).
  exists f, versionDir. rewrite Hs. repeat split; auto.
  - rewrite Ht. apply or_else_truthy, nonempty_truthy_str'.
    apply formatted_nonempty, Hid.
  - rewrite Hv. apply or_else_truthy, nonempty_truthy_str'. exact Hdir.
Qed.

Lemma scan_results_come_from_files_witness :
  let result := @loadAllApiSpecs Reference.plain_runtime duplicate_files None
                  "en" "v2" in
  result = @loadAllApiSpecs Reference.plain_runtime duplicate_files
             clearApiSpecCache "en" "v2"
  /\ snd result = Some {| specs := fst result; lastUpdated := 0 |}.
Proof.
  pose proof (scan_results_come_from_files Reference.plain_runtime
                duplicate_files None "en" "v2" _ eq_refl eq_refl) as Hw.
  cbv zeta in Hw. destruct Hw as (Hsame & Hstored & _).
  split; [exact Hsame | exact Hstored].
Defined.

(** X7. A module that cannot be used, whether its path is not of the
    grammar, its text is not YAML, or its document has no [info], is
    passed over: the scan gives what it gives without that module, result
    and stored entry alike. *)
Theorem malformed_modules_are_skipped
    (RT : Runtime) (w : World) (cache : option ApiSpecCache)
    (language version : string) (before : list YamlModule)
    (bad : YamlModule) (after : list YamlModule) :
  malformed bad ->
  fresh w cache = false ->
  loadAllApiSpecs (with_modules w (before ++ bad :: after)) cache
    language version
  = loadAllApiSpecs (with_modules w (before ++ after)) cache language version.
Proof.
  intros Hbad Hmiss.
  rewrite !load_on_miss by exact Hmiss.
  unfold reload, with_modules. cbn [versionedModules Date_now].
  assert (Hsame :
    forall p,
      pushes (versioned_spec_of language)
        (List.filter p (before ++ bad :: after))
      = pushes (versioned_spec_of language) (List.filter p (before ++ after))).
  { intros p. unfold pushes. rewrite !List.filter_app. cbn [List.filter].
    rewrite !omap_app. f_equal.
    destruct (p bad); [|reflexivity].
    cbn [omap list_omap]. now rewrite (malformed_skipped _ _ Hbad). }
  now rewrite Hsame.
Qed.

Lemma malformed_modules_are_skipped_witness :
  map fileName
    (fst (@loadAllApiSpecs Reference.plain_runtime
            (with_modules duplicate_files
               (firstn 1 (match versionedModules duplicate_files with
                          | Ok l => l | Throw _ => [] end)
                ++ broken_module
                   :: skipn 1 (match versionedModules duplicate_files with
                               | Ok l => l | Throw _ => [] end)))
            None "en" "v2"))
  = ["payment.yaml"; "duplicate.yaml"].
Proof.
  rewrite (malformed_modules_are_skipped Reference.plain_runtime
             duplicate_files None "en" "v2").
  - reflexivity.
  - right. left. exists TypeError. reflexivity.
  - reflexivity.
Defined.

(** X8. A call that finds a fresh entry reads no module: it leaves the
    entry as it is, returns only specs of that entry, all of the requested
    language, and returns the same in every world in which the entry is
    fresh. *)
Theorem cache_hit_serves_cached_specs
    (RT : Runtime) (w : World) (c : ApiSpecCache)
    (language version : string) :
  fresh w (Some c) = true ->
  snd (loadAllApiSpecs w (Some c) language version) = Some c
  /\ (forall s, In s (fst (loadAllApiSpecs w (Some c) language version)) ->
        In s (specs c) /\ DynamicOpenapi.language s = language)
  /\ (forall w',
        fresh w' (Some c) = true ->
        loadAllApiSpecs w' (Some c) language version
        = loadAllApiSpecs w (Some c) language version).
Proof.
  intros Hfresh. unfold fresh in Hfresh. unfold loadAllApiSpecs.
  rewrite Hfresh.
  destruct (cached_for language version (specs c)) as [hit|e] eqn:Hhit;
    cbn [fst snd].
  - split; [reflexivity|]. split.
    + intros s Hin.
      destruct (cached_for_kept _ _ _ _ Hhit _ Hin) as (Hc & Hl & _). auto.
    + intros w' Hfresh'. unfold fresh in Hfresh'. now rewrite Hfresh'.
  - split; [reflexivity|]. split; [intros s []|].
    intros w' Hfresh'. unfold fresh in Hfresh'. now rewrite Hfresh'.
Qed.

Lemma cache_hit_serves_cached_specs_witness :
  snd (@loadAllApiSpecs Reference.plain_runtime (payment_v3 1000)
         (Some {| specs := []; lastUpdated := 0 |}) "en" "v3")
  = Some {| specs := []; lastUpdated := 0 |}.
Proof.
  exact (proj1 (cache_hit_serves_cached_specs Reference.plain_runtime
                  (payment_v3 1000) {| specs := []; lastUpdated := 0 |}
                  "en" "v3" eq_refl)).
Defined.

(** X9. The legacy loader returns nothing when its glob import raises;
    otherwise each spec it returns was parsed from a flat-layout module of
    the language, is named after the file without its [.yaml] or [.yml]
    suffix, and takes its version from [info.version], or ["1.0.0"] when
    the document declares none. *)
Theorem legacy_specs_come_from_flat_files
    (RT : Runtime) (w : World) (language : string) :
  (forall e, legacyModules w = Throw e -> loadLegacyApiSpecs w language = [])
  /\ (forall modules s,
        legacyModules w = Ok modules ->
        In s (loadLegacyApiSpecs w language) ->
        exists f,
          In f modules
          /\ includes (filePath f) ("/docs/" +:+ language +:+ "/apispecs/")
             = true
          /\ parsed f = Ok (spec s)
          /\ fileName s = base_name (filePath f)
          /\ id s = strip_yaml_suffix (fileName s)
          /\ DynamicOpenapi.language s = language
          /\ version s
             = or_else (get (get (spec s) "info") "version") (JStr "1.0.0")
          /\ truthy (version s) = true).
Proof.
  split.
  - intros e He. unfold loadLegacyApiSpecs. now rewrite He.
  - intros modules s Hm Hin. unfold loadLegacyApiSpecs in Hin.
    rewrite Hm in Hin. unfold pushes in Hin.
    apply list_elem_of_In, list_elem_of_omap in Hin as (f & Hf & Hspec).
    apply list_elem_of_In, filter_In in Hf as [Hf Hinc].
    destruct (legacy_spec_of_origin _ _ _ Hspec)
      as (doc & Hdoc & _ & _ & Hs & Hname & Hid & Hl & _ & Hv).
    exists f. rewrite Hs. repeat split; auto.
    rewrite Hv. apply or_else_truthy. reflexivity.
Qed.

(** X10. Lookups return the first match.  [getApiSpecById] returns the
    earliest loaded spec with the id, and nothing exactly when no loaded
    spec has it; [getApiOperation] returns an operation of the spec found
    for ["v3"] whose id is the string asked for, so that an operation whose
    document gives it an id that is not a string is never found. *)
Theorem lookups_return_first_match
    (RT : Runtime) (w : World) (cache : option ApiSpecCache)
    (specId opId language version : string) :
  let loaded := fst (loadAllApiSpecs w cache language version) in
  (forall s,
      fst (getApiSpecById w cache specId language version) = Some s ->
      id s = specId
      /\ exists earlier later,
           loaded = (earlier ++ s :: later)%list
           /\ forall x, In x earlier -> id x <> specId)
  /\ (fst (getApiSpecById w cache specId language version) = None
      <-> forall x, In x loaded -> id x <> specId)
  /\ (forall op,
        fst (getApiOperation w cache specId opId language) = Some op ->
        operationId op = JStr opId
        /\ exists s,
             fst (getApiSpecById w cache specId language "v3") = Some s
             /\ In op (operations s)).
Proof.
  intros loaded. unfold loaded, getApiOperation, getApiSpecById.
  split; [|split].
  - destruct (loadAllApiSpecs w cache language version) as [found c'].
    cbn [fst]. intros s Hfind.
    destruct (find_first _ _ _ Hfind) as (pre & post & Hl & Hs & Hpre).
    apply String.eqb_eq in Hs. split; [exact Hs|].
    exists pre, post. split; [exact Hl|].
    intros x Hx. apply String.eqb_neq, Hpre, Hx.
  - destruct (loadAllApiSpecs w cache language version) as [found c'].
    cbn [fst]. split.
    + intros Hnone x Hx. apply String.eqb_neq.
      exact (find_none _ _ Hnone x Hx).
    + intros Hall.
      destruct (List.find (fun s => String.eqb (id s) specId) found)
        as [s|] eqn:Hfind; [|reflexivity].
      apply find_some in Hfind as [Hin Hs]. apply String.eqb_eq in Hs.
      exfalso. exact (Hall _ Hin Hs).
  - destruct (loadAllApiSpecs w cache language "v3") as [found c'].
    cbn [fst].
    destruct (List.find (fun s => String.eqb (id s) specId) found)
      as [s|]; [|discriminate].
    intros op Hop. apply find_some in Hop as [Hin Hid].
    apply ExampleGenFacts.str_eq_true in Hid. split; [exact Hid|].
    exists s. auto.
Qed.

End LoaderFacts.

(** ** The header view *)

Module HeaderFacts.
Import Js JsFacts DynamicOpenapi Header Trees Scans Samples.

Lemma header_operations_length before after ops :
  forall listed,
    header_operations before after ops = Ok listed ->
    List.length listed = List.length ops.
Proof.
  induction ops as [|op ops IH]; intros listed; simpl.
  - now intros [= <-].
  - destruct (to_string (DynamicOpenapi.operationId op)); simpl;
      [|discriminate].
    destruct (header_operations before after ops) as [more|e]; simpl;
      [|discriminate].
    intros [= <-]. simpl. now rewrite (IH _ eq_refl).
Qed.

Lemma legacy_entries_capped language specs :
  forall entries,
    legacy_entries language specs = Ok entries ->
    forall h, In h entries -> (List.length (operations h) <= 8)%nat.
Proof.
  induction specs as [|s specs IH]; intros entries; simpl.
  - intros [= <-] h [].
  - destruct (header_operations _ _ (firstn 8 (DynamicOpenapi.operations s)))
      as [listed|e] eqn:Hl; simpl; [|discriminate].
    destruct (legacy_entries language specs) as [more|e]; simpl;
      [|discriminate].
    intros [= <-] h [<-|Hin]; [|exact (IH _ eq_refl _ Hin)].
    simpl. rewrite (header_operations_length _ _ _ _ Hl), length_firstn. lia.
Qed.

Section WithRuntime.
Context `{Runtime}.

Lemma header_spec_of_fields language version service f h :
  header_spec_of language version service f = Some h ->
  id h = service /\ (List.length (operations h) <= 8)%nat.
Proof.
  unfold header_spec_of.
  destruct (parsed f) as [doc|e]; [|discriminate].
  destruct (negb (truthy doc) || negb (truthy (get doc "info")));
    [discriminate|].
  destruct (extractOperationsFromSpec doc) as [ops|e]; [|discriminate].
  destruct (header_operations _ _ (firstn 8 ops)) as [listed|e] eqn:Hl;
    [|discriminate].
  intros [= <-]. simpl. split; [reflexivity|].
  rewrite (header_operations_length _ _ _ _ Hl), length_firstn. lia.
Qed.

(** What the loop lists, for any set of services already processed: the
    entries built from the first file of each service not yet processed. *)
Lemma scanHeader_spec language version files :
  forall (processed : gset string) h,
    In h (scanHeader language version files processed) <->
    exists before f after,
      files = (before ++ f :: after)%list
      /\ service_of f = Some (id h)
      /\ (id h ∉ processed)
      /\ (forall g, In g before -> service_of g <> Some (id h))
      /\ header_spec_of language version (id h) f = Some h.
Proof.
  induction files as [|file rest IH]; intros processed h.
  - simpl. split; [intros [] | intros (b & f & a & Hnil & _)].
    destruct b; discriminate.
  - cbn [scanHeader].
    assert (Hskip :
      (service_of file <> Some (id h)) ->
      forall processed',
        ((id h ∉ processed') <-> (id h ∉ processed)) ->
        (In h (scanHeader language version rest processed') <->
         exists before f after,
           file :: rest = (before ++ f :: after)%list
           /\ service_of f = Some (id h)
           /\ (id h ∉ processed)
           /\ (forall g, In g before -> service_of g <> Some (id h))
           /\ header_spec_of language version (id h) f = Some h)).
    { intros Hother processed' Hsame. rewrite IH. split.
      - intros (b & f & a & -> & Hs & Hp & Hb & Hh).
        exists (file :: b), f, a. repeat split; auto.
        + apply Hsame, Hp.
        + intros g [<-|Hg]; [exact Hother | apply Hb, Hg].
      - intros (b & f & a & Heq & Hs & Hp & Hb & Hh).
        destruct b as [|x b].
        + injection Heq as <- <-. contradiction.
        + injection Heq as <- ->. exists b, f, a. repeat split; auto.
          * apply Hsame, Hp.
          * intros g Hg. apply Hb. right. exact Hg. }
    unfold service_of in Hskip at 1.
    destruct (match_spec_path (filePath file)) as [[[service vd] name]|]
      eqn:Hmatch.
    + destruct (decide (service ∈ processed)) as [Hdone|Hnew].
      * destruct (decide (service = id h)) as [->|Hne].
        -- split.
           ++ intros Hin. apply IH in Hin as (b & f & a & _ & _ & Hp & _).
              contradiction.
           ++ intros (b & f & a & _ & _ & Hp & _). contradiction.
        -- apply Hskip; [congruence | reflexivity].
      * destruct (decide (service = id h)) as [->|Hne].
        -- assert (Hgone :
             ~ In h (scanHeader language version rest
                       ({[id h]} ∪ processed))).
           { intros Hin. apply IH in Hin as (b & f & a & _ & _ & Hp & _).
             apply Hp. set_solver. }
           split.
           ++ intros Hin.
              destruct (header_spec_of language version (id h) file)
                as [h0|] eqn:Hh0; [|contradiction].
              destruct Hin as [->|Hin]; [|contradiction].
              exists [], file, rest.
              split; [reflexivity|]. split; [unfold service_of; now rewrite Hmatch|].
              split; [exact Hnew|]. split; [intros g []|exact Hh0].
           ++ intros (b & f & a & Heq & Hs & Hp & Hb & Hh).
              destruct b as [|x b].
              ** injection Heq as <- <-. rewrite Hh. left. reflexivity.
              ** injection Heq as <- ->. exfalso.
                 apply (Hb file); [left; reflexivity|].
                 unfold service_of. now rewrite Hmatch.
        -- assert (Hsame : (id h ∉ {[service]} ∪ processed) <-> (id h ∉ processed))
             by set_solver.
           destruct (header_spec_of language version service file)
             as [h0|] eqn:Hh0.
           ++ destruct (header_spec_of_fields _ _ _ _ _ Hh0) as [Hid _].
              rewrite <- (Hskip ltac:(congruence) _ Hsame). split.
              ** intros [->|Hin]; [congruence | exact Hin].
              ** intros Hin. right. exact Hin.
           ++ apply Hskip; [congruence | exact Hsame].
    + apply Hskip; [discriminate | reflexivity].
Qed.

Lemma scanHeader_distinct language version files :
  forall processed : gset string,
    List.NoDup (map id (scanHeader language version files processed)).
Proof.
  induction files as [|file rest IH]; intros processed; cbn [scanHeader];
    [constructor|].
  destruct (match_spec_path (filePath file)) as [[[service vd] name]|];
    [|apply IH].
  destruct (decide (service ∈ processed)); [apply IH|].
  destruct (header_spec_of language version service file) as [h|] eqn:Hh;
    [|apply IH].
  destruct (header_spec_of_fields _ _ _ _ _ Hh) as [Hid _].
  cbn [map]. constructor; [|apply IH].
  intros Hin. apply in_map_iff in Hin as (h' & Hid' & Hin).
  apply scanHeader_spec in Hin as (_ & _ & _ & _ & _ & Hp & _).
  apply Hp. rewrite Hid', Hid. set_solver.
Qed.

Lemma legacy_header_capped w language h :
  In h (getApiSpecsForHeaderLegacy w language) ->
  (List.length (operations h) <= 8)%nat.
Proof.
  unfold getApiSpecsForHeaderLegacy.
  destruct (legacy_entries language (loadLegacyApiSpecs w language))
    as [entries|e] eqn:He; [|intros []].
  exact (legacy_entries_capped _ _ _ He h).
Qed.

End WithRuntime.

(** X11. Whatever the branch, an entry of the header view lists at most
    eight operations. *)
Theorem header_operations_capped
    (RT : Runtime) (allModules : result (list YamlModule)) (w : World)
    (language version : string) (h : HeaderSpec) :
  In h (getApiSpecsForHeader allModules w language version) ->
  (List.length (operations h) <= 8)%nat.
Proof.
  unfold getApiSpecsForHeader. destruct allModules as [modules|e]; [|intros []].
  destruct (Nat.eqb _ 0).
  - apply legacy_header_capped.
  - intros Hin. apply scanHeader_spec in Hin as (_ & f & _ & _ & _ & _ & _ & Hh).
    exact (proj2 (header_spec_of_fields _ _ _ _ _ Hh)).
Qed.

Lemma header_operations_capped_witness :
  Forall (fun h => (List.length (operations h) <= 8)%nat)
    (@getApiSpecsForHeader Reference.plain_runtime (Ok ten_operations)
       (payment_v3 0) "en" "v3").
Proof.
  apply List.Forall_forall. intros h.
  exact (header_operations_capped Reference.plain_runtime (Ok ten_operations)
           (payment_v3 0) "en" "v3" h).
Defined.

(** X12. When the recursive scan finds a usable file, the header view is
    what the scan lists and no service appears twice in it; when it finds
    none, the view is the legacy one; when the glob import raises, it is
    empty. *)
Theorem header_lists_each_service_once
    (RT : Runtime) (allModules : result (list YamlModule)) (w : World)
    (language version : string) :
  (forall modules,
      allModules = Ok modules ->
      let scanned :=
        scanHeader language version (header_files language version modules) ∅
      in
      List.NoDup (map id scanned)
      /\ (scanned <> [] ->
          getApiSpecsForHeader allModules w language version = scanned)
      /\ (scanned = [] ->
          getApiSpecsForHeader allModules w language version
          = getApiSpecsForHeaderLegacy w language))
  /\ (forall e,
        allModules = Throw e ->
        getApiSpecsForHeader allModules w language version = []).
Proof.
  split.
  - intros modules -> scanned. split; [apply scanHeader_distinct|].
    unfold getApiSpecsForHeader. fold scanned.
    destruct scanned as [|h rest]; simpl.
    + split; [intros Hne; contradiction | reflexivity].
    + split; [reflexivity | discriminate].
  - intros e ->. reflexivity.
Qed.

(** X13. The first file of a service directory decides for the service:
    an entry of the scan is built from the first matching module of its
    service, and a service whose first module is unusable is not listed,
    whatever modules follow. *)
Theorem first_file_decides_header_entry
    (RT : Runtime) (language version : string) (files : list YamlModule) :
  (forall h,
      In h (scanHeader language version files ∅) ->
      exists before f after,
        files = (before ++ f :: after)%list
        /\ service_of f = Some (id h)
        /\ (forall g, In g before -> service_of g <> Some (id h))
        /\ header_spec_of language version (id h) f = Some h)
  /\ (forall before f after service,
        files = (before ++ f :: after)%list ->
        service_of f = Some service ->
        (forall g, In g before -> service_of g <> Some service) ->
        header_spec_of language version service f = None ->
        ~ In service (map id (scanHeader language version files ∅))).
Proof.
  split.
  - intros h Hin. apply scanHeader_spec in Hin
      as (b & f & a & Hf & Hs & _ & Hb & Hh).
    exists b, f, a. auto.
  - intros before f after service Hfiles Hs Hfirst Hbad Hin.
    apply in_map_iff in Hin as (h & <- & Hin).
    apply scanHeader_spec in Hin as (b & g & a & Hf & Hsg & _ & Hb & Hh).
    rewrite Hfiles in Hf.
    assert (Hsame : before = b /\ f = g).
    { clear -Hf Hs Hfirst Hsg Hb. revert b Hf Hb.
      induction before as [|x before IH]; intros b Hf Hb.
      - destruct b as [|y b].
        + injection Hf as Hfg _. split; [reflexivity | exact Hfg].
        + injection Hf as Hfy _. exfalso.
          apply (Hb y); [left; reflexivity | rewrite <- Hfy; exact Hs].
      - destruct b as [|y b].
        + injection Hf as Hxg _. exfalso.
          apply (Hfirst x); [left; reflexivity | rewrite Hxg; exact Hsg].
        + injection Hf as Hxy Hf'.
          destruct (IH (fun g' Hg' => Hfirst g' (or_intror Hg')) b Hf'
                       (fun g' Hg' => Hb g' (or_intror Hg'))) as [Hb' Hfg].
          split; [congruence | exact Hfg]. }
    destruct Hsame as [_ ->]. rewrite Hbad in Hh. discriminate.
Qed.

End HeaderFacts.

(** ** Paths and queries *)

Module ApiPathsFacts.
Import Js JsFacts ApiPaths.
Import ApiVersions (is_version_name).

Lemma split_elements_free sep s p :
  In p (split sep s) -> free_of sep p = true.
Proof.
  unfold split, free_of. intros Hin.
  apply in_map_iff in Hin as (w & <- & Hw). rewrite chars_of_string.
  pose proof (NameShapeFacts.split_chars_segments_free sep
                (list_ascii_of_string s)) as Hall.
  rewrite List.Forall_forall in Hall. apply Hall, Hw.
Qed.

Lemma parts_elements sep s p :
  In p (parts sep s) -> p <> "" /\ free_of sep p = true.
Proof.
  unfold parts. intros Hin. apply filter_In in Hin as [Hin Hne].
  apply negb_true_iff, String.eqb_neq in Hne.
  split; [exact Hne | exact (split_elements_free _ _ _ Hin)].
Qed.

Lemma params_get_set name value params :
  params_get name (params_set name value params) = Some value.
Proof.
  induction params as [|[n v] rest IH]; simpl.
  - now rewrite String.eqb_refl.
  - destruct (String.eqb n name) eqn:Hn; simpl; now rewrite Hn.
Qed.

Lemma params_set_others name value params :
  List.filter (fun p => negb (String.eqb (fst p) name))
              (params_set name value params)
  = List.filter (fun p => negb (String.eqb (fst p) name)) params.
Proof.
  induction params as [|[n v] rest IH]; simpl.
  - now rewrite String.eqb_refl.
  - destruct (String.eqb n name) eqn:Hn; simpl; rewrite Hn; simpl.
    + clear IH. induction rest as [|[n' v'] rest IH]; simpl; [reflexivity|].
      destruct (String.eqb n' name) eqn:Hn'; simpl; [exact IH|].
      rewrite Hn'. simpl. now rewrite IH.
    + now rewrite IH.
Qed.

Lemma params_set_once name value params :
  List.filter (fun p => String.eqb (fst p) name)
              (params_set name value params)
  = [(name, value)].
Proof.
  induction params as [|[n v] rest IH]; simpl.
  - now rewrite String.eqb_refl.
  - destruct (String.eqb n name) eqn:Hn; simpl; rewrite Hn; simpl.
    + apply String.eqb_eq in Hn. subst n. f_equal. clear IH.
      induction rest as [|[n' v'] rest IHr]; simpl; [reflexivity|].
      destruct (String.eqb n' name) eqn:Hn'; simpl; [exact IHr|].
      rewrite Hn'. exact IHr.
    + exact IH.
Qed.

(** X14. Whatever the pathname and its query, [parseApiPath] reports a
    service and an operation that are never empty and hold no slash, no
    operation without a service, a service exactly when the pathname has
    two non-empty segments, and a language that is never empty. *)
Theorem parsed_api_path_is_well_formed
    (parseQuery : string -> URLSearchParams) (pathname : string) :
  let info := parseApiPath parseQuery pathname in
  (forall s, serviceName info = Some s -> s <> "" /\ free_of "/" s = true)
  /\ (forall o, operationId info = Some o -> o <> "" /\ free_of "/" o = true)
  /\ (operationId info <> None -> serviceName info <> None)
  /\ (serviceName info = None
      <-> (List.length (parts "/" pathname) < 2)%nat)
  /\ language info <> "".
Proof.
  intros info. unfold info, parseApiPath. cbn [serviceName operationId language].
  split; [|split; [|split; [|split]]].
  - intros s Hs. apply nth_error_In in Hs. exact (parts_elements _ _ _ Hs).
  - intros o Ho. apply nth_error_In in Ho. exact (parts_elements _ _ _ Ho).
  - intros Ho Hs. apply Ho. apply nth_error_None in Hs.
    apply nth_error_None. lia.
  - rewrite nth_error_None. lia.
  - destruct (params_get "lang" (parseQuery (query_of pathname))) as [l|];
      [|discriminate].
    destruct (String.eqb_spec l ""); [discriminate | assumption].
Qed.

Lemma free_of_app c a b :
  free_of c (a +:+ b) = free_of c a && free_of c b.
Proof. unfold free_of. now rewrite chars_app, forallb_app. Qed.

Lemma split_two sep a b :
  free_of sep a = true -> free_of sep b = true ->
  split sep (a +:+ String sep "" +:+ b) = [a; b].
Proof.
  unfold free_of, split. intros Ha Hb. rewrite !chars_app. simpl.
  rewrite split_chars_app, (split_chars_free _ _ Ha),
    (split_chars_free _ _ Hb).
  simpl. now rewrite !string_of_chars.
Qed.

Lemma split_chars_keeps (keep : ascii -> bool) sep s :
  forallb keep s = true ->
  Forall (fun w => forallb keep w = true) (split_chars sep s).
Proof.
  induction s as [|c s IH]; simpl; [repeat constructor|].
  intros Hs. apply andb_true_iff in Hs as [Hc Hs]. specialize (IH Hs).
  destruct (Ascii.eqb c sep); [constructor; [reflexivity | exact IH]|].
  destruct (split_chars sep s) as [|seg segs];
    [repeat constructor; simpl; now rewrite Hc|].
  inversion IH as [|? ? Hseg Hsegs]; subst.
  constructor; [|exact Hsegs]. simpl. now rewrite Hc, Hseg.
Qed.

Lemma parts_keep_free c sep s p :
  free_of c s = true -> In p (parts sep s) -> free_of c p = true.
Proof.
  unfold parts, split, free_of. intros Hs Hin.
  apply filter_In in Hin as [Hin _].
  apply in_map_iff in Hin as (w & <- & Hw). rewrite chars_of_string.
  pose proof (split_chars_keeps (fun x => negb (Ascii.eqb x c)) sep
                (list_ascii_of_string s) Hs) as Hall.
  rewrite List.Forall_forall in Hall. apply Hall, Hw.
Qed.

Lemma path_part_free currentPath :
  free_of "?" (hd "" (split "?" currentPath)) = true.
Proof.
  destruct (split "?" currentPath) as [|p rest] eqn:Hsplit; [reflexivity|].
  apply (split_elements_free "?" currentPath). rewrite Hsplit. now left.
Qed.

Lemma version_path_free pathPart :
  free_of "?" pathPart = true -> free_of "?" (version_path pathPart) = true.
Proof.
  intros Hfree. unfold version_path.
  destruct (parts "/" pathPart) as [|first [|service rest]] eqn:Hparts;
    try exact Hfree.
  destruct (String.eqb first "api"); [|exact Hfree].
  assert (Hservice : free_of "?" service = true).
  { apply (parts_keep_free _ "/" pathPart); [exact Hfree|].
    rewrite Hparts. right. now left. }
  destruct rest as [|operation rest].
  - rewrite free_of_app, Hservice. reflexivity.
  - assert (Hoperation : free_of "?" operation = true).
    { apply (parts_keep_free _ "/" pathPart); [exact Hfree|].
      rewrite Hparts. right. right. now left. }
    rewrite !free_of_app, Hservice, Hoperation. reflexivity.
Qed.

(** X15. The version written into a URL by [generateApiVersionPath] is
    the one read back from it.  Where the platform's parser reads the
    parameters written back as they are and its serializer writes no
    question mark, the query of the returned URL parses to parameters
    that hold exactly one [version], the new one, with every other
    parameter of the current URL in its place, and [getCurrentApiVersion]
    on them returns the new version when it is of the form [v<digits>],
    and ["v2"] otherwise. *)
Theorem version_written_is_version_read
    (parseQuery : string -> URLSearchParams)
    (serializeQuery : URLSearchParams -> string)
    (currentPath newVersion pathname : string) :
  let params := version_params parseQuery currentPath newVersion in
  let url :=
    generateApiVersionPath parseQuery serializeQuery currentPath newVersion in
  parseQuery (serializeQuery params) = params ->
  free_of "?" (serializeQuery params) = true ->
  parseQuery (query_of url) = params
  /\ params_get "version" (parseQuery (query_of url)) = Some newVersion
  /\ List.filter (fun p => String.eqb (fst p) "version")
                 (parseQuery (query_of url))
     = [("version", newVersion)]
  /\ List.filter (fun p => negb (String.eqb (fst p) "version"))
                 (parseQuery (query_of url))
     = List.filter (fun p => negb (String.eqb (fst p) "version"))
         (parseQuery (query_of currentPath))
  /\ getCurrentApiVersion pathname (parseQuery (query_of url))
     = (if is_version_name newVersion then newVersion else "v2").
Proof.
  intros params url Hround Hfree.
  assert (Hquery : query_of url = serializeQuery params).
  { unfold url, generateApiVersionPath, query_of. fold params.
    rewrite (split_two "?" _ _
               (version_path_free _ (path_part_free currentPath)) Hfree).
    reflexivity. }
  rewrite Hquery, Hround. unfold params, version_params.
  split; [reflexivity|]. split; [apply params_get_set|].
  split; [apply params_set_once|]. split; [apply params_set_others|].
  unfold getCurrentApiVersion. rewrite params_get_set.
  destruct (is_version_name newVersion) eqn:Hv;
    [|now rewrite andb_false_r].
  destruct newVersion; [discriminate | reflexivity].
Qed.

Lemma version_written_is_version_read_witness :
  getCurrentApiVersion "/api/payment-api/listPayments"
    (plain_parse
       (query_of
          (generateApiVersionPath plain_parse plain_serialize
             "/api/payment-api/listPayments?lang=ar&version=v1" "v3")))
  = "v3".
Proof.
  exact (proj2 (proj2 (proj2 (proj2
    (version_written_is_version_read plain_parse plain_serialize
       "/api/payment-api/listPayments?lang=ar&version=v1" "v3"
       "/api/payment-api/listPayments" eq_refl eq_refl))))).
Defined.

(** X16. [getCurrentApiVersion] never hands on a version it has not
    checked: its result is always of the form [v<digits>]. *)
Theorem current_version_is_always_valid
    (pathname : string) (searchParams : URLSearchParams) :
  is_version_name (getCurrentApiVersion pathname searchParams) = true.
Proof.
  unfold getCurrentApiVersion.
  destruct (params_get "version" searchParams) as [v|]; [|reflexivity].
  destruct (negb (String.eqb v "") && is_version_name v) eqn:Hv;
    [|reflexivity].
  apply andb_true_iff in Hv. apply Hv.
Qed.

End ApiPathsFacts.

(** ** Questions asked of the version listing *)

Module VersionQueriesFacts.
Import Js JsFacts.
Import DynamicOpenapi (World, YamlModule, filePath, parsed, versionedModules).
Import ApiVersions ApiVersionsFacts VersionQueries.

Lemma check_answer w (cache : gmap string (list ApiVersionInfo))
    s wanted l :
  fst (checkApiVersionExists w cache s wanted l)
  = existsb (fun v => String.eqb (version v) wanted && specExists v)
      (fst (getApiVersions w cache s l))
  /\ snd (checkApiVersionExists w cache s wanted l)
     = snd (getApiVersions w cache s l).
Proof.
  unfold checkApiVersionExists.
  now destruct (getApiVersions w cache s l).
Qed.

Lemma described_exist found l e :
  In e (imap (describe found) l) -> specExists e = true.
Proof.
  intros Hin. apply list_elem_of_In in Hin.
  apply list_elem_of_lookup in Hin as [i Hi].
  rewrite list_lookup_imap in Hi.
  destruct (l !! i) as [v|]; simpl in Hi; [|discriminate].
  now injection Hi as <-.
Qed.

Lemma fallback_absent wanted :
  existsb (fun v => String.eqb (version v) wanted && specExists v)
          fallbackVersions = false.
Proof. simpl. now rewrite !andb_false_r. Qed.

Lemma cacheKey_inj s1 s2 l : cacheKey s1 l = cacheKey s2 l -> s1 = s2.
Proof.
  unfold cacheKey. intros Heq.
  apply (f_equal list_ascii_of_string) in Heq. rewrite !chars_app in Heq.
  apply app_inv_tail in Heq.
  apply (f_equal string_of_list_ascii) in Heq.
  now rewrite !string_of_chars in Heq.
Qed.

Lemma answer_cases w (cache : gmap string (list ApiVersionInfo)) l s :
  answer w cache l s
  = match cache !! cacheKey s l with
    | Some stored => stored
    | None => detectVersions w s l
    end.
Proof.
  unfold answer, getApiVersions.
  now destruct (cache !! cacheKey s l).
Qed.

Lemma list_services w (cache : gmap string (list ApiVersionInfo)) l done :
  listed w cache l done (fold_left (list_service w l) done (∅, cache)).
Proof.
  induction done as [|x done IH] using rev_ind.
  - unfold listed. simpl.
    repeat split; try (intros s []); try (intros; apply lookup_empty);
      reflexivity.
  - rewrite fold_left_app. simpl.
    destruct (fold_left (list_service w l) done (∅, cache)) as [m c].
    destruct IH as (Hm & Hout & Hproto & Hc & Hframe). simpl in *.
    assert (Hx : c !! cacheKey x l = Some (answer w cache l x)
                 \/ (c !! cacheKey x l = None
                     /\ cache !! cacheKey x l = None)).
    { destruct (in_dec String.string_dec x done) as [Hin|Hnin].
      - left. now apply Hc.
      - assert (Hk : c !! cacheKey x l = cache !! cacheKey x l).
        { apply Hframe. intros s Hs Heq. apply cacheKey_inj in Heq.
          now subst. }
        rewrite Hk, answer_cases.
        destruct (cache !! cacheKey x l); [now left | now right]. }
    assert (Hget : getApiVersions w c x l
                   = (answer w cache l x,
                      match c !! cacheKey x l with
                      | Some _ => c
                      | None => <[cacheKey x l := answer w cache l x]> c
                      end)).
    { unfold getApiVersions.
      destruct Hx as [Hx | [Hx Hx0]]; rewrite Hx; [reflexivity|].
      now rewrite answer_cases, Hx0. }
    unfold list_service. simpl. rewrite Hget. simpl.
    unfold listed. simpl. unfold assign_own.
    split; [|split; [|split; [|split]]].
    + intros s Hs Hne. apply in_app_or in Hs.
      destruct (String.eqb_spec x "__proto__") as [->|Hxp].
      * destruct Hs as [Hs | [<- | []]]; [now apply Hm | congruence].
      * destruct (String.string_dec x s) as [->|Hxs];
          [apply lookup_insert_eq|].
        rewrite lookup_insert_ne by assumption.
        destruct Hs as [Hs | [<- | []]]; [now apply Hm | congruence].
    + intros s Hs.
      assert (Hs' : ~ In s done) by (intros Hin; apply Hs, in_or_app; now left).
      assert (Hne : x <> s)
        by (intros ->; apply Hs, in_or_app; right; now left).
      destruct (String.eqb x "__proto__"); [now apply Hout|].
      rewrite lookup_insert_ne by assumption. now apply Hout.
    + destruct (String.eqb_spec x "__proto__") as [->|Hxp]; [exact Hproto|].
      rewrite lookup_insert_ne by assumption. exact Hproto.
    + intros s Hs. apply in_app_or in Hs.
      destruct Hx as [Hx | [Hx Hx0]]; rewrite Hx.
      * destruct Hs as [Hs | [<- | []]]; [now apply Hc | exact Hx].
      * destruct (String.string_dec x s) as [->|Hxs];
          [apply lookup_insert_eq|].
        rewrite lookup_insert_ne
          by (intros Heq; apply cacheKey_inj in Heq; contradiction).
        destruct Hs as [Hs | [<- | []]]; [now apply Hc | congruence].
    + intros k Hk.
      assert (Hk' : forall s, In s done -> k <> cacheKey s l)
        by (intros s Hs; apply Hk, in_or_app; now left).
      assert (Hkx : cacheKey x l <> k)
        by (intros <-; apply (Hk x); [apply in_or_app; right; now left
                                     | reflexivity]).
      destruct (c !! cacheKey x l); [now apply Hframe|].
      rewrite lookup_insert_ne by assumption. now apply Hframe.
Qed.

(** X17. On a cache miss with a scan that succeeds,
    [checkApiVersionExists] answers [true] exactly when some file of the
    service and language lies in the directory of that version, which is
    named [v<digits>], and holds a document with an [info] block. *)
Theorem version_exists_iff_a_file_holds_it
    (w : World) (cache : gmap string (list ApiVersionInfo))
    (serviceName wanted language : string) (modules : list YamlModule) :
  versionedModules w = Ok modules ->
  cache !! cacheKey serviceName language = None ->
  fst (checkApiVersionExists w cache serviceName wanted language) = true
  <-> exists f, In f (service_files modules serviceName language)
                /\ holds_version f wanted.
Proof.
  intros Hmods Hmiss.
  destruct (check_answer w cache serviceName wanted language) as [-> _].
  rewrite (miss_computes _ _ _ _ _ Hmods Hmiss).
  set (files := service_files modules serviceName language).
  set (cs := omap contribution files).
  set (sorted := sort_versions _).
  assert (Hin : In wanted sorted
                <-> exists f, In f files /\ holds_version f wanted).
  { unfold sorted.
    rewrite <- (contributions_hold files wanted). fold cs.
    split.
    - intros Hw.
      apply (Permutation_in _ (Permutation_sym (sort_versions_perm _))) in Hw.
      apply (proj1 (set_adds_spec _ _)) in Hw as [Hw | []].
      apply in_map_iff in Hw as ([v info] & Hv & Hc). simpl in Hv. subst v.
      now exists info.
    - intros [info Hc].
      apply (Permutation_in _ (sort_versions_perm _)).
      apply (proj1 (set_adds_spec _ _)). left.
      apply in_map_iff. now exists (wanted, info). }
  rewrite <- Hin, existsb_exists. split.
  - intros (e & He & Hok). apply andb_true_iff in Hok as [Hv _].
    apply String.eqb_eq in Hv. subst wanted.
    rewrite <- (versions_of_imap (omap entry_of cs) sorted).
    now apply in_map.
  - intros Hw.
    rewrite <- (versions_of_imap (omap entry_of cs) sorted) in Hw.
    apply in_map_iff in Hw as (e & Hv & He). exists e. split; [exact He|].
    rewrite Hv, String.eqb_refl. simpl.
    exact (described_exist _ _ _ He).
Qed.

Lemma version_exists_iff_a_file_holds_it_witness :
  fst (checkApiVersionExists Trees.two_versions ∅ "payment-api" "v2" "en")
  = true
  <-> exists f,
        In f (service_files
                [ {| filePath := "/src/content/docs/en/apispecs/payment-api/v1/payment.yaml";
                     parsed := Ok (JObj [("info", JObj [("title", JStr "Payment API");
                                                        ("version", JStr "1.0.0")])]) |};
                  {| filePath := "/src/content/docs/en/apispecs/payment-api/v2/payment.yaml";
                     parsed := Ok (JObj [("info", JObj [("title", JStr "Payment API");
                                                        ("version", JStr "2.0.0")])]) |} ]
                "payment-api" "en")
        /\ holds_version f "v2".
Proof.
  apply (version_exists_iff_a_file_holds_it Trees.two_versions ∅
           "payment-api" "v2" "en"); reflexivity.
Defined.

(** X18. When the scan fails on a cache miss, [checkApiVersionExists]
    answers [false] for every version, and keeps answering [false] for
    that service and language in every later state of the file tree, the
    placeholder listing having been cached. *)
Theorem failed_scan_hides_every_version
    (w : World) (cache : gmap string (list ApiVersionInfo))
    (serviceName language : string) (e : error) :
  versionedModules w = Throw e ->
  cache !! cacheKey serviceName language = None ->
  forall wanted,
    fst (checkApiVersionExists w cache serviceName wanted language) = false
    /\ forall w' wanted',
         fst (checkApiVersionExists w'
                (snd (checkApiVersionExists w cache serviceName wanted
                        language))
                serviceName wanted' language) = false.
Proof.
  intros Hthrow Hmiss wanted.
  destruct (check_answer w cache serviceName wanted language) as [-> ->].
  assert (Hfst : fst (getApiVersions w cache serviceName language)
                 = fallbackVersions).
  { unfold getApiVersions, detectVersions. now rewrite Hmiss, Hthrow. }
  split; [rewrite Hfst; apply fallback_absent|].
  intros w' wanted'.
  destruct (check_answer w'
              (snd (getApiVersions w cache serviceName language))
              serviceName wanted' language) as [-> _].
  rewrite (hit_returns_stored w' _ serviceName language fallbackVersions).
  - apply fallback_absent.
  - now rewrite call_stores_result, Hfst.
Qed.

Lemma failed_scan_hides_every_version_witness :
  fst (checkApiVersionExists (Trees.flat_only (Throw TypeError)) ∅
         "payment-api" "v2" "en") = false
  /\ fst (checkApiVersionExists Trees.two_versions
            (snd (checkApiVersionExists
                    (Trees.flat_only (Throw TypeError)) ∅
                    "payment-api" "v2" "en"))
            "payment-api" "v2" "en") = false.
Proof.
  destruct (failed_scan_hides_every_version
              (Trees.flat_only (Throw TypeError)) ∅ "payment-api" "en"
              TypeError eq_refl (lookup_empty _) "v2") as [Hnow Hlater].
  exact (conj Hnow (Hlater Trees.two_versions "v2")).
Defined.

(** X19. When its glob import succeeds,
    [getAllApiServicesWithVersions] lists exactly the services found
    under the language (a directory called [__proto__] apart), each with
    what [getApiVersions] answers for it against the cache the call
    started with; afterwards the cache holds that answer for each of
    them, and every other entry of the cache is as it was. *)
Theorem all_services_listed_with_their_versions
    (w : World) (cache : gmap string (list ApiVersionInfo))
    (language : string) (modules : list YamlModule) :
  versionedModules w = Ok modules ->
  let found := services_of language modules in
  let out := getAllApiServicesWithVersions w cache language in
  (forall s, In s found -> s <> "__proto__" ->
             fst out !! s
             = Some (fst (getApiVersions w cache s language)))
  /\ (forall s, ~ In s found -> fst out !! s = None)
  /\ (forall s, In s found ->
                snd out !! cacheKey s language
                = Some (fst (getApiVersions w cache s language)))
  /\ (forall k, (forall s, In s found -> k <> cacheKey s language) ->
                snd out !! k = cache !! k).
Proof.
  intros Hmods found out.
  pose proof (list_services w cache language found) as Hl.
  unfold out, getAllApiServicesWithVersions. rewrite Hmods. fold found.
  destruct Hl as (Hm & Hout & _ & Hc & Hframe).
  repeat split; assumption.
Qed.

Lemma all_services_listed_with_their_versions_witness :
  fst (getAllApiServicesWithVersions Trees.two_versions ∅ "en")
    !! "payment-api"
  = Some (fst (getApiVersions Trees.two_versions ∅ "payment-api" "en")).
Proof.
  apply (all_services_listed_with_their_versions Trees.two_versions ∅ "en"
           _ eq_refl); [vm_compute; tauto | discriminate].
Defined.

End VersionQueriesFacts.

(** ** The simple loader and its discovery *)

Module SimpleDiscoveryFacts.
Import Js SimpleLoader SimpleDiscovery.

Lemma try_file_fields s l v f found :
  try_file s l v f = Some found ->
  origin found = (l, s, v)
  /\ fileName found = entryName f
  /\ content f = Ok (spec found)
  /\ truthy (get (spec found) "info") = true
  /\ truthy (get (spec found) "openapi") = true.
Proof.
  unfold try_file, origin.
  destruct (content f) as [doc|e]; [|discriminate].
  destruct (truthy doc); simpl; [|discriminate].
  destruct (truthy (get doc "info")) eqn:Hinfo; simpl; [|discriminate].
  destruct (truthy (get doc "openapi")) eqn:Hopen; simpl; [|discriminate].
  destruct (simpleOperations doc); [|discriminate].
  intros [= <-]. simpl. repeat split; assumption.
Qed.

Lemma first_valid_split s l v files found :
  first_valid s l v files = Some found ->
  exists skipped f later,
    files = (skipped ++ f :: later)%list
    /\ try_file s l v f = Some found
    /\ Forall (fun g => try_file s l v g = None) skipped.
Proof.
  induction files as [|g files IH]; simpl; [discriminate|].
  destruct (try_file s l v g) as [x|] eqn:Hg.
  - intros [= <-]. exists [], g, files. repeat split; [exact Hg | constructor].
  - intros Hrest. destruct (IH Hrest) as (skipped & f & later & -> & Hf & Hs).
    exists (g :: skipped), f, later.
    repeat split; [exact Hf | now constructor].
Qed.

Lemma loaded_origin fs s l v found :
  loadSimpleApiSpec fs s l v = Some found -> origin found = (l, s, v).
Proof.
  unfold loadSimpleApiSpec.
  destruct (fs l s v) as [[listing|e]|]; try discriminate.
  intros Hf. destruct (first_valid_split _ _ _ _ _ Hf) as (? & f & ? & _ & Ht & _).
  exact (proj1 (try_file_fields _ _ _ _ _ Ht)).
Qed.

Lemma push_new_spec x l :
  (forall y, In y (push_new x l) <-> y = x \/ In y l)
  /\ (List.NoDup l -> List.NoDup (push_new x l)).
Proof. exact (ApiVersionsFacts.set_add_spec x l). Qed.

Lemma push_all_spec xs :
  forall l,
    (forall y, In y (push_all xs l) <-> In y xs \/ In y l)
    /\ (List.NoDup l -> List.NoDup (push_all xs l)).
Proof. exact (ApiVersionsFacts.set_adds_spec xs). Qed.

Lemma discover_versions_distinct t lang serviceDirs :
  forall versions found,
    discover_versions t lang serviceDirs versions = Ok found ->
    List.NoDup versions -> List.NoDup found.
Proof.
  induction serviceDirs as [|s rest IH]; intros versions found; simpl.
  - now intros [= <-].
  - destruct (serviceDir t lang s) as [[entries|e]|]; try discriminate.
    + intros Hrest Hnd. apply (IH _ _ Hrest).
      now apply (proj2 (push_all_spec _ _)).
    + apply IH.
Qed.

Lemma discover_languages_distinct t langs :
  forall state found,
    discover_languages t langs state = Ok found ->
    List.NoDup (fst state) -> List.NoDup (snd state) ->
    List.NoDup (fst found) /\ List.NoDup (snd found).
Proof.
  induction langs as [|lang rest IH]; intros state found; simpl.
  - intros [= <-]. auto.
  - destruct (apispecsDir t lang) as [[entries|e]|]; try discriminate.
    + destruct (discover_versions t lang (directories entries) (snd state))
        as [versions|e] eqn:Hv; simpl; [|discriminate].
      intros Hrest Hs Hvs. apply (IH _ _ Hrest); simpl.
      * now apply (proj2 (push_all_spec _ _)).
      * exact (discover_versions_distinct _ _ _ _ _ Hv Hvs).
    + apply IH.
Qed.

Lemma discover_languages_raises t langs lang e :
  In lang langs ->
  apispecsDir t lang = Some (Throw e) ->
  forall state, exists e', discover_languages t langs state = Throw e'.
Proof.
  induction langs as [|x rest IH]; intros Hin Hthrow state; [destruct Hin|].
  simpl. destruct Hin as [-> | Hin].
  - rewrite Hthrow. eauto.
  - destruct (apispecsDir t x) as [[entries|e0]|]; eauto.
    destruct (discover_versions t x (directories entries) (snd state));
      simpl; eauto.
Qed.

Lemma discovered_distinct t :
  List.NoDup (services (discoverApiServices t))
  /\ List.NoDup (versions (discoverApiServices t)).
Proof.
  assert (Hone : forall x : string, List.NoDup [x])
    by (intros x; constructor; [intros [] | constructor]).
  assert (Hu : List.NoDup (services undiscovered)
               /\ List.NoDup (versions undiscovered))
    by (split; simpl; [constructor | apply Hone]).
  unfold discoverApiServices.
  destruct (docsDir t) as [[entries|e]|]; try exact Hu.
  destruct (discover_languages t (directories entries) ([], []))
    as [[ss vs]|e] eqn:Hd; [|exact Hu].
  destruct (discover_languages_distinct _ _ _ _ Hd
              (List.NoDup_nil _) (List.NoDup_nil _)) as [Hs Hv].
  simpl in *. split; [exact Hs|].
  destruct vs; [apply Hone | exact Hv].
Qed.

Lemma origins_of_omap {A} (g : A -> option SimpleApiSpec)
    (key : A -> string * string * string) l :
  (forall x found, g x = Some found -> origin found = key x) ->
  (forall x y, key x = key y -> x = y) ->
  List.NoDup l ->
  List.NoDup (map origin (omap g l)).
Proof.
  intros Hkey Hinj. induction l as [|x l IH]; intros Hnd; simpl.
  - constructor.
  - apply List.NoDup_cons_iff in Hnd as [Hx Hnd].
    destruct (g x) as [found|] eqn:Hg; simpl; [|auto].
    constructor; [|auto].
    rewrite in_map_iff. intros (other & Ho & Hin).
    apply list_elem_of_In, list_elem_of_omap in Hin as (y & Hy & Hgy).
    rewrite (Hkey _ _ Hg), (Hkey _ _ Hgy) in Ho.
    apply Hinj in Ho. subst y. apply Hx, list_elem_of_In, Hy.
Qed.

Lemma origins_of_flat_map {A} (f : A -> list SimpleApiSpec) l :
  List.NoDup l ->
  (forall x, In x l -> List.NoDup (map origin (f x))) ->
  (forall x y a b, In x l -> In y l -> In a (f x) -> In b (f y) ->
                   origin a = origin b -> x = y) ->
  List.NoDup (map origin (flat_map f l)).
Proof.
  induction l as [|x l IH]; intros Hnd Hone Hsep; simpl; [constructor|].
  apply List.NoDup_cons_iff in Hnd as [Hx Hnd].
  rewrite map_app. apply List.NoDup_app.
  - apply Hone. now left.
  - apply IH; [exact Hnd | |].
    + intros y Hy. apply Hone. now right.
    + intros y z a b Hy Hz. apply Hsep; now right.
  - intros k Hk Hk'. apply in_map_iff in Hk, Hk'.
    destruct Hk as (a & Ha & Hina). destruct Hk' as (b & Hb & Hinb).
    apply in_flat_map in Hinb as (y & Hy & Hinb).
    assert (x = y).
    { apply (Hsep x y a b); auto; [now left | now right | congruence]. }
    subst y. contradiction.
Qed.

Lemma loaded_all_membership t found :
  In found (loadAllSimpleApiSpecs t)
  <-> exists l s v,
        In l (languages (discoverApiServices t))
        /\ In s (services (discoverApiServices t))
        /\ In v (versions (discoverApiServices t))
        /\ loadSimpleApiSpec (versionDir t) s l v = Some found.
Proof.
  unfold loadAllSimpleApiSpecs.
  set (d := discoverApiServices t).
  assert (Hgen :
    In found
       (flat_map
          (fun language =>
             flat_map
               (fun service =>
                  omap (fun version =>
                          loadSimpleApiSpec (versionDir t) service language
                            version) (versions d))
               (services d)) (languages d))
    <-> exists l s v,
          In l (languages d) /\ In s (services d) /\ In v (versions d)
          /\ loadSimpleApiSpec (versionDir t) s l v = Some found).
  { rewrite in_flat_map. split.
    - intros (l & Hl & Hin). apply in_flat_map in Hin as (s & Hs & Hin).
      apply list_elem_of_In, list_elem_of_omap in Hin as (v & Hv & Hload).
      apply list_elem_of_In in Hv. exists l, s, v. auto.
    - intros (l & s & v & Hl & Hs & Hv & Hload). exists l. split; [exact Hl|].
      apply in_flat_map. exists s. split; [exact Hs|].
      apply list_elem_of_In, list_elem_of_omap. exists v.
      split; [apply list_elem_of_In, Hv | exact Hload]. }
  destruct (services d) eqn:Hsd; [|exact Hgen].
  split; [intros [] | intros (? & ? & ? & _ & [] & _)].
Qed.

(** X20. A spec returned by [loadSimpleApiSpec] carries the service,
    language and folder version it was asked for, and is the document of
    the first file of the version directory, in directory order and among
    those named [*.yaml] or [*.yml], that the loop does not pass over; it
    has an [info] block and an [openapi] field. *)
Theorem simple_spec_is_first_usable_file
    (fs : FileSystem) (serviceName language version : string)
    (found : SimpleApiSpec) :
  loadSimpleApiSpec fs serviceName language version = Some found ->
  id found = serviceName
  /\ SimpleLoader.language found = language
  /\ folderVersion found = version
  /\ truthy (get (spec found) "info") = true
  /\ truthy (get (spec found) "openapi") = true
  /\ exists listing skipped f later,
       fs language serviceName version = Some (Ok listing)
       /\ List.filter
            (fun g => ends_with (entryName g) ".yaml"
                      || ends_with (entryName g) ".yml") listing
          = (skipped ++ f :: later)%list
       /\ fileName found = entryName f
       /\ content f = Ok (spec found)
       /\ Forall (fun g => try_file serviceName language version g = None)
                 skipped.
Proof.
  intros Hload. pose proof Hload as Hfirst. unfold loadSimpleApiSpec in Hfirst.
  destruct (fs language serviceName version) as [[listing|e]|];
    try discriminate.
  destruct (first_valid_split _ _ _ _ _ Hfirst)
    as (skipped & f & later & Hsplit & Ht & Hskip).
  destruct (try_file_fields _ _ _ _ _ Ht) as (Ho & Hname & Hc & Hi & Hopen).
  unfold origin in Ho. injection Ho as Hl Hs Hv.
  repeat split; try assumption.
  exists listing, skipped, f, later. repeat split; assumption.
Qed.

Lemma simple_spec_is_first_usable_file_witness :
  exists found,
    loadSimpleApiSpec (versionDir one_service) "pets" "en" "v3" = Some found
    /\ id found = "pets"
    /\ SimpleLoader.language found = "en"
    /\ folderVersion found = "v3".
Proof.
  eexists. split; [vm_compute; reflexivity|].
  destruct (simple_spec_is_first_usable_file
              (versionDir one_service) "pets" "en" "v3" _ eq_refl)
    as (Hid & Hlang & Hversion & _).
  exact (conj Hid (conj Hlang Hversion)).
Defined.

(** X21. [loadAllSimpleApiSpecs] returns exactly the specs that
    [loadSimpleApiSpec] finds for a discovered language, a discovered
    service and a discovered version, whichever service or language the
    version was discovered under; when the language directories have
    distinct names, it returns at most one spec for each language,
    service and version. *)
Theorem simple_specs_one_per_language_service_version (t : Tree) :
  List.NoDup (languages (discoverApiServices t)) ->
  List.NoDup (map origin (loadAllSimpleApiSpecs t))
  /\ forall found,
       In found (loadAllSimpleApiSpecs t)
       <-> exists l s v,
             In l (languages (discoverApiServices t))
             /\ In s (services (discoverApiServices t))
             /\ In v (versions (discoverApiServices t))
             /\ loadSimpleApiSpec (versionDir t) s l v = Some found.
Proof.
  intros Hlangs. split; [|apply loaded_all_membership].
  destruct (discovered_distinct t) as [Hss Hvs].
  unfold loadAllSimpleApiSpecs.
  set (d := discoverApiServices t) in *.
  enough (Hmain :
    List.NoDup
      (map origin
         (flat_map
            (fun l =>
               flat_map
                 (fun s =>
                    omap (fun v => loadSimpleApiSpec (versionDir t) s l v)
                         (versions d))
                 (services d)) (languages d))))
    by (destruct (services d); [constructor | exact Hmain]).
  assert (Hinner : forall l s,
             List.NoDup
               (map origin
                  (omap (fun v => loadSimpleApiSpec (versionDir t) s l v)
                        (versions d)))).
  { intros l s.
    apply (origins_of_omap _ (fun v => (l, s, v))); [| |exact Hvs].
    - intros v found. apply loaded_origin.
    - intros x y [= ->]. reflexivity. }
  assert (Hfrom : forall l s a,
             In a (omap (fun v => loadSimpleApiSpec (versionDir t) s l v)
                        (versions d)) ->
             SimpleLoader.language a = l /\ id a = s).
  { intros l s a Ha.
    apply list_elem_of_In, list_elem_of_omap in Ha as (v & _ & Hload).
    apply loaded_origin in Hload. unfold origin in Hload.
    now injection Hload as -> -> _. }
  apply origins_of_flat_map; [exact Hlangs | |].
  - intros l _. apply origins_of_flat_map; [exact Hss | auto |].
    intros x y a b _ _ Ha Hb Hab.
    apply Hfrom in Ha as [_ Ha]. apply Hfrom in Hb as [_ Hb].
    unfold origin in Hab. congruence.
  - intros x y a b _ _ Ha Hb Hab.
    apply in_flat_map in Ha as (s & _ & Ha).
    apply in_flat_map in Hb as (s' & _ & Hb).
    apply Hfrom in Ha as [Ha _]. apply Hfrom in Hb as [Hb _].
    unfold origin in Hab. congruence.
Qed.

Lemma simple_specs_one_per_language_service_version_witness :
  List.NoDup (map origin (loadAllSimpleApiSpecs one_service)).
Proof.
  apply (simple_specs_one_per_language_service_version one_service).
  vm_compute. constructor; [intros [] | constructor].
Defined.

(** X22. Discovery stops at the first listing it cannot read: when the
    documentation root is missing or unreadable, or [apispecs] of one
    language directory exists and cannot be listed, no service is
    reported, so that [loadAllSimpleApiSpecs] returns nothing and the YAML
    endpoint gets no path, whatever the other languages hold. *)
Theorem unreadable_listing_empties_discovery (t : Tree) :
  (docsDir t = None
   \/ (exists e, docsDir t = Some (Throw e))
   \/ (exists entries lang e,
         docsDir t = Some (Ok entries)
         /\ In lang (directories entries)
         /\ apispecsDir t lang = Some (Throw e))) ->
  discoverApiServices t = undiscovered
  /\ loadAllSimpleApiSpecs t = []
  /\ getStaticPaths t = [].
Proof.
  intros Hbad.
  assert (Hd : discoverApiServices t = undiscovered).
  { unfold discoverApiServices.
    destruct Hbad as [-> | [[e ->] | (entries & lang & e & -> & Hin & Hthrow)]];
      try reflexivity.
    destruct (discover_languages_raises t _ _ _ Hin Hthrow ([], []))
      as [e' ->].
    reflexivity. }
  assert (Hall : loadAllSimpleApiSpecs t = []).
  { unfold loadAllSimpleApiSpecs. now rewrite Hd. }
  unfold getStaticPaths. rewrite Hall. auto.
Qed.

Lemma unreadable_listing_empties_discovery_witness :
  loadAllSimpleApiSpecs unreadable_language = []
  /\ map fileName (loadAllSimpleApiSpecs one_service) = ["pets.yaml"].
Proof.
  split; [|reflexivity].
  apply (unreadable_listing_empties_discovery unreadable_language).
  right. right.
  exists [ {| direntName := "en"; isDirectory := true |};
           {| direntName := "ar"; isDirectory := true |} ], "ar", TypeError.
  repeat split. right. now left.
Defined.

End SimpleDiscoveryFacts.

(** ** Static paths of the JSON endpoint *)

Module SpecPathsFacts.
Import Js DynamicOpenapi DynamicOpenapiFacts SpecPaths.

Section WithRuntime.
Context `{Runtime}.






End WithRuntime.



End SpecPathsFacts.

(** ** Schemas that refer to themselves *)

Module ExampleCallsFacts.
Import Js ExampleGen ExampleGenFacts ExampleCalls.

Lemma example_fields_raises (recur : json -> result json) props :
  forall example propName propSchema e,
    In (propName, propSchema) props ->
    recur propSchema = Throw e ->
    exists e', example_fields recur props example = Throw e'.
Proof.
  induction props as [|[n p] props IH]; intros example propName propSchema e;
    [intros []|].
  simpl. intros [Heq | Hin] Hthrow.
  - injection Heq as -> ->. rewrite Hthrow. simpl. eauto.
  - destruct (recur p) as [v|e0]; simpl; [|eauto].
    exact (IH _ _ _ _ Hin Hthrow).
Qed.

Lemma body_raises `{Engine} (recur : json -> result json) frame spec s s' e :
  calls spec s s' ->
  recur s' = Throw e ->
  exists e', exampleBody recur frame s spec = Throw e'.
Proof.
  intros Hcall Hthrow. unfold exampleBody.
  destruct Hcall as [schema ref target Ht Hex Href Hne Hwalk
                    | schema (Ht & Hex & Href) Htype Hitems
                    | schema propName propSchema (Ht & Hex & Href) Htype
                        Hprops Hin].
  - rewrite Ht, Hex, Href, (nonempty_truthy_str _ Hne), Hwalk. simpl. eauto.
  - unfold has_type in Htype.
    rewrite Ht, Hex, Href, Htype, Hitems. simpl. rewrite Hthrow. simpl. eauto.
  - unfold has_type in Htype.
    rewrite Ht, Hex, Href, Htype, Hprops. simpl.
    destruct (example_fields_raises recur _ [] _ _ _ Hin Hthrow) as [e' ->].
    simpl. eauto.
Qed.

(** X24. A schema from which the generator's recursive calls can go on
    for ever (one that reaches itself through references, [items] or
    [properties]) never gets an example: whatever the stack left,
    [generateExampleFromSchema] ends in an exception. *)
Theorem cyclic_schemas_never_get_an_example
    (E : Engine) (spec : json) (cyclic : json -> Prop) :
  (forall s, cyclic s -> exists s', calls spec s s' /\ cyclic s') ->
  forall depth s,
    cyclic s -> exists e, generateExampleFromSchema depth s spec = Throw e.
Proof.
  intros Hclosed. induction depth as [|depth IH]; intros s Hs.
  - simpl. eauto.
  - destruct (Hclosed s Hs) as (s' & Hcall & Hs').
    destruct (IH s' Hs') as [e He]. simpl.
    exact (body_raises _ _ _ _ _ _ Hcall He).
Qed.

Lemma cyclic_schemas_never_get_an_example_witness :
  exists e,
    @generateExampleFromSchema plain_engine 1000 node tree_spec
    = Throw e.
Proof.
  apply (cyclic_schemas_never_get_an_example plain_engine tree_spec
           (fun s => In s [node; children; node_ref])); [|now left].
  intros s [<- | [<- | [<- | []]]].
  - exists children. split; [|right; now left].
    apply (call_property tree_spec node "children" children);
      [repeat split | reflexivity | reflexivity | right; now left].
  - exists node_ref. split; [|right; right; now left].
    apply (call_items tree_spec children);
      [repeat split | reflexivity | reflexivity].
  - exists node. split; [|now left].
    apply (call_ref tree_spec node_ref "#/components/schemas/Node" node);
      [reflexivity | reflexivity | reflexivity | discriminate | reflexivity].
Defined.

End ExampleCallsFacts.
